(** * calcEntry: the embedded arithmetic-expression evaluator

    Shallow embedding of
    [applications/test/dictionary/calcEntry/calcEntryParser.cpp]
    (the Coco/R recursive-descent parser of OpenFOAM's calcEntry), the
    properties of it that the specification states, and further
    properties of the parser and of the ParaView reader
    [vtkPVFoamReader.cxx].

    Conventions of the embedding.
    - A C++ [int] is a [Z]; the three places where the code does [int]
      arithmetic ([++errDist], [count++], [t->pos + length]) wrap around
      with [wrap32].
    - A [Token*] is a [TokenPtr]: null, the parser's own dummy token, or a
      token handed out by the scanner.  The dummy token is the only token
      the parser writes to, and the only one it compares pointers with.
    - A [scalar] is an IEEE-754 binary64 number ([PrimFloat.float]).
    - Every procedure returns a [Res]: [Undef] where C++ gives no meaning
      (null dereference, table index out of range) and [OutOfFuel] where
      the fuel of a loop or of the recursion is used up.
    - The [debug] output of the grammar actions is left out ([debug] off). *)

From Stdlib Require Import ZArith List String Ascii Bool Lia Floats DecimalString
  DecimalZ.
Import ListNotations.
Open Scope string_scope.
Open Scope Z_scope.

Set Implicit Arguments.
Set Warnings "-notation-for-abbreviation".

(* ------------------------------------------------------------------ *)
(** ** Results of partial procedures *)

Inductive Res (A : Type) : Type :=
| Ok (a : A)
| OutOfFuel
| Undef.

Arguments Ok {A} a.
Arguments OutOfFuel {A}.
Arguments Undef {A}.

Definition bind {A B : Type} (c : Res A) (k : A -> Res B) : Res B :=
  match c with
  | Ok a => k a
  | OutOfFuel => OutOfFuel
  | Undef => Undef
  end.

Notation "x <- c ;; k" := (bind c (fun x => k))
  (at level 61, c at next level, right associativity).
Notation "' pat <- c ;; k" := (bind c (fun x => match x with pat => k end))
  (at level 61, pat pattern, c at next level, right associativity).

(** A computation indexed by fuel settles on [r]: from some amount of fuel
    on, it returns [r]. *)
Definition converges {A : Type} (c : nat -> Res A) (r : A) : Prop :=
  exists n0 : nat, forall n : nat, (n0 <= n)%nat -> c n = Ok r.

(* ------------------------------------------------------------------ *)
(** ** Machine integers *)

Definition INT_MAX : Z := 2147483647.
Definition INT_MIN : Z := -2147483648.

Definition wrap32 (z : Z) : Z := (z + 2147483648) mod 4294967296 - 2147483648.

(* ------------------------------------------------------------------ *)
(** ** Tokens *)

Module Token.

(** [kind], [pos], [col], [line], [val] of the scanner's [Token]; the
    [next] link is written once by [Get] (set to null) and never read by
    the parser, so it is not kept. *)
Record Token : Type := mk {
  kind : Z;
  pos : Z;
  col : Z;
  line : Z;
  val : string
}.

(** Modelled from the spec: [Token::Token()] is declared in the scanner
    header, which is not among the sources; a fresh token has kind 0, no
    position and no text. *)
Definition new : Token := mk 0 0 0 0 EmptyString.

Definition with_val (s : string) (k : Token) : Token :=
  mk (kind k) (pos k) (col k) (line k) s.

End Token.

Notation Token := Token.Token.

(** Modelled from the spec: [coco_string_length] of the scanner header,
    the number of characters of a token text. *)
Definition coco_string_length (s : string) : Z := Z.of_nat (String.length s).

Inductive TokenPtr : Type :=
| Null
| DummyPtr
| ScannedPtr (tok : Token).

(* ------------------------------------------------------------------ *)
(** ** The scanner (external collaborator) *)

Module Scanner.

(** Modelled from the spec: the Scanner is an external collaborator with
    [next_token], [get_cursor] and [set_cursor] (section 6).  [pending] is
    the tokenisation of the buffer ahead of the read position, [bufPos] the
    buffer cursor.  At the end of the buffer the scanner keeps returning
    the end-marker (kind 0). *)
Record Scanner : Type := mk {
  pending : list Token;
  bufPos : Z
}.

Definition eofToken (sc : Scanner) : Token := Token.mk 0 (bufPos sc) 0 0 EmptyString.

(** [scanner->Scan()]: hands out the next token and leaves the cursor
    behind its text. *)
Definition Scan (sc : Scanner) : Token * Scanner :=
  match pending sc with
  | [] => (eofToken sc, sc)
  | tok :: rest =>
      (tok, mk rest (Token.pos tok + coco_string_length (Token.val tok)))
  end.

(** [scanner->buffer->SetPos(value)]

    Modelled from the spec: [set_cursor] (section 6) moves the cursor of
    the buffer.  [pending] is left as it is: the token the scanner has
    already taken from the buffer as lookahead of the parser is not put
    back, so this model does not say which token a [Scan] after a
    reposition hands out.  Within a call of [Parse] nothing is scanned
    after the reposition (it is the last statement of the braced branch
    of [calcEntry], with which [Parse] ends), and the properties below
    speak of the cursor after a reposition only, never of [pending] or of
    a [Scan] after it. *)
Definition SetPos (value : Z) (sc : Scanner) : Scanner :=
  mk (pending sc) value.

(** [get_cursor] *)
Definition GetPos (sc : Scanner) : Z := bufPos sc.

End Scanner.

Notation Scanner := Scanner.Scanner.

(* ------------------------------------------------------------------ *)
(** ** Errors *)

Module Errors.

(** [count] is the member of the class; [log] is what [wprintf] has
    written: one (line, column, message) per diagnostic. *)
Record Errors : Type := mk {
  count : Z;
  log : list (Z * Z * string)
}.

(** [Errors::Errors()] *)
Definition new : Errors := mk 0 [].

(** [Errors::clear()] *)
Definition clear (e : Errors) : Errors := mk 0 (log e).

(** The message of a terminal: its text between double quotes, then
    [expected]. *)
Definition quoted_expected (s : string) : string :=
  String (ascii_of_nat 34) (s ++ String (ascii_of_nat 34) " expected").

(** [Errors::strerror(n)] *)
Definition strerror (n : Z) : string :=
  match n with
  | 0 => "EOF expected"
  | 1 => "ident expected"
  | 2 => "string expected"
  | 3 => "variable expected"
  | 4 => "number expected"
  | 5 => quoted_expected "{"
  | 6 => quoted_expected "}"
  | 7 => quoted_expected "+"
  | 8 => quoted_expected "-"
  | 9 => quoted_expected "*"
  | 10 => quoted_expected "/"
  | 11 => quoted_expected "("
  | 12 => quoted_expected ")"
  | 13 => "??? expected"
  | 14 => "invalid calcEntry"
  | 15 => "invalid Factor"
  | _ => "error " ++ NilEmpty.string_of_int (Z.to_int n)
  end.

(** [Errors::Error(line, col, msg)] *)
Definition Error (line col : Z) (msg : string) (e : Errors) : Errors :=
  mk (wrap32 (count e + 1)) (log e ++ [(line, col, msg)]).

(** [Errors::SynErr(line, col, n)] *)
Definition SynErr (line col n : Z) (e : Errors) : Errors :=
  Error line col (strerror n) e.

End Errors.

Notation Errors := Errors.Errors.

Open Scope list_scope.

(* ------------------------------------------------------------------ *)
(** ** What the parser takes from its header and from the host *)

(** Modelled from the spec: the enumeration of token kinds is declared in
    calcEntryParser.h, which is not among the sources.  The terminals are
    numbered 0 to 12 by [Errors::strerror], 13 is the no-match sentinel
    and the table of [StartOf] has maxT + 2 = 15 columns. *)
Definition maxT : Z := 13.

(** calcEntryParser.h also declares the constant [minErrDist] and the two
    grammar helpers [getScalar] and [getDictLookup]; they are parameters of
    the development.  The helpers are what section 6 of the specification
    calls [parse_numeric_literal] and [resolve_variable]: functions of the
    text of the token just consumed. *)
Class ParserHeader : Type := {
  minErrDist : Z;
  minErrDist_int : INT_MIN <= minErrDist <= INT_MAX;
  parse_numeric_literal : string -> float;
  resolve_variable : string -> float
}.

(* ------------------------------------------------------------------ *)
(** ** The parser *)

Record Parser : Type := mkParser {
  dummyToken : option Token;      (* None: the null pointer *)
  deleteErrorsDestruct_ : bool;
  errDist : Z;
  scanner : Scanner;
  errors : Errors;
  t : TokenPtr;
  la : TokenPtr;
  val : float
}.

Definition with_dummyToken (d : option Token) (p : Parser) : Parser :=
  mkParser d (deleteErrorsDestruct_ p) (errDist p) (scanner p) (errors p)
           (t p) (la p) (val p).

Definition with_errDist (e : Z) (p : Parser) : Parser :=
  mkParser (dummyToken p) (deleteErrorsDestruct_ p) e (scanner p) (errors p)
           (t p) (la p) (val p).

Definition with_scanner (sc : Scanner) (p : Parser) : Parser :=
  mkParser (dummyToken p) (deleteErrorsDestruct_ p) (errDist p) sc (errors p)
           (t p) (la p) (val p).

Definition with_errors (e : Errors) (p : Parser) : Parser :=
  mkParser (dummyToken p) (deleteErrorsDestruct_ p) (errDist p) (scanner p) e
           (t p) (la p) (val p).

Definition with_t (ptr : TokenPtr) (p : Parser) : Parser :=
  mkParser (dummyToken p) (deleteErrorsDestruct_ p) (errDist p) (scanner p)
           (errors p) ptr (la p) (val p).

Definition with_la (ptr : TokenPtr) (p : Parser) : Parser :=
  mkParser (dummyToken p) (deleteErrorsDestruct_ p) (errDist p) (scanner p)
           (errors p) (t p) ptr (val p).

Definition with_val (v : float) (p : Parser) : Parser :=
  mkParser (dummyToken p) (deleteErrorsDestruct_ p) (errDist p) (scanner p)
           (errors p) (t p) (la p) v.

(** [*ptr] *)
Definition deref (p : Parser) (ptr : TokenPtr) : Res Token :=
  match ptr with
  | Null => Undef
  | DummyPtr => match dummyToken p with Some d => Ok d | None => Undef end
  | ScannedPtr tok => Ok tok
  end.

(** [dummyToken == ptr] *)
Definition is_dummyToken (p : Parser) (ptr : TokenPtr) : bool :=
  match dummyToken p, ptr with
  | None, Null => true
  | Some _, DummyPtr => true
  | _, _ => false
  end.

(** [la->kind] *)
Definition la_kind (p : Parser) : Res Z :=
  tok <- deref p (la p) ;; Ok (Token.kind tok).

Section WithHeader.

Context {hdr : ParserHeader}.

(** [Parser::Parser(scan, err)]; [val] is not initialised by the
    constructor, [val0] is whatever it holds. *)
Definition newParser (scan : Scanner) (err : option Errors) (val0 : float)
  : Parser :=
  mkParser None
           (match err with Some _ => false | None => true end)
           minErrDist
           scan
           (match err with Some e => e | None => Errors.new end)
           Null
           Null
           val0.

(** [Parser::SynErr(n)] *)
Definition SynErr (n : Z) (p : Parser) : Res Parser :=
  p <- (if minErrDist <=? errDist p then
          tok <- deref p (la p) ;;
          Ok (with_errors
                (Errors.SynErr (Token.line tok) (Token.col tok) n (errors p)) p)
        else Ok p) ;;
  Ok (with_errDist 0 p).

(** [Parser::SemErr(msg)] *)
Definition SemErr (msg : string) (p : Parser) : Res Parser :=
  p <- (if minErrDist <=? errDist p then
          tok <- deref p (t p) ;;
          Ok (with_errors
                (Errors.Error (Token.line tok) (Token.col tok) msg (errors p)) p)
        else Ok p) ;;
  Ok (with_errDist 0 p).

(** [Parser::Get()]; one unit of fuel per turn of the [for (;;)]. *)
Fixpoint Get (fuel : nat) (p : Parser) : Res Parser :=
  match fuel with
  | O => OutOfFuel
  | S fuel' =>
      let p := with_t (la p) p in
      let (tok, sc) := Scanner.Scan (scanner p) in
      let p := with_la (ScannedPtr tok) (with_scanner sc p) in
      if Token.kind tok <=? maxT then
        Ok (with_errDist (wrap32 (errDist p + 1)) p)
      else
        p <- (if negb (is_dummyToken p (t p)) then
                match dummyToken p with
                | None => Undef
                | Some _ =>
                    tk <- deref p (t p) ;;
                    Ok (with_t DummyPtr
                          (with_dummyToken
                             (Some (Token.mk (Token.kind tk) (Token.pos tk)
                                             (Token.col tk) (Token.line tk)
                                             (Token.val tk))) p))
                end
              else Ok p) ;;
        Get fuel' (with_la (t p) p)
  end.

(** [Parser::Expect(n)] *)
Definition Expect (fuel : nat) (n : Z) (p : Parser) : Res Parser :=
  k <- la_kind p ;;
  if k =? n then Get fuel p else SynErr n p.

(** The table [set] of [Parser::StartOf]. *)
Definition set : list (list bool) :=
  let T := true in
  let x := false in
  [ [T;x;x;x; x;x;x;x; x;x;x;x; x;x;x];
    [x;x;x;T; T;x;x;x; T;x;x;T; x;x;x] ].

(** [Parser::StartOf(s)]: [set[s][la->kind]], undefined outside the
    2 x 15 table. *)
Definition StartOf (s : Z) (p : Parser) : Res bool :=
  k <- la_kind p ;;
  if (0 <=? s) && (s <? 2) && (0 <=? k) && (k <? 15) then
    Ok (nth (Z.to_nat k) (nth (Z.to_nat s) set []) false)
  else Undef.

(** The [while (!StartOf(follow)) Get();] of [ExpectWeak]. *)
Fixpoint ExpectWeak_skip (fuel : nat) (follow : Z) (p : Parser) : Res Parser :=
  match fuel with
  | O => OutOfFuel
  | S fuel' =>
      b <- StartOf follow p ;;
      if negb b then
        p <- Get fuel' p ;; ExpectWeak_skip fuel' follow p
      else Ok p
  end.

(** [Parser::ExpectWeak(n, follow)] *)
Definition ExpectWeak (fuel : nat) (n follow : Z) (p : Parser) : Res Parser :=
  k <- la_kind p ;;
  if k =? n then Get fuel p
  else
    p <- SynErr n p ;;
    ExpectWeak_skip fuel follow p.

(** [StartOf(syFol) || StartOf(repFol) || StartOf(0)], evaluated from the
    left and only as far as needed. *)
Definition WeakSeparator_sync (syFol repFol : Z) (p : Parser) : Res bool :=
  b1 <- StartOf syFol p ;;
  if b1 then Ok true
  else
    b2 <- StartOf repFol p ;;
    if b2 then Ok true else StartOf 0 p.

(** The [while (!(...)) Get();] of [WeakSeparator]. *)
Fixpoint WeakSeparator_skip (fuel : nat) (syFol repFol : Z) (p : Parser)
  : Res Parser :=
  match fuel with
  | O => OutOfFuel
  | S fuel' =>
      b <- WeakSeparator_sync syFol repFol p ;;
      if negb b then
        p <- Get fuel' p ;; WeakSeparator_skip fuel' syFol repFol p
      else Ok p
  end.

(** [Parser::WeakSeparator(n, syFol, repFol)] *)
Definition WeakSeparator (fuel : nat) (n syFol repFol : Z) (p : Parser)
  : Res (bool * Parser) :=
  k <- la_kind p ;;
  if k =? n then
    p <- Get fuel p ;; Ok (true, p)
  else
    b <- StartOf repFol p ;;
    if b then Ok (false, p)
    else
      p <- SynErr n p ;;
      p <- WeakSeparator_skip fuel syFol repFol p ;;
      b <- StartOf syFol p ;;
      Ok (b, p).

(** [getDictLookup()] and [getScalar()]: the host's resolvers applied to
    the text of the token just consumed. *)
Definition getDictLookup (p : Parser) : Res float :=
  tk <- deref p (t p) ;; Ok (resolve_variable (Token.val tk)).

Definition getScalar (p : Parser) : Res float :=
  tk <- deref p (t p) ;; Ok (parse_numeric_literal (Token.val tk)).

(** [Parser::Expr], [Parser::Term], [Parser::Factor].  The [scalar&]
    argument is passed in and handed back; [val2] is the local of [Expr]
    and of [Term], which lives across the turns of their loops. *)
Fixpoint Expr (fuel : nat) (val : float) (p : Parser) {struct fuel}
  : Res (float * Parser) :=
  match fuel with
  | O => OutOfFuel
  | S fuel' =>
      ' (val, p) <- Term fuel' val p ;;
      Expr_loop fuel' val 0%float p
  end

with Expr_loop (fuel : nat) (val val2 : float) (p : Parser) {struct fuel}
  : Res (float * Parser) :=
  match fuel with
  | O => OutOfFuel
  | S fuel' =>
      k <- la_kind p ;;
      if (k =? 7) || (k =? 8) then
        if k =? 7 then
          p <- Get fuel' p ;;
          ' (val2, p) <- Term fuel' val2 p ;;
          Expr_loop fuel' (val + val2)%float val2 p
        else
          p <- Get fuel' p ;;
          ' (val2, p) <- Term fuel' val2 p ;;
          Expr_loop fuel' (val - val2)%float val2 p
      else Ok (val, p)
  end

with Term (fuel : nat) (val : float) (p : Parser) {struct fuel}
  : Res (float * Parser) :=
  match fuel with
  | O => OutOfFuel
  | S fuel' =>
      ' (val, p) <- Factor fuel' val p ;;
      Term_loop fuel' val 0%float p
  end

with Term_loop (fuel : nat) (val val2 : float) (p : Parser) {struct fuel}
  : Res (float * Parser) :=
  match fuel with
  | O => OutOfFuel
  | S fuel' =>
      k <- la_kind p ;;
      if (k =? 9) || (k =? 10) then
        if k =? 9 then
          p <- Get fuel' p ;;
          ' (val2, p) <- Factor fuel' val2 p ;;
          Term_loop fuel' (val * val2)%float val2 p
        else
          p <- Get fuel' p ;;
          ' (val2, p) <- Factor fuel' val2 p ;;
          Term_loop fuel' (val / val2)%float val2 p
      else Ok (val, p)
  end

with Factor (fuel : nat) (val : float) (p : Parser) {struct fuel}
  : Res (float * Parser) :=
  match fuel with
  | O => OutOfFuel
  | S fuel' =>
      k <- la_kind p ;;
      if k =? 3 then
        p <- Get fuel' p ;;
        val <- getDictLookup p ;;
        Ok (val, p)
      else if k =? 4 then
        p <- Get fuel' p ;;
        val <- getScalar p ;;
        Ok (val, p)
      else if k =? 8 then
        p <- Get fuel' p ;;
        p <- Expect fuel' 11 p ;;
        ' (val, p) <- Expr fuel' val p ;;
        p <- Expect fuel' 12 p ;;
        Ok ((- val)%float, p)
      else if k =? 11 then
        p <- Get fuel' p ;;
        ' (val, p) <- Expr fuel' val p ;;
        p <- Expect fuel' 12 p ;;
        Ok (val, p)
      else
        p <- SynErr 15 p ;;
        Ok (val, p)
  end.

(** [Parser::calcEntry()]; [Expr(val)] works on the member [val]. *)
Definition calcEntry (fuel : nat) (p : Parser) : Res Parser :=
  let p := with_val 0%float p in
  k <- la_kind p ;;
  if k =? 5 then
    p <- Get fuel p ;;
    ' (v, p) <- Expr fuel (val p) p ;;
    let p := with_val v p in
    p <- Expect fuel 6 p ;;
    tk <- deref p (t p) ;;
    Ok (with_scanner
          (Scanner.SetPos
             (wrap32 (Token.pos tk + coco_string_length (Token.val tk)))
             (scanner p)) p)
  else
    b <- StartOf 1 p ;;
    if b then
      ' (v, p) <- Expr fuel (val p) p ;;
      let p := with_val v p in
      Expect fuel 0 p
    else SynErr 14 p.

(** [Parser::Parse()] *)
Definition Parse (fuel : nat) (p : Parser) : Res Parser :=
  let p := with_t Null p in
  let p := with_la DummyPtr (with_dummyToken (Some Token.new) p) in
  let p := with_dummyToken (Some (Token.with_val "Dummy Token" Token.new)) p in
  p <- Get fuel p ;;
  calcEntry fuel p.

End WithHeader.

(* ------------------------------------------------------------------ *)
(** ** The grammar of section 4.2 and its value *)

(** Position and text of a terminal; its kind is fixed by the place it
    takes in the phrase. *)
Record Lexeme : Type := mkLexeme {
  lpos : Z;
  lcol : Z;
  lline : Z;
  ltext : string
}.

Definition terminal (k : Z) (x : Lexeme) : Token :=
  Token.mk k (lpos x) (lcol x) (lline x) (ltext x).

(** Phrases of the grammar
<<
    Expr   := Term (('+' | '-') Term)*
    Term   := Factor (('*' | '/') Factor)*
    Factor := variable | number | '-' '(' Expr ')' | '(' Expr ')'
>>
    A repetition is the list of its clauses, in the order of the text. *)
Inductive expr : Type :=
| Expr_of (tm : term) (tl : expr_tail)

with expr_tail : Type :=
| E_end
| E_plus (op : Lexeme) (tm : term) (tl : expr_tail)
| E_minus (op : Lexeme) (tm : term) (tl : expr_tail)

with term : Type :=
| Term_of (f : factor) (tl : term_tail)

with term_tail : Type :=
| T_end
| T_times (op : Lexeme) (f : factor) (tl : term_tail)
| T_over (op : Lexeme) (f : factor) (tl : term_tail)

with factor : Type :=
| F_variable (x : Lexeme)
| F_number (x : Lexeme)
| F_neg (minus lpar : Lexeme) (e : expr) (rpar : Lexeme)
| F_paren (lpar : Lexeme) (e : expr) (rpar : Lexeme).

Scheme expr_phrase_ind := Induction for expr Sort Prop
  with expr_tail_phrase_ind := Induction for expr_tail Sort Prop
  with term_phrase_ind := Induction for term Sort Prop
  with term_tail_phrase_ind := Induction for term_tail Sort Prop
  with factor_phrase_ind := Induction for factor Sort Prop.

Combined Scheme phrase_ind from expr_phrase_ind, expr_tail_phrase_ind,
  term_phrase_ind, term_tail_phrase_ind, factor_phrase_ind.

(** The tokens of a phrase. *)
Fixpoint tokens_of_expr (e : expr) : list Token :=
  match e with
  | Expr_of tm tl => tokens_of_term tm ++ tokens_of_expr_tail tl
  end

with tokens_of_expr_tail (tl : expr_tail) : list Token :=
  match tl with
  | E_end => []
  | E_plus op tm tl => terminal 7 op :: tokens_of_term tm ++ tokens_of_expr_tail tl
  | E_minus op tm tl => terminal 8 op :: tokens_of_term tm ++ tokens_of_expr_tail tl
  end

with tokens_of_term (tm : term) : list Token :=
  match tm with
  | Term_of f tl => tokens_of_factor f ++ tokens_of_term_tail tl
  end

with tokens_of_term_tail (tl : term_tail) : list Token :=
  match tl with
  | T_end => []
  | T_times op f tl => terminal 9 op :: tokens_of_factor f ++ tokens_of_term_tail tl
  | T_over op f tl => terminal 10 op :: tokens_of_factor f ++ tokens_of_term_tail tl
  end

with tokens_of_factor (f : factor) : list Token :=
  match f with
  | F_variable x => [terminal 3 x]
  | F_number x => [terminal 4 x]
  | F_neg minus lpar e rpar =>
      terminal 8 minus :: terminal 11 lpar :: tokens_of_expr e ++ [terminal 12 rpar]
  | F_paren lpar e rpar =>
      terminal 11 lpar :: tokens_of_expr e ++ [terminal 12 rpar]
  end.

(** The place of a factor in a phrase: the way from the phrase down to
    the factor, with the complete clauses that stand before it.  In an
    [Expr] the factor is in the first [Term] or, after that term and
    some complete clauses, behind an additive operator; in a [Term] it
    is the first [Factor] or, after that factor and some complete
    clauses, behind a multiplicative operator; as a [Factor] it is the
    place itself, or a place in the [Expr] of a parenthesis, negated or
    not. *)
Inductive expr_place : Type :=
| EP_first (th : term_place)
| EP_later (tm : term) (tl : expr_tail) (plus : bool) (op : Lexeme)
           (th : term_place)

with term_place : Type :=
| TP_first (fh : factor_place)
| TP_later (f : factor) (tl : term_tail) (times : bool) (op : Lexeme)
           (fh : factor_place)

with factor_place : Type :=
| FP_here
| FP_paren (lpar : Lexeme) (eh : expr_place)
| FP_neg (minus lpar : Lexeme) (eh : expr_place).

Scheme expr_place_ind' := Induction for expr_place Sort Prop
  with term_place_ind' := Induction for term_place Sort Prop
  with factor_place_ind' := Induction for factor_place Sort Prop.

Combined Scheme place_ind from expr_place_ind', term_place_ind',
  factor_place_ind'.

(** The tokens of the phrase that stand before the place. *)
Fixpoint tokens_before_expr (h : expr_place) : list Token :=
  match h with
  | EP_first th => tokens_before_term th
  | EP_later tm tl plus op th =>
      tokens_of_term tm ++ tokens_of_expr_tail tl
      ++ terminal (if plus then 7 else 8) op :: tokens_before_term th
  end

with tokens_before_term (h : term_place) : list Token :=
  match h with
  | TP_first fh => tokens_before_factor fh
  | TP_later f tl times op fh =>
      tokens_of_factor f ++ tokens_of_term_tail tl
      ++ terminal (if times then 9 else 10) op :: tokens_before_factor fh
  end

with tokens_before_factor (h : factor_place) : list Token :=
  match h with
  | FP_here => []
  | FP_paren lpar eh => terminal 11 lpar :: tokens_before_expr eh
  | FP_neg minus lpar eh =>
      terminal 8 minus :: terminal 11 lpar :: tokens_before_expr eh
  end.

Section Value.

Context {hdr : ParserHeader}.

(** Left-to-right, precedence-respecting floating-point evaluation: the
    first clause seeds an accumulator and every further clause is folded
    into it, in the order of the text. *)
Fixpoint eval_expr (e : expr) : float :=
  match e with
  | Expr_of tm tl => eval_expr_tail (eval_term tm) tl
  end

with eval_expr_tail (acc : float) (tl : expr_tail) {struct tl} : float :=
  match tl with
  | E_end => acc
  | E_plus _ tm tl => eval_expr_tail (acc + eval_term tm)%float tl
  | E_minus _ tm tl => eval_expr_tail (acc - eval_term tm)%float tl
  end

with eval_term (tm : term) : float :=
  match tm with
  | Term_of f tl => eval_term_tail (eval_factor f) tl
  end

with eval_term_tail (acc : float) (tl : term_tail) {struct tl} : float :=
  match tl with
  | T_end => acc
  | T_times _ f tl => eval_term_tail (acc * eval_factor f)%float tl
  | T_over _ f tl => eval_term_tail (acc / eval_factor f)%float tl
  end

with eval_factor (f : factor) : float :=
  match f with
  | F_variable x => resolve_variable (ltext x)
  | F_number x => parse_numeric_literal (ltext x)
  | F_neg _ _ e _ => (- eval_expr e)%float
  | F_paren _ e _ => eval_expr e
  end.

End Value.

(* ------------------------------------------------------------------ *)
(** ** Runs: what a parse does to [errDist] and to the error count *)

Inductive Event : Type :=
| EvGet                        (* a call of Get that returned *)
| EvErr (reported : bool).     (* a call of SynErr or SemErr *)

(** Number of tokens consumed in a trace. *)
Fixpoint gets (tr : list Event) : nat :=
  match tr with
  | [] => 0
  | EvGet :: tr => S (gets tr)
  | EvErr _ :: tr => gets tr
  end.

(** Number of diagnostics reported in a trace. *)
Fixpoint reports (tr : list Event) : nat :=
  match tr with
  | [] => 0
  | EvErr true :: tr => S (reports tr)
  | _ :: tr => reports tr
  end.

(** No call of SynErr or SemErr in a trace. *)
Fixpoint error_free (tr : list Event) : bool :=
  match tr with
  | [] => true
  | EvErr _ :: _ => false
  | EvGet :: tr => error_free tr
  end.

Section Runs.

Context {hdr : ParserHeader}.

(** One step of a run: a call of [Get], of [SynErr] or of [SemErr], or one
    of the three steps that [Parse] and [calcEntry] take on their own and
    that are no event: the set-up of the dummy token and of the
    lookahead at the beginning of [Parse], an assignment to [val], and
    the repositioning of the cursor. *)
Inductive step : Parser -> option Event -> Parser -> Prop :=
| step_Get : forall fuel p p',
    Get fuel p = Ok p' -> step p (Some EvGet) p'
| step_SynErr : forall n p p',
    SynErr n p = Ok p' -> step p (Some (EvErr (minErrDist <=? errDist p))) p'
| step_SemErr : forall msg p p',
    SemErr msg p = Ok p' -> step p (Some (EvErr (minErrDist <=? errDist p))) p'
| step_start : forall p,
    step p None
         (with_dummyToken (Some (Token.with_val "Dummy Token" Token.new))
            (with_la DummyPtr (with_dummyToken (Some Token.new) (with_t Null p))))
| step_assign : forall p v,
    step p None (with_val v p)
| step_SetPos : forall p value,
    step p None (with_scanner (Scanner.SetPos value (scanner p)) p).

Inductive run : Parser -> list Event -> Parser -> Prop :=
| run_done : forall p, run p [] p
| run_event : forall p ev p1 tr p2,
    step p (Some ev) p1 -> run p1 tr p2 -> run p (ev :: tr) p2
| run_silent : forall p p1 tr p2,
    step p None p1 -> run p1 tr p2 -> run p tr p2.

(** Any two reported diagnostics of a trace have at least [minErrDist]
    consumed tokens between them. *)
Definition separated (tr : list Event) : Prop :=
  forall a mid b,
    tr = a ++ EvErr true :: mid ++ EvErr true :: b ->
    minErrDist <= Z.of_nat (gets mid).

End Runs.

(* ------------------------------------------------------------------ *)
(** ** Measures and invariants used in the proofs *)

(** The lookahead and the dummy token are allocated: the state of a
    parser from the first [Get] of [Parse] on. *)
Definition ready (p : Parser) : Prop :=
  (exists tok, deref p (la p) = Ok tok) /\ dummyToken p <> None.

(** Tokens still to be consumed: those the scanner has not handed out,
    and the lookahead unless it is the end-marker. *)
Definition remaining (p : Parser) : nat :=
  List.length (Scanner.pending (scanner p)) +
  match deref p (la p) with
  | Ok tok => if Token.kind tok =? 0 then 0%nat else 1%nat
  | _ => 0%nat
  end.

(** What [Get] makes of the tokens the scanner holds: the first one that
    belongs to the grammar (or the end-marker) and what follows it. *)
Fixpoint next_terminal (bp : Z) (l : list Token) : Token * Scanner :=
  match l with
  | [] => (Scanner.eofToken (Scanner.mk [] bp), Scanner.mk [] bp)
  | tok :: rest =>
      let bp' := Token.pos tok + coco_string_length (Token.val tok) in
      if Token.kind tok <=? maxT then (tok, Scanner.mk rest bp')
      else next_terminal bp' rest
  end.

(** Kind of the first token of [l] that belongs to the grammar. *)
Definition next_kind (l : list Token) : Z :=
  Token.kind (fst (next_terminal 0 l)).

(** The parser has [l] before it: its lookahead is the first terminal of
    [l] and the scanner holds what follows it. *)
Definition at_input (p : Parser) (l : list Token) : Prop :=
  exists bp : Z,
    la p = ScannedPtr (fst (next_terminal bp l)) /\
    scanner p = snd (next_terminal bp l).

(** Where a repetition of [Term] and one of [Expr] stop: at a token that
    does not continue them. *)
Definition stop_term (rest : list Token) : Prop :=
  next_kind rest <> 9 /\ next_kind rest <> 10.

Definition stop_expr (rest : list Token) : Prop :=
  next_kind rest <> 7 /\ next_kind rest <> 8 /\ stop_term rest.

(** [p'] is [p] after a phrase followed by [rest] has been consumed
    without a diagnostic. *)
Definition parsed (p p' : Parser) (rest : list Token) : Prop :=
  ready p' /\ at_input p' rest /\ errors p' = errors p /\ val p' = val p.

(** Diagnostics written so far, weighed against the tokens still to be
    consumed: a phrase adds at most one diagnostic more than three per
    token it consumes. *)
Definition weight (p : Parser) : nat :=
  List.length (Errors.log (errors p)) + 3 * remaining p.

(** The diagnostics of [p'] are those of [p] and possibly more. *)
Definition extends (p p' : Parser) : Prop :=
  exists l, Errors.log (errors p') = Errors.log (errors p) ++ l.

(** [p'] is a state reached from the ready state [p]: it is ready, has no
    more tokens to consume, at most [d] diagnostics more than three per
    token consumed in between, and a token in [t] if [p] has one. *)
Definition advances (d : nat) (p p' : Parser) : Prop :=
  ready p' /\
  (remaining p' <= remaining p)%nat /\
  (weight p' <= weight p + d)%nat /\
  extends p p' /\
  (t p <> Null -> t p' <> Null).

(* ------------------------------------------------------------------ *)
(** ** Inputs of the examples *)

(** A one-line input: the token of kind [k] whose text [s] starts at
    offset [p]. *)
Definition tok (k p : Z) (s : string) : Token := Token.mk k p (p + 1) 1 s.

Fixpoint digits_value (s : string) (acc : Z) : Z :=
  match s with
  | EmptyString => acc
  | String c s' => digits_value s' (10 * acc + (Z.of_nat (nat_of_ascii c) - 48))
  end.

(** A header for the examples: the threshold of Coco/R (2), decimal
    integer literals, and a dictionary in which every variable is 5. *)
Definition exampleHeader : ParserHeader := {|
  minErrDist := 2;
  minErrDist_int := ltac:(split; discriminate);
  parse_numeric_literal := fun s => PrimFloat.of_uint63 (Uint63.of_Z (digits_value s 0));
  resolve_variable := fun _ => 5%float
|}.

(** A freshly constructed parser of the examples, on the tokens [l] of a
    buffer read from offset [bp] on. *)
Definition exampleParser (l : list Token) (bp : Z) : Parser :=
  @newParser exampleHeader (Scanner.mk l bp) None 0%float.

(** [2+3*4] *)
Definition input_sum_product : list Token :=
  [tok 4 0 "2"; tok 7 1 "+"; tok 4 2 "3"; tok 9 3 "*"; tok 4 4 "4"].

(** [(2+3)*4] *)
Definition input_paren_product : list Token :=
  [tok 11 0 "("; tok 4 1 "2"; tok 7 2 "+"; tok 4 3 "3"; tok 12 4 ")";
   tok 9 5 "*"; tok 4 6 "4"].

(** [-(2+3)] *)
Definition input_negation : list Token :=
  [tok 8 0 "-"; tok 11 1 "("; tok 4 2 "2"; tok 7 3 "+"; tok 4 4 "3"; tok 12 5 ")"].

(** [-3] and [-x] *)
Definition input_minus_number : list Token := [tok 8 0 "-"; tok 4 1 "3"].
Definition input_minus_variable : list Token := [tok 8 0 "-"; tok 3 1 "x"].

(** [2*-3], [(-x)] and [1+2*-3] *)
Definition input_product_minus_number : list Token :=
  [tok 4 0 "2"; tok 9 1 "*"; tok 8 2 "-"; tok 4 3 "3"].

Definition input_paren_minus_variable : list Token :=
  [tok 11 0 "("; tok 8 1 "-"; tok 3 2 "x"; tok 12 3 ")"].

Definition input_sum_product_minus_number : list Token :=
  [tok 4 0 "1"; tok 7 1 "+"; tok 4 2 "2"; tok 9 3 "*"; tok 8 4 "-"; tok 4 5 "3"].

(** [-(3)] *)
Definition input_minus_paren_number : list Token :=
  [tok 8 0 "-"; tok 11 1 "("; tok 4 2 "3"; tok 12 3 ")"].

(** [{#p(-x)}], with a pragma behind the brace *)
Definition input_braced_paren_minus_variable : list Token :=
  [tok 5 0 "{"; tok 14 1 "#p"; tok 11 3 "("; tok 8 4 "-"; tok 3 5 "x";
   tok 12 6 ")"; tok 6 7 "}"].

(** [1/0] *)
Definition input_division_by_zero : list Token :=
  [tok 4 0 "1"; tok 10 1 "/"; tok 4 2 "0"].

(** [{1+1}suffix], the part of the buffer [prefix{1+1}suffix] from the
    opening brace (offset 6) on. *)
Definition input_braced : list Token :=
  [tok 5 6 "{"; tok 4 7 "1"; tok 7 8 "+"; tok 4 9 "1"; tok 6 10 "}";
   tok 1 11 "suffix"].

(** [{1 )]: the closing brace is missing. *)
Definition input_unclosed : list Token :=
  [tok 5 0 "{"; tok 4 1 "1"; tok 12 3 ")"].

(** [1 #p #q + 2]: two tokens that are not of the grammar (kinds 14 and
    15) between the terminals. *)
Definition input_pragmas : list Token :=
  [tok 4 0 "1"; tok 14 2 "#p"; tok 15 5 "#q"; tok 7 8 "+"; tok 4 10 "2"].

(** A parser in the middle of a parse: lookahead [tk], [pend] still with
    the scanner, [dist] tokens since the last error. *)
Definition midParser (tk : Token) (pend : list Token) (dist : Z) : Parser :=
  mkParser (Some (Token.with_val "Dummy Token" Token.new)) true dist
           (Scanner.mk pend (Token.pos tk + coco_string_length (Token.val tk)))
           Errors.new DummyPtr (ScannedPtr tk) 0%float.

(** The parser after [1] of [1 #p #q + 2] has become the lookahead. *)
Definition state_before_pragmas : Parser :=
  midParser (tok 4 0 "1") (List.tl input_pragmas) 2.

(** The parser with [)] as lookahead, one token after an error. *)
Definition state_at_rparen : Parser :=
  midParser (tok 12 3 ")") [] 1.

(** The parser on [{1 )] with ['{'] as lookahead. *)
Definition state_at_lbrace : Parser :=
  midParser (tok 5 0 "{") (List.tl input_unclosed) 3.

(** [{-x] *)
Definition input_braced_minus_variable : list Token :=
  [tok 5 0 "{"; tok 8 1 "-"; tok 3 2 "x"].

(** The parser with a number as lookahead, two tokens after an error. *)
Definition state_at_number : Parser :=
  midParser (tok 4 0 "1") [tok 7 1 "+"; tok 4 2 "2"] 2.

(* ------------------------------------------------------------------ *)
(** ** The ParaView reader

    Shallow embedding of
    [applications/utilities/postProcessing/graphics/PVReaders/PVFoamReader/PVFoamReader/vtkPVFoamReader.cxx],
    with [EXPERIMENTAL_TIME_CACHING] undefined, as the file has it, and
    without the second output port.  The debug output is left out, and so
    are the four array selections, which the reader only hands on to
    [vtkDataArraySelection]. *)

Module Reader.

(** The flags of the reader that its constructor sets. *)
Record Settings : Type := mkSettings {
  CacheMesh : bool;
  Refresh : bool;
  SkipZeroTime : bool;
  ExtrapolatePatches : bool;
  UseVTKPolyhedron : bool;
  IncludeSets : bool;
  IncludeZones : bool;
  ShowPatchNames : bool;
  ShowGroupsOnly : bool;
  InterpolateVolFields : bool;
  UpdateGUI : bool
}.

(** The external collaborators of the reader: the backend
    [Foam::vtkPVFoam], which is constructed with a pointer to the reader
    and so may read its flags whenever it is called, the data set of an
    output port, and the renderer of a render view.  Every call is a
    function of the state of the backend that gives its new state. *)
Class Backend : Type := {
  vtkPVFoam : Type;
  DataSet : Type;
  Renderer : Type;
  new_vtkPVFoam : string -> Settings -> vtkPVFoam;
  updateInfo : Settings -> vtkPVFoam -> vtkPVFoam;
  findTimes : bool -> Settings -> vtkPVFoam -> list float * vtkPVFoam;
  setTime : list float -> Settings -> vtkPVFoam -> vtkPVFoam;
  (* the data set of port 0 before and after, [None] for a null pointer *)
  Update : option DataSet -> Settings -> vtkPVFoam -> option DataSet * vtkPVFoam;
  CleanUp : Settings -> vtkPVFoam -> vtkPVFoam;
  timeIndex : Settings -> vtkPVFoam -> Z;
  renderPatchNames : Renderer -> bool -> Settings -> vtkPVFoam -> vtkPVFoam
}.

Section WithBackend.

Context {bk : Backend}.

(** The information object of an output port, as far as the reader reads
    and writes it: the keys [TIME_STEPS], [TIME_RANGE], [UPDATE_TIME_STEP]
    and [DATA_OBJECT].  A key that is not set is [None]. *)
Record Info : Type := mkInfo {
  TIME_STEPS : option (list float);
  TIME_RANGE : option (list float);
  UPDATE_TIME_STEP : option float;
  DATA_OBJECT : option DataSet
}.

(** [errorLog] is what [vtkErrorMacro] has written. *)
Record Reader : Type := mkReader {
  FileName : option string;
  backend_ : option vtkPVFoam;
  settings : Settings;
  errorLog : list string
}.

Definition with_backend (b : option vtkPVFoam) (r : Reader) : Reader :=
  mkReader (FileName r) b (settings r) (errorLog r).

Definition with_settings (s : Settings) (r : Reader) : Reader :=
  mkReader (FileName r) (backend_ r) s (errorLog r).

Definition vtkErrorMacro (msg : string) (r : Reader) : Reader :=
  mkReader (FileName r) (backend_ r) (settings r) (errorLog r ++ [msg]).

(** [vtkPVFoamReader::vtkPVFoamReader()] *)
Definition new : Reader :=
  mkReader None None
           (mkSettings true false false false false false false false false
                       true false)
           [].

(** [outInfo->Set(TIME_STEPS(), ...)] and [outInfo->Set(TIME_RANGE(), ...)] *)
Definition set_TIME_STEPS (times : list float) (i : Info) : Info :=
  mkInfo (Some times) (TIME_RANGE i) (UPDATE_TIME_STEP i) (DATA_OBJECT i).

Definition set_TIME_RANGE (range : list float) (i : Info) : Info :=
  mkInfo (TIME_STEPS i) (Some range) (UPDATE_TIME_STEP i) (DATA_OBJECT i).

Definition set_DATA_OBJECT (d : option DataSet) (i : Info) : Info :=
  mkInfo (TIME_STEPS i) (TIME_RANGE i) (UPDATE_TIME_STEP i) d.

(** [vtkPVFoamReader::RequestInformation]: the value returned, the
    reader and the information objects of the output ports afterwards. *)
Definition RequestInformation (r : Reader) (outputVector : list Info)
  : Z * Reader * list Info :=
  match FileName r with
  | None => (0, vtkErrorMacro "FileName has to be specified!" r, outputVector)
  | Some name =>
      let b := match backend_ r with
               | None => new_vtkPVFoam name (settings r)
               | Some b => updateInfo (settings r) b
               end in
      let (times, b) := findTimes (SkipZeroTime (settings r)) (settings r) b in
      match times with
      | [] =>
          (0,
           with_backend None
             (vtkErrorMacro "could not find valid OpenFOAM mesh" r),
           outputVector)
      | front :: _ =>
          let outputVector := map (set_TIME_STEPS times) outputVector in
          let outputVector :=
            map (set_TIME_RANGE [front; last times front]) outputVector in
          (1, with_backend (Some b) r, outputVector)
      end
  end.

(** The loop of [RequestData] that fills [requestTime]: the times
    written, in the order of the ports. *)
Fixpoint requestTimes (outputVector : list Info) : list float :=
  match outputVector with
  | [] => []
  | outInfo :: rest =>
      let steps := match TIME_STEPS outInfo with Some s => s | None => [] end in
      match UPDATE_TIME_STEP outInfo, steps with
      | Some update, first :: more =>
          (match more with [] => first | _ => update end) :: requestTimes rest
      | _, _ => requestTimes rest
      end
  end.

(** [vtkPVFoamReader::updatePatchNamesView(show)]; [renderViews] is what
    the application has: [None] without an application core or without a
    server manager model, the renderers of the render views otherwise. *)
Definition updatePatchNamesView (renderViews : option (list Renderer))
           (show : bool) (r : Reader) : Reader :=
  match renderViews, backend_ r with
  | Some views, Some b =>
      with_backend
        (Some (fold_left (fun b view => renderPatchNames view show (settings r) b)
                         views b)) r
  | _, _ => r
  end.

(** [vtkPVFoamReader::RequestData]; undefined without an output port,
    where it reads the information object 0. *)
Definition RequestData (renderViews : option (list Renderer)) (r : Reader)
           (outputVector : list Info) : Res (Z * Reader * list Info) :=
  match FileName r with
  | None => Ok (0, vtkErrorMacro "FileName has to be specified!" r, outputVector)
  | Some _ =>
      match backend_ r with
      | None =>
          Ok (0, vtkErrorMacro "Reader failed - perhaps no mesh?" r, outputVector)
      | Some b =>
          let requestTime := requestTimes outputVector in
          let b := match requestTime with
                   | [] => b
                   | _ => setTime requestTime (settings r) b
                   end in
          match outputVector with
          | [] => Undef
          | info0 :: rest =>
              let (output, b) := Update (DATA_OBJECT info0) (settings r) b in
              let r := updatePatchNamesView renderViews
                         (ShowPatchNames (settings r))
                         (with_backend (Some b) r) in
              match backend_ r with
              | Some b =>
                  Ok (1, with_backend (Some (CleanUp (settings r) b)) r,
                      set_DATA_OBJECT output info0 :: rest)
              | None => Undef
              end
          end
      end
  end.

Definition set_IncludeSets (v : bool) (s : Settings) : Settings :=
  mkSettings (CacheMesh s) (Refresh s) (SkipZeroTime s) (ExtrapolatePatches s)
             (UseVTKPolyhedron s) v (IncludeZones s) (ShowPatchNames s)
             (ShowGroupsOnly s) (InterpolateVolFields s) (UpdateGUI s).

Definition set_IncludeZones (v : bool) (s : Settings) : Settings :=
  mkSettings (CacheMesh s) (Refresh s) (SkipZeroTime s) (ExtrapolatePatches s)
             (UseVTKPolyhedron s) (IncludeSets s) v (ShowPatchNames s)
             (ShowGroupsOnly s) (InterpolateVolFields s) (UpdateGUI s).

Definition set_ShowPatchNames (v : bool) (s : Settings) : Settings :=
  mkSettings (CacheMesh s) (Refresh s) (SkipZeroTime s) (ExtrapolatePatches s)
             (UseVTKPolyhedron s) (IncludeSets s) (IncludeZones s) v
             (ShowGroupsOnly s) (InterpolateVolFields s) (UpdateGUI s).

Definition set_ShowGroupsOnly (v : bool) (s : Settings) : Settings :=
  mkSettings (CacheMesh s) (Refresh s) (SkipZeroTime s) (ExtrapolatePatches s)
             (UseVTKPolyhedron s) (IncludeSets s) (IncludeZones s)
             (ShowPatchNames s) v (InterpolateVolFields s) (UpdateGUI s).

(** [if (backend_) backend_->updateInfo();] *)
Definition update_backend (r : Reader) : Reader :=
  match backend_ r with
  | Some b => with_backend (Some (updateInfo (settings r) b)) r
  | None => r
  end.

(** [vtkPVFoamReader::SetIncludeSets(val)] *)
Definition SetIncludeSets (val : bool) (r : Reader) : Reader :=
  if negb (Bool.eqb (IncludeSets (settings r)) val) then
    update_backend (with_settings (set_IncludeSets val (settings r)) r)
  else r.

(** [vtkPVFoamReader::SetIncludeZones(val)] *)
Definition SetIncludeZones (val : bool) (r : Reader) : Reader :=
  if negb (Bool.eqb (IncludeZones (settings r)) val) then
    update_backend (with_settings (set_IncludeZones val (settings r)) r)
  else r.

(** [vtkPVFoamReader::SetShowPatchNames(val)] *)
Definition SetShowPatchNames (renderViews : option (list Renderer))
           (val : bool) (r : Reader) : Reader :=
  if negb (Bool.eqb (ShowPatchNames (settings r)) val) then
    updatePatchNamesView renderViews val
      (with_settings (set_ShowPatchNames val (settings r)) r)
  else r.

(** [vtkPVFoamReader::SetShowGroupsOnly(val)] *)
Definition SetShowGroupsOnly (val : bool) (r : Reader) : Reader :=
  if negb (Bool.eqb (ShowGroupsOnly (settings r)) val) then
    update_backend (with_settings (set_ShowGroupsOnly val (settings r)) r)
  else r.

(** [vtkPVFoamReader::GetTimeStep()] *)
Definition GetTimeStep (r : Reader) : Z :=
  match backend_ r with
  | Some b => timeIndex (settings r) b
  | None => -1
  end.


End WithBackend.

End Reader.

(* ------------------------------------------------------------------ *)
(** ** The tokens that ExpectWeak skips *)

(** [set[s][k]] for a kind inside the table. *)
Definition in_set (s k : Z) : bool :=
  nth (Z.to_nat k) (nth (Z.to_nat s) set []) false.

(** The token is one that the loop of [ExpectWeak] with the follow set
    [follow] steps over: its kind is a column of the table and [set]
    does not hold it. *)
Definition skipped_by (follow : Z) (tok : Token) : bool :=
  (0 <=? Token.kind tok) && (Token.kind tok <? 15)
  && negb (in_set follow (Token.kind tok)).

(** The token is one at which that loop ends. *)
Definition stops_at (follow : Z) (tok : Token) : bool :=
  (0 <=? Token.kind tok) && (Token.kind tok <? 15)
  && in_set follow (Token.kind tok).

(** The test of the loop of [WeakSeparator] on a kind inside the table:
    [syFol], [repFol] or set 0 holds it. *)
Definition sync_sets (syFol repFol k : Z) : bool :=
  in_set syFol k || in_set repFol k || in_set 0 k.

(** The token is one that the loop of [WeakSeparator] steps over. *)
Definition passed_by (syFol repFol : Z) (tok : Token) : bool :=
  (0 <=? Token.kind tok) && (Token.kind tok <? 15)
  && negb (sync_sets syFol repFol (Token.kind tok)).

(** The token is one at which that loop ends. *)
Definition synchronizes_at (syFol repFol : Z) (tok : Token) : bool :=
  (0 <=? Token.kind tok) && (Token.kind tok <? 15)
  && sync_sets syFol repFol (Token.kind tok).

(* ------------------------------------------------------------------ *)
(** ** The end of a parser *)

(** [Parser::~Parser()]: what the destructor deletes, the [Errors] object
    if [deleteErrorsDestruct_] is set and the dummy token if there is
    one. *)
Record Deleted : Type := mkDeleted {
  deleted_errors : option Errors;
  deleted_dummyToken : option Token
}.

Definition destroy (p : Parser) : Deleted :=
  mkDeleted (if deleteErrorsDestruct_ p then Some (errors p) else None)
            (dummyToken p).

(* ------------------------------------------------------------------ *)
(** ** Inputs with tokens that are not of the grammar *)

(** The terminals among the tokens [l], in the order of the text: what is
    left when the tokens that [Get] skips are taken out. *)
Definition terminals (l : list Token) : list Token :=
  filter (fun tok => Token.kind tok <=? maxT) l.

(** The parser has the terminals [l] before it, with whatever tokens of
    other kinds the scanner hands out between them. *)
Definition before (p : Parser) (l : list Token) : Prop :=
  exists L, at_input p L /\ terminals L = l.

(** [errDist] after [k] calls of [Get]. *)
Definition dist_after (k : nat) (d : Z) : Z :=
  Nat.iter k (fun x => wrap32 (x + 1)) d.

(** [p'] is [p] after the terminals [toks], followed by [rest], have been
    consumed without a call of [SynErr]: one call of [Get] per terminal,
    and [t] at the last of them. *)
Definition consumed (toks : list Token) (p p' : Parser) (rest : list Token)
  : Prop :=
  ready p' /\ before p' rest /\ errors p' = errors p /\ val p' = val p /\
  errDist p' = dist_after (List.length toks) (errDist p) /\
  forall tk0, deref p (t p) = Ok tk0 -> deref p' (t p') = Ok (last toks tk0).

(** What every procedure keeps of the parser [p] in [p']: the owner of the
    [Errors] object and the diagnostics written. *)
Definition framed (p p' : Parser) : Prop :=
  deleteErrorsDestruct_ p' = deleteErrorsDestruct_ p /\ extends p p'.

(* ------------------------------------------------------------------ *)
(** ** More inputs of the examples *)

(** The lexeme of a one-line input: the text [s] at offset [p]. *)
Definition lexeme (p : Z) (s : string) : Lexeme := mkLexeme p (p + 1) 1 s.

(** The phrase [1+2] with its terminals at the offsets [a], [b], [c]. *)
Definition phrase_sum (a b c : Z) : expr :=
  Expr_of (Term_of (F_number (lexeme a "1")) T_end)
          (E_plus (lexeme b "+") (Term_of (F_number (lexeme c "2")) T_end) E_end).


(** [{1/0}], [2*3/0], [1+1/0], [1/-(0)] and [0/0]: a zero divisor in the
    braced form, behind a product, in the second term, with a negative
    sign, and under a zero. *)
Definition input_braced_division_by_zero : list Token :=
  [tok 5 0 "{"; tok 4 1 "1"; tok 10 2 "/"; tok 4 3 "0"; tok 6 4 "}"].

Definition input_product_division_by_zero : list Token :=
  [tok 4 0 "2"; tok 9 1 "*"; tok 4 2 "3"; tok 10 3 "/"; tok 4 4 "0"].

Definition input_sum_division_by_zero : list Token :=
  [tok 4 0 "1"; tok 7 1 "+"; tok 4 2 "1"; tok 10 3 "/"; tok 4 4 "0"].

Definition input_division_by_negative_zero : list Token :=
  [tok 4 0 "1"; tok 10 1 "/"; tok 8 2 "-"; tok 11 3 "("; tok 4 4 "0";
   tok 12 5 ")"].

Definition input_zero_by_zero : list Token :=
  [tok 4 0 "0"; tok 10 1 "/"; tok 4 2 "0"].

(** The phrase [1/0] with its terminals at the offsets [a], [a+1], [a+2]. *)
Definition phrase_one_by_zero (a : Z) : expr :=
  Expr_of (Term_of (F_number (lexeme a "1"))
                   (T_over (lexeme (a + 1) "/") (F_number (lexeme (a + 2) "0")) T_end))
          E_end.

(** [{1 #p + 2} #q x]: tokens that are not of the grammar inside and
    behind the braces. *)
Definition input_braced_pragmas : list Token :=
  [tok 5 0 "{"; tok 4 1 "1"; tok 14 3 "#p"; tok 7 6 "+"; tok 4 8 "2";
   tok 6 9 "}"; tok 14 11 "#q"; tok 1 14 "x"].

(** [1+2)]: a token behind a complete phrase. *)
Definition input_trailing : list Token :=
  [tok 4 0 "1"; tok 7 1 "+"; tok 4 2 "2"; tok 12 3 ")"].


(** [{}x]: nothing between the braces. *)
Definition input_empty_braces : list Token :=
  [tok 5 0 "{"; tok 6 1 "}"; tok 1 2 "x"].

(** [) ) x]: no token starts a calc-entry. *)
Definition input_no_start : list Token :=
  [tok 12 0 ")"; tok 12 1 ")"; tok 1 2 "x"].


(** [x #p { 1 +]: what the scanner holds behind a lookahead [)]; the
    number is the first token that starts a factor. *)
Definition input_skip_to_number : list Token :=
  [tok 1 1 "x"; tok 14 2 "#p"; tok 5 4 "{"; tok 4 5 "1"; tok 7 6 "+"].

(** The parser with [)] as lookahead, three tokens after an error, and
    the tokens above still with the scanner. *)
Definition state_before_skip : Parser :=
  midParser (tok 12 0 ")") input_skip_to_number 3.

(** A backend for the examples: its state is the list of the times of
    the case and the index of the current one; the case [empty.foam] has
    no time, every other one the times 0, 0.5 and 1. *)
Definition exampleBackend : Reader.Backend := {|
  Reader.vtkPVFoam := (list float * Z)%type;
  Reader.DataSet := nat;
  Reader.Renderer := nat;
  Reader.new_vtkPVFoam := fun name _ =>
    (if String.eqb name "empty.foam" then [] else [0%float; 0.5%float; 1%float], 0);
  Reader.updateInfo := fun _ b => b;
  Reader.findTimes := fun skipZero _ b =>
    (if skipZero then List.tl (fst b) else fst b, b);
  Reader.setTime := fun ts _ b => (fst b, Z.of_nat (List.length ts));
  Reader.Update := fun d _ b => (option_map S d, b);
  Reader.CleanUp := fun _ b => b;
  Reader.timeIndex := fun _ b => snd b;
  Reader.renderPatchNames := fun _ _ _ b => b
|}.

(** A reader of the examples with the file name [name]. *)
Definition exampleReader (name : string) : @Reader.Reader exampleBackend :=
  @Reader.mkReader exampleBackend (Some name) None
                   (Reader.settings (@Reader.new exampleBackend)) [].

(** Two output ports, the first with a data set and a requested time. *)
Definition examplePorts : list (@Reader.Info exampleBackend) :=
  [@Reader.mkInfo exampleBackend None None (Some 0.5%float) (Some 0%nat);
   @Reader.mkInfo exampleBackend None None None None].


(* ------------------------------------------------------------------ *)
(** ** Error recovery *)

Section AfterSynErr.

Context {hdr : ParserHeader}.

(** The parser after a call of [SynErr(n)] with the lookahead [tk]. *)
Definition after_SynErr_at (n : Z) (tk : Token) (p : Parser) : Parser :=
  with_errDist 0
    (if minErrDist <=? errDist p
     then with_errors (Errors.SynErr (Token.line tk) (Token.col tk) n (errors p)) p
     else p).


End AfterSynErr.

(* ================================================================== *)
(** * Properties *)

(** ** Results and fuel *)

Lemma bind_Ok {A B : Type} (c : Res A) (k : A -> Res B) (r : B) :
  bind c k = Ok r -> exists a, c = Ok a /\ k a = Ok r.
Proof.
  destruct c as [a| |]; simpl; intro H; try discriminate.
  exists a; split; [reflexivity|assumption].
Qed.

Lemma converges_ret {A : Type} (r : A) : converges (fun _ => Ok r) r.
Proof. exists 0%nat; intros; reflexivity. Qed.

Lemma converges_bind {A B : Type} (c : nat -> Res A) (k : nat -> A -> Res B)
      (a : A) (b : B) :
  converges c a ->
  converges (fun n => k n a) b ->
  converges (fun n => bind (c n) (k n)) b.
Proof.
  intros [n1 H1] [n2 H2]. exists (Nat.max n1 n2). intros n Hn.
  rewrite H1 by lia. simpl. apply H2. lia.
Qed.

Lemma converges_step {A : Type} (c c' : nat -> Res A) (r : A) :
  (forall n, c (S n) = c' n) -> converges c' r -> converges c r.
Proof.
  intros Hc [n0 H]. exists (S n0). intros [|n] Hn; [lia|].
  rewrite Hc. apply H. lia.
Qed.

Lemma converges_ext {A : Type} (c c' : nat -> Res A) (r : A) :
  (forall n, c n = c' n) -> converges c' r -> converges c r.
Proof.
  intros Hc [n0 H]. exists n0. intros n Hn. rewrite Hc. auto.
Qed.

Lemma converges_inj {A : Type} (c : nat -> Res A) (r r' : A) :
  converges c r -> converges c r' -> r = r'.
Proof.
  intros [n1 H1] [n2 H2].
  specialize (H1 (Nat.max n1 n2) (Nat.le_max_l _ _)).
  specialize (H2 (Nat.max n1 n2) (Nat.le_max_r _ _)).
  congruence.
Qed.

(** ** Machine integers *)

Lemma wrap32_range (z : Z) : INT_MIN <= wrap32 z <= INT_MAX.
Proof.
  unfold wrap32, INT_MIN, INT_MAX.
  pose proof (Z.mod_pos_bound (z + 2147483648) 4294967296 eq_refl). lia.
Qed.

Lemma wrap32_id (z : Z) : INT_MIN <= z <= INT_MAX -> wrap32 z = z.
Proof.
  unfold wrap32, INT_MIN, INT_MAX. intro H.
  rewrite Z.mod_small by lia. lia.
Qed.

Lemma wrap32_succ_le (z : Z) : INT_MIN <= z -> wrap32 (z + 1) <= z + 1.
Proof.
  intro H. destruct (Z_le_gt_dec (z + 1) INT_MAX) as [Hle|Hgt].
  - rewrite wrap32_id; unfold INT_MIN, INT_MAX in *; lia.
  - pose proof (wrap32_range (z + 1)). lia.
Qed.

(** ** The scanner *)

Lemma next_terminal_kind (bp : Z) (l : list Token) :
  Token.kind (fst (next_terminal bp l)) <= maxT.
Proof.
  revert bp. induction l as [|tok rest IH]; intro bp; simpl.
  - unfold maxT. lia.
  - destruct (Token.kind tok <=? maxT) eqn:E; simpl; [apply Z.leb_le, E|apply IH].
Qed.

Lemma next_terminal_kind_bp (bp bp' : Z) (l : list Token) :
  Token.kind (fst (next_terminal bp l)) = Token.kind (fst (next_terminal bp' l)).
Proof.
  revert bp bp'. induction l as [|tok rest IH]; intros bp bp'; simpl.
  - reflexivity.
  - destruct (Token.kind tok <=? maxT); simpl; [reflexivity|apply IH].
Qed.

Lemma next_terminal_pending (bp : Z) (l : list Token) :
  (List.length (Scanner.pending (snd (next_terminal bp l))) <= List.length l)%nat.
Proof.
  revert bp. induction l as [|tok rest IH]; intro bp; simpl.
  - lia.
  - destruct (Token.kind tok <=? maxT); simpl; [lia|].
    specialize (IH (Token.pos tok + coco_string_length (Token.val tok))). lia.
Qed.

(** When the scanner still holds a token, the next terminal is one of
    its tokens or the end-marker that follows the last of them. *)
Lemma next_terminal_consumes (bp : Z) (l : list Token) :
  l <> [] ->
  (List.length (Scanner.pending (snd (next_terminal bp l))) < List.length l)%nat.
Proof.
  destruct l as [|tok rest]; [congruence|]. intros _. simpl.
  destruct (Token.kind tok <=? maxT); simpl; [lia|].
  pose proof (next_terminal_pending
                (Token.pos tok + coco_string_length (Token.val tok)) rest). lia.
Qed.

Lemma Token_eta (k : Token) :
  Token.mk (Token.kind k) (Token.pos k) (Token.col k) (Token.line k) (Token.val k) = k.
Proof. destruct k; reflexivity. Qed.

Section Proofs.

Context {hdr : ParserHeader}.

(** ** Get *)

(** What a call of [Get] that returns has done. *)
Lemma Get_returns (fuel : nat) : forall p p',
  Get fuel p = Ok p' ->
  la p' = ScannedPtr (fst (next_terminal (Scanner.bufPos (scanner p))
                                         (Scanner.pending (scanner p)))) /\
  scanner p' = snd (next_terminal (Scanner.bufPos (scanner p))
                                  (Scanner.pending (scanner p))) /\
  errDist p' = wrap32 (errDist p + 1) /\
  errors p' = errors p /\
  val p' = val p /\
  deleteErrorsDestruct_ p' = deleteErrorsDestruct_ p.
Proof.
  induction fuel as [|fuel IH]; intros p p' H; [discriminate|].
  simpl in H. unfold Scanner.Scan in H. simpl in H.
  destruct (scanner p) as [l bp] eqn:Hsc. simpl in *.
  destruct l as [|tok rest]; simpl in H.
  - injection H as <-. simpl. repeat split; reflexivity.
  - destruct (Token.kind tok <=? maxT) eqn:E.
    + injection H as <-. simpl. rewrite E. simpl. repeat split; reflexivity.
    + apply bind_Ok in H. destruct H as (q & Hq & H).
      apply IH in H. simpl in H.
      assert (Hsame : scanner q = Scanner.mk rest (Token.pos tok + coco_string_length (Token.val tok))
                      /\ errDist q = errDist p /\ errors q = errors p /\ val q = val p
                      /\ deleteErrorsDestruct_ q = deleteErrorsDestruct_ p).
      { destruct (negb _) in Hq.
        - simpl in Hq. destruct (dummyToken p); [|discriminate].
          apply bind_Ok in Hq. destruct Hq as (tk & _ & Hq).
          injection Hq as <-. simpl. repeat split; reflexivity.
        - injection Hq as <-. simpl. repeat split; reflexivity. }
      destruct Hsame as (Hs & He & Her & Hv & Hd).
      rewrite Hs, He, Her, Hv, Hd in H. simpl in H.
      cbn [next_terminal]. rewrite E. exact H.
Qed.

Lemma deref_ext (p q : Parser) (ptr : TokenPtr) :
  dummyToken p = dummyToken q -> deref p ptr = deref q ptr.
Proof. intro H. destruct ptr; simpl; [reflexivity|rewrite H; reflexivity|reflexivity]. Qed.

(** [Get] returns on every parser whose lookahead and dummy token are
    allocated, with fuel for one turn per token the scanner holds and one
    more; the token that was the lookahead is then read through [t]. *)
Lemma Get_ready_list (l : list Token) : forall p tk0,
  Scanner.pending (scanner p) = l ->
  deref p (la p) = Ok tk0 ->
  dummyToken p <> None ->
  exists p',
    (forall n, (List.length l < n)%nat -> Get n p = Ok p') /\
    ready p' /\
    deref p' (t p') = Ok tk0 /\
    match l with
    | tok :: _ =>
        if Token.kind tok <=? maxT
        then t p' = la p /\ dummyToken p' = dummyToken p
        else t p' = DummyPtr /\ dummyToken p' = Some tk0
    | [] => t p' = la p /\ dummyToken p' = dummyToken p
    end.
Proof.
  induction l as [|tok rest IH]; intros p tk0 Hl Hla Hd.
  - eexists. split; [|split; [|split]].
    + intros [|n] Hn; [simpl in Hn; lia|].
      simpl. unfold Scanner.Scan. rewrite Hl. simpl. reflexivity.
    + split; simpl; [eexists; reflexivity|assumption].
    + etransitivity; [|exact Hla]. apply deref_ext. reflexivity.
    + simpl. split; reflexivity.
  - destruct (Token.kind tok <=? maxT) eqn:E.
    + eexists. split; [|split; [|split]].
      * intros [|n] Hn; [simpl in Hn; lia|].
        simpl. unfold Scanner.Scan. rewrite Hl. simpl. rewrite E. reflexivity.
      * split; simpl; [eexists; reflexivity|assumption].
      * etransitivity; [|exact Hla]. apply deref_ext. reflexivity.
      * simpl. split; reflexivity.
    + destruct (dummyToken p) as [d|] eqn:Hdum; [|congruence].
      set (sc' := Scanner.mk rest (Token.pos tok + coco_string_length (Token.val tok))).
      set (p2 := with_la DummyPtr
                   (with_t DummyPtr
                      (with_dummyToken (Some tk0)
                         (with_la (ScannedPtr tok)
                            (with_scanner sc' (with_t (la p) p)))))).
      destruct (IH p2 tk0) as (p' & Hget & Hready & Ht & Hpark);
        [reflexivity|reflexivity|discriminate|].
      exists p'. split; [|split; [|split]].
      * intros [|n] Hn; [simpl in Hn; lia|].
        rewrite <- (Hget n) by (simpl in Hn; lia).
        simpl. unfold Scanner.Scan. rewrite Hl. simpl. rewrite E.
        unfold is_dummyToken. simpl. rewrite Hdum.
        destruct (la p) as [| |tk] eqn:Ela; simpl in Hla; try discriminate.
        -- simpl. rewrite Hdum in Hla. injection Hla as ->.
           f_equal. unfold p2, with_la, with_t, with_dummyToken, with_scanner.
           simpl. rewrite Hdum. reflexivity.
        -- simpl. injection Hla as ->. rewrite Token_eta.
           reflexivity.
      * exact Hready.
      * exact Ht.
      * destruct rest as [|tok' rest']; [|destruct (Token.kind tok' <=? maxT)];
          destruct Hpark as [-> ->]; split; reflexivity.
Qed.

Lemma Get_ready (p : Parser) :
  ready p ->
  exists p',
    converges (fun n => Get n p) p' /\
    ready p' /\
    la p' = ScannedPtr (fst (next_terminal (Scanner.bufPos (scanner p))
                                           (Scanner.pending (scanner p)))) /\
    scanner p' = snd (next_terminal (Scanner.bufPos (scanner p))
                                    (Scanner.pending (scanner p))) /\
    errDist p' = wrap32 (errDist p + 1) /\
    errors p' = errors p /\
    val p' = val p /\
    deref p' (t p') = deref p (la p).
Proof.
  intros [[tk0 Hla] Hd].
  destruct (Get_ready_list p eq_refl Hla Hd) as (p' & Hget & Hready & Ht & _).
  exists p'.
  pose proof (Get_returns _ _ (Hget _ (Nat.lt_succ_diag_r _)))
    as (H1 & H2 & H3 & H4 & H5 & _).
  split; [exists (S (List.length (Scanner.pending (scanner p)))); intros; apply Hget; lia|].
  rewrite Hla. auto 10.
Qed.

(** [Get] never adds to the tokens still to be consumed, and takes one
    away unless the lookahead was the end-marker. *)
Lemma Get_remaining (fuel : nat) (p p' : Parser) (tk : Token) :
  Get fuel p = Ok p' ->
  deref p (la p) = Ok tk ->
  (remaining p' + (if (Token.kind tk =? 0)%Z then 0 else 1) <= remaining p)%nat.
Proof.
  intros H Hla. apply Get_returns in H. destruct H as (H1 & H2 & _).
  unfold remaining. rewrite Hla, H1, H2. simpl.
  destruct (Scanner.pending (scanner p)) as [|tok rest] eqn:El.
  - simpl. destruct (Token.kind tk =? 0); lia.
  - pose proof (@next_terminal_consumes (Scanner.bufPos (scanner p)) (tok :: rest)
                  ltac:(discriminate)) as Hlt.
    cbn [List.length] in *.
    destruct (Token.kind (fst _) =? 0); destruct (Token.kind tk =? 0); lia.
Qed.

(** ** Phrases of the grammar are parsed to their value *)

Lemma next_kind_bp (bp : Z) (l : list Token) :
  Token.kind (fst (next_terminal bp l)) = next_kind l.
Proof. apply next_terminal_kind_bp. Qed.

Lemma next_kind_terminal (tok : Token) (l : list Token) :
  Token.kind tok <= maxT -> next_kind (tok :: l) = Token.kind tok.
Proof.
  intro H. unfold next_kind. simpl.
  apply Z.leb_le in H. rewrite H. reflexivity.
Qed.

Lemma at_input_terminal (p : Parser) (tok : Token) (l : list Token) :
  at_input p (tok :: l) -> Token.kind tok <= maxT ->
  la p = ScannedPtr tok /\ Scanner.pending (scanner p) = l.
Proof.
  intros [bp [Hla Hsc]] H. simpl in Hla, Hsc.
  apply Z.leb_le in H. rewrite H in Hla, Hsc. simpl in Hla, Hsc.
  rewrite Hsc. auto.
Qed.

Lemma at_input_la_kind (p : Parser) (l : list Token) :
  at_input p l -> la_kind p = Ok (next_kind l).
Proof.
  intros [bp [Hla _]]. unfold la_kind. rewrite Hla. simpl.
  rewrite next_kind_bp. reflexivity.
Qed.

Lemma Get_at_input (p : Parser) (tok : Token) (l : list Token) :
  ready p -> at_input p (tok :: l) -> Token.kind tok <= maxT ->
  exists p',
    converges (fun n => Get n p) p' /\
    ready p' /\ at_input p' l /\
    errors p' = errors p /\ val p' = val p /\
    errDist p' = wrap32 (errDist p + 1) /\
    deref p' (t p') = Ok tok.
Proof.
  intros Hr Hat Hk.
  destruct (at_input_terminal Hat Hk) as [Hla Hpend].
  destruct (Get_ready Hr) as (p' & Hc & Hr' & H1 & H2 & H3 & H4 & H5 & H6).
  exists p'. rewrite Hpend in H1, H2. rewrite Hla in H6.
  split; [exact Hc|]. split; [exact Hr'|].
  split; [exists (Scanner.bufPos (scanner p)); auto|].
  auto.
Qed.

Lemma Expect_at_input (p : Parser) (tok : Token) (l : list Token) :
  ready p -> at_input p (tok :: l) -> Token.kind tok <= maxT ->
  exists p',
    converges (fun n => Expect n (Token.kind tok) p) p' /\
    ready p' /\ at_input p' l /\
    errors p' = errors p /\ val p' = val p /\
    errDist p' = wrap32 (errDist p + 1) /\
    deref p' (t p') = Ok tok.
Proof.
  intros Hr Hat Hk.
  destruct (Get_at_input Hr Hat Hk) as (p' & Hc & H).
  exists p'. split; [|exact H].
  eapply converges_ext; [|exact Hc].
  intro n. unfold Expect. rewrite (at_input_la_kind Hat).
  rewrite next_kind_terminal by assumption. simpl.
  rewrite Z.eqb_refl. reflexivity.
Qed.

Lemma Expr_S (n : nat) (v : float) (p : Parser) :
  Expr (S n) v p =
  (' (v', p') <- Term n v p ;; Expr_loop n v' 0%float p').
Proof. reflexivity. Qed.

Lemma Expr_loop_S (n : nat) (v v2 : float) (p : Parser) :
  Expr_loop (S n) v v2 p =
  (k <- la_kind p ;;
   if (k =? 7) || (k =? 8) then
     if k =? 7 then
       p <- Get n p ;;
       ' (v2, p) <- Term n v2 p ;;
       Expr_loop n (v + v2)%float v2 p
     else
       p <- Get n p ;;
       ' (v2, p) <- Term n v2 p ;;
       Expr_loop n (v - v2)%float v2 p
   else Ok (v, p)).
Proof. reflexivity. Qed.

Lemma Term_S (n : nat) (v : float) (p : Parser) :
  Term (S n) v p =
  (' (v', p') <- Factor n v p ;; Term_loop n v' 0%float p').
Proof. reflexivity. Qed.

Lemma Term_loop_S (n : nat) (v v2 : float) (p : Parser) :
  Term_loop (S n) v v2 p =
  (k <- la_kind p ;;
   if (k =? 9) || (k =? 10) then
     if k =? 9 then
       p <- Get n p ;;
       ' (v2, p) <- Factor n v2 p ;;
       Term_loop n (v * v2)%float v2 p
     else
       p <- Get n p ;;
       ' (v2, p) <- Factor n v2 p ;;
       Term_loop n (v / v2)%float v2 p
   else Ok (v, p)).
Proof. reflexivity. Qed.

Lemma Factor_S (n : nat) (v : float) (p : Parser) :
  Factor (S n) v p =
  (k <- la_kind p ;;
   if k =? 3 then
     p <- Get n p ;; v <- getDictLookup p ;; Ok (v, p)
   else if k =? 4 then
     p <- Get n p ;; v <- getScalar p ;; Ok (v, p)
   else if k =? 8 then
     p <- Get n p ;;
     p <- Expect n 11 p ;;
     ' (v, p) <- Expr n v p ;;
     p <- Expect n 12 p ;;
     Ok ((- v)%float, p)
   else if k =? 11 then
     p <- Get n p ;;
     ' (v, p) <- Expr n v p ;;
     p <- Expect n 12 p ;;
     Ok (v, p)
   else
     p <- SynErr 15 p ;; Ok (v, p)).
Proof. reflexivity. Qed.

Lemma la_kind_at_terminal (p : Parser) (k : Z) (x : Lexeme) (l : list Token) :
  at_input p (terminal k x :: l) -> k <= maxT -> la_kind p = Ok k.
Proof.
  intros Hat Hk. rewrite (at_input_la_kind Hat).
  rewrite next_kind_terminal; [reflexivity|exact Hk].
Qed.

Lemma parsed_refl (p : Parser) (rest : list Token) :
  ready p -> at_input p rest -> parsed p p rest.
Proof. intros; unfold parsed; auto. Qed.

Lemma parsed_trans (p p1 p2 : Parser) (r1 r2 : list Token) :
  parsed p p1 r1 -> parsed p1 p2 r2 -> parsed p p2 r2.
Proof.
  intros (_ & _ & He & Hv) (Hr & Hat & He' & Hv').
  unfold parsed. rewrite He', Hv'. auto.
Qed.

Lemma Get_parsed (p : Parser) (k : Z) (x : Lexeme) (l : list Token) :
  ready p -> at_input p (terminal k x :: l) -> k <= maxT ->
  exists p',
    converges (fun n => Get n p) p' /\ parsed p p' l /\
    deref p' (t p') = Ok (terminal k x).
Proof.
  intros Hr Hat Hk.
  destruct (@Get_at_input p (terminal k x) l Hr Hat Hk)
    as (p' & Hc & Hr' & Hat' & He & Hv & _ & Ht).
  exists p'. unfold parsed. auto 10.
Qed.

Lemma Expect_parsed (p : Parser) (k : Z) (x : Lexeme) (l : list Token) :
  ready p -> at_input p (terminal k x :: l) -> k <= maxT ->
  exists p',
    converges (fun n => Expect n k p) p' /\ parsed p p' l /\
    deref p' (t p') = Ok (terminal k x).
Proof.
  intros Hr Hat Hk.
  destruct (@Expect_at_input p (terminal k x) l Hr Hat Hk)
    as (p' & Hc & Hr' & Hat' & He & Hv & _ & Ht).
  exists p'. unfold parsed. auto 10.
Qed.

Lemma stop_term_expr_tail (tl : expr_tail) (rest : list Token) :
  stop_expr rest -> stop_term (tokens_of_expr_tail tl ++ rest).
Proof.
  intros (H7 & H8 & Hs). destruct tl as [|op tm tl|op tm tl]; simpl.
  - exact Hs.
  - unfold stop_term. rewrite next_kind_terminal by (simpl; unfold maxT; lia).
    simpl. lia.
  - unfold stop_term. rewrite next_kind_terminal by (simpl; unfold maxT; lia).
    simpl. lia.
Qed.

Ltac conv_unfold E := eapply converges_step; [intro; apply E|].
Ltac conv_rewrite H :=
  eapply converges_ext; [intro; rewrite H; simpl; reflexivity|].

Lemma phrase_parsed :
  (forall e p rest v0,
      ready p -> at_input p (tokens_of_expr e ++ rest) -> stop_expr rest ->
      exists p', converges (fun n => Expr n v0 p) (eval_expr e, p') /\
                 parsed p p' rest) /\
  (forall tl p rest acc v2,
      ready p -> at_input p (tokens_of_expr_tail tl ++ rest) -> stop_expr rest ->
      exists p', converges (fun n => Expr_loop n acc v2 p) (eval_expr_tail acc tl, p') /\
                 parsed p p' rest) /\
  (forall tm p rest v0,
      ready p -> at_input p (tokens_of_term tm ++ rest) -> stop_term rest ->
      exists p', converges (fun n => Term n v0 p) (eval_term tm, p') /\
                 parsed p p' rest) /\
  (forall tl p rest acc v2,
      ready p -> at_input p (tokens_of_term_tail tl ++ rest) -> stop_term rest ->
      exists p', converges (fun n => Term_loop n acc v2 p) (eval_term_tail acc tl, p') /\
                 parsed p p' rest) /\
  (forall f p rest v0,
      ready p -> at_input p (tokens_of_factor f ++ rest) ->
      exists p', converges (fun n => Factor n v0 p) (eval_factor f, p') /\
                 parsed p p' rest).
Proof.
  apply phrase_ind.
  - (* Term tail *)
    intros tm IHtm tl IHtl p rest v0 Hr Hat Hs. simpl in Hat.
    rewrite <- app_assoc in Hat.
    destruct (IHtm p _ v0 Hr Hat (stop_term_expr_tail tl Hs)) as (p1 & Hc1 & Hp1).
    destruct (IHtl p1 rest (eval_term tm) 0%float) as (p2 & Hc2 & Hp2);
      [apply Hp1|apply Hp1|exact Hs|].
    exists p2. split; [|eapply parsed_trans; eassumption].
    conv_unfold Expr_S. simpl.
    eapply converges_bind; [exact Hc1|exact Hc2].
  - (* no further clause *)
    intros p rest acc v2 Hr Hat (H7 & H8 & _). simpl in Hat.
    exists p. split; [|apply parsed_refl; assumption].
    conv_unfold Expr_loop_S. conv_rewrite (at_input_la_kind Hat).
    apply Z.eqb_neq in H7, H8. rewrite H7, H8. simpl. apply converges_ret.
  - (* + Term *)
    intros op tm IHtm tl IHtl p rest acc v2 Hr Hat Hs. simpl in Hat.
    rewrite <- app_assoc in Hat.
    destruct (@Get_parsed p 7 op _ Hr Hat) as (p1 & Hc1 & Hp1 & _);
      [unfold maxT; lia|].
    destruct (IHtm p1 _ v2 (proj1 Hp1) (proj1 (proj2 Hp1))
                   (stop_term_expr_tail tl Hs)) as (p2 & Hc2 & Hp2).
    destruct (IHtl p2 rest (acc + eval_term tm)%float (eval_term tm))
      as (p3 & Hc3 & Hp3); [apply Hp2|apply Hp2|exact Hs|].
    exists p3. split; [|eauto using parsed_trans].
    conv_unfold Expr_loop_S.
    conv_rewrite (@la_kind_at_terminal p 7 op _ Hat ltac:(unfold maxT; lia)).
    eapply converges_bind; [exact Hc1|].
    eapply converges_bind; [exact Hc2|exact Hc3].
  - (* - Term *)
    intros op tm IHtm tl IHtl p rest acc v2 Hr Hat Hs. simpl in Hat.
    rewrite <- app_assoc in Hat.
    destruct (@Get_parsed p 8 op _ Hr Hat) as (p1 & Hc1 & Hp1 & _);
      [unfold maxT; lia|].
    destruct (IHtm p1 _ v2 (proj1 Hp1) (proj1 (proj2 Hp1))
                   (stop_term_expr_tail tl Hs)) as (p2 & Hc2 & Hp2).
    destruct (IHtl p2 rest (acc - eval_term tm)%float (eval_term tm))
      as (p3 & Hc3 & Hp3); [apply Hp2|apply Hp2|exact Hs|].
    exists p3. split; [|eauto using parsed_trans].
    conv_unfold Expr_loop_S.
    conv_rewrite (@la_kind_at_terminal p 8 op _ Hat ltac:(unfold maxT; lia)).
    eapply converges_bind; [exact Hc1|].
    eapply converges_bind; [exact Hc2|exact Hc3].
  - (* Factor tail *)
    intros f IHf tl IHtl p rest v0 Hr Hat Hs. simpl in Hat.
    rewrite <- app_assoc in Hat.
    destruct (IHf p _ v0 Hr Hat) as (p1 & Hc1 & Hp1).
    destruct (IHtl p1 rest (eval_factor f) 0%float) as (p2 & Hc2 & Hp2);
      [apply Hp1|apply Hp1|exact Hs|].
    exists p2. split; [|eapply parsed_trans; eassumption].
    conv_unfold Term_S. simpl.
    eapply converges_bind; [exact Hc1|exact Hc2].
  - (* no further clause *)
    intros p rest acc v2 Hr Hat (H9 & H10). simpl in Hat.
    exists p. split; [|apply parsed_refl; assumption].
    conv_unfold Term_loop_S. conv_rewrite (at_input_la_kind Hat).
    apply Z.eqb_neq in H9, H10. rewrite H9, H10. simpl. apply converges_ret.
  - (* * Factor *)
    intros op f IHf tl IHtl p rest acc v2 Hr Hat Hs. simpl in Hat.
    rewrite <- app_assoc in Hat.
    destruct (@Get_parsed p 9 op _ Hr Hat) as (p1 & Hc1 & Hp1 & _);
      [unfold maxT; lia|].
    destruct (IHf p1 _ v2 (proj1 Hp1) (proj1 (proj2 Hp1))) as (p2 & Hc2 & Hp2).
    destruct (IHtl p2 rest (acc * eval_factor f)%float (eval_factor f))
      as (p3 & Hc3 & Hp3); [apply Hp2|apply Hp2|exact Hs|].
    exists p3. split; [|eauto using parsed_trans].
    conv_unfold Term_loop_S.
    conv_rewrite (@la_kind_at_terminal p 9 op _ Hat ltac:(unfold maxT; lia)).
    eapply converges_bind; [exact Hc1|].
    eapply converges_bind; [exact Hc2|exact Hc3].
  - (* / Factor *)
    intros op f IHf tl IHtl p rest acc v2 Hr Hat Hs. simpl in Hat.
    rewrite <- app_assoc in Hat.
    destruct (@Get_parsed p 10 op _ Hr Hat) as (p1 & Hc1 & Hp1 & _);
      [unfold maxT; lia|].
    destruct (IHf p1 _ v2 (proj1 Hp1) (proj1 (proj2 Hp1))) as (p2 & Hc2 & Hp2).
    destruct (IHtl p2 rest (acc / eval_factor f)%float (eval_factor f))
      as (p3 & Hc3 & Hp3); [apply Hp2|apply Hp2|exact Hs|].
    exists p3. split; [|eauto using parsed_trans].
    conv_unfold Term_loop_S.
    conv_rewrite (@la_kind_at_terminal p 10 op _ Hat ltac:(unfold maxT; lia)).
    eapply converges_bind; [exact Hc1|].
    eapply converges_bind; [exact Hc2|exact Hc3].
  - (* variable *)
    intros x p rest v0 Hr Hat. simpl in Hat.
    destruct (@Get_parsed p 3 x _ Hr Hat) as (p1 & Hc1 & Hp1 & Ht);
      [unfold maxT; lia|].
    exists p1. split; [|exact Hp1].
    conv_unfold Factor_S.
    conv_rewrite (@la_kind_at_terminal p 3 x _ Hat ltac:(unfold maxT; lia)).
    eapply converges_bind; [exact Hc1|].
    unfold getDictLookup. conv_rewrite Ht. apply converges_ret.
  - (* number *)
    intros x p rest v0 Hr Hat. simpl in Hat.
    destruct (@Get_parsed p 4 x _ Hr Hat) as (p1 & Hc1 & Hp1 & Ht);
      [unfold maxT; lia|].
    exists p1. split; [|exact Hp1].
    conv_unfold Factor_S.
    conv_rewrite (@la_kind_at_terminal p 4 x _ Hat ltac:(unfold maxT; lia)).
    eapply converges_bind; [exact Hc1|].
    unfold getScalar. conv_rewrite Ht. apply converges_ret.
  - (* - ( Expr ) *)
    intros minus lpar e IHe rpar p rest v0 Hr Hat. simpl in Hat.
    rewrite <- app_assoc in Hat. simpl in Hat.
    destruct (@Get_parsed p 8 minus _ Hr Hat) as (p1 & Hc1 & Hp1 & _);
      [unfold maxT; lia|].
    destruct (@Expect_parsed p1 11 lpar _ (proj1 Hp1) (proj1 (proj2 Hp1)))
      as (p2 & Hc2 & Hp2 & _); [unfold maxT; lia|].
    destruct (IHe p2 (terminal 12 rpar :: rest) v0) as (p3 & Hc3 & Hp3);
      [apply Hp2|apply Hp2| |].
    { unfold stop_expr, stop_term.
      rewrite next_kind_terminal by (simpl; unfold maxT; lia). simpl. lia. }
    destruct (@Expect_parsed p3 12 rpar _ (proj1 Hp3) (proj1 (proj2 Hp3)))
      as (p4 & Hc4 & Hp4 & _); [unfold maxT; lia|].
    exists p4. split; [|eauto using parsed_trans].
    conv_unfold Factor_S.
    conv_rewrite (@la_kind_at_terminal p 8 minus _ Hat ltac:(unfold maxT; lia)).
    eapply converges_bind; [exact Hc1|].
    eapply converges_bind; [exact Hc2|].
    eapply converges_bind; [exact Hc3|]. simpl.
    eapply converges_bind; [exact Hc4|]. apply converges_ret.
  - (* ( Expr ) *)
    intros lpar e IHe rpar p rest v0 Hr Hat. simpl in Hat.
    rewrite <- app_assoc in Hat. simpl in Hat.
    destruct (@Get_parsed p 11 lpar _ Hr Hat) as (p1 & Hc1 & Hp1 & _);
      [unfold maxT; lia|].
    destruct (IHe p1 (terminal 12 rpar :: rest) v0) as (p3 & Hc3 & Hp3);
      [apply Hp1|apply Hp1| |].
    { unfold stop_expr, stop_term.
      rewrite next_kind_terminal by (simpl; unfold maxT; lia). simpl. lia. }
    destruct (@Expect_parsed p3 12 rpar _ (proj1 Hp3) (proj1 (proj2 Hp3)))
      as (p4 & Hc4 & Hp4 & _); [unfold maxT; lia|].
    exists p4. split; [|eauto using parsed_trans].
    conv_unfold Factor_S.
    conv_rewrite (@la_kind_at_terminal p 11 lpar _ Hat ltac:(unfold maxT; lia)).
    eapply converges_bind; [exact Hc1|].
    eapply converges_bind; [exact Hc3|]. simpl.
    eapply converges_bind; [exact Hc4|]. apply converges_ret.
Qed.

(** ** Parse on the two forms of a calc-entry *)

(** The parser as [Parse] sets it up before its first [Get]. *)
Lemma Parse_eq (n : nat) (p : Parser) :
  Parse n p =
  (p1 <- Get n (with_dummyToken (Some (Token.with_val "Dummy Token" Token.new))
                  (with_la DummyPtr (with_dummyToken (Some Token.new) (with_t Null p)))) ;;
   calcEntry n p1).
Proof. reflexivity. Qed.

Lemma Parse_first_Get (p : Parser) :
  exists p1,
    converges
      (fun n => Get n (with_dummyToken (Some (Token.with_val "Dummy Token" Token.new))
                         (with_la DummyPtr
                            (with_dummyToken (Some Token.new) (with_t Null p))))) p1 /\
    ready p1 /\ at_input p1 (Scanner.pending (scanner p)) /\
    errors p1 = errors p /\ val p1 = val p /\
    errDist p1 = wrap32 (errDist p + 1) /\
    (remaining p1 <= List.length (Scanner.pending (scanner p)))%nat /\
    t p1 <> Null.
Proof.
  match goal with |- exists p1, converges (fun n => Get n ?q) _ /\ _ =>
    destruct (@Get_ready q) as (p1 & Hc & Hr & H1 & H2 & H3 & H4 & H5 & H6);
      [split; [eexists; reflexivity|discriminate]|];
    assert (Hrem : (remaining p1 + 0 <= remaining q)%nat)
      by (destruct Hc as [n0 Hc];
          apply (@Get_remaining n0 q p1 (Token.with_val "Dummy Token" Token.new));
          [apply Hc; lia|reflexivity])
  end.
  exists p1. simpl in *.
  split; [exact Hc|]. split; [exact Hr|].
  split; [exists (Scanner.bufPos (scanner p)); auto|].
  unfold remaining in Hrem at 2. simpl in Hrem.
  repeat (split; [assumption || lia|]).
  intro E. rewrite E in H6. discriminate.
Qed.

Lemma ready_with_val (v : float) (p : Parser) : ready p -> ready (with_val v p).
Proof. intro H; exact H. Qed.

Lemma at_input_with_val (v : float) (p : Parser) (l : list Token) :
  at_input p l -> at_input (with_val v p) l.
Proof. intro H; exact H. Qed.

(** A phrase starts with a variable, a number, a minus sign or an
    opening parenthesis. *)
Lemma next_kind_factor (f : factor) (rest : list Token) :
  In (next_kind (tokens_of_factor f ++ rest)) [3; 4; 8; 11].
Proof.
  destruct f; simpl tokens_of_factor; cbn [app];
    rewrite next_kind_terminal by (simpl; unfold maxT; lia); simpl; auto.
Qed.

Lemma next_kind_expr (e : expr) (rest : list Token) :
  In (next_kind (tokens_of_expr e ++ rest)) [3; 4; 8; 11].
Proof.
  destruct e as [[f tl'] tl]. simpl. rewrite <- !app_assoc.
  apply next_kind_factor.
Qed.

Lemma StartOf_1_true (p : Parser) (k : Z) :
  la_kind p = Ok k -> In k [3; 4; 8; 11] -> StartOf 1 p = Ok true.
Proof.
  intros Hk Hin. unfold StartOf. rewrite Hk. simpl in Hin.
  destruct Hin as [<-|[<-|[<-|[<-|[]]]]]; reflexivity.
Qed.

Lemma calcEntry_eq (n : nat) (p : Parser) :
  calcEntry n p =
  (k <- la_kind (with_val 0%float p) ;;
   if k =? 5 then
     p <- Get n (with_val 0%float p) ;;
     ' (v, p) <- Expr n (val p) p ;;
     p <- Expect n 6 (with_val v p) ;;
     tk <- deref p (t p) ;;
     Ok (with_scanner
           (Scanner.SetPos
              (wrap32 (Token.pos tk + coco_string_length (Token.val tk)))
              (scanner p)) p)
   else
     b <- StartOf 1 (with_val 0%float p) ;;
     if b then
       ' (v, p) <- Expr n (val (with_val 0%float p)) (with_val 0%float p) ;;
       Expect n 0 (with_val v p)
     else SynErr 14 (with_val 0%float p)).
Proof. reflexivity. Qed.

(** The bare form: a phrase followed by the end-marker. *)
Lemma calcEntry_bare (e : expr) (rest : list Token) (p : Parser) :
  ready p -> at_input p (tokens_of_expr e ++ rest) -> next_kind rest = 0 ->
  exists p',
    converges (fun n => calcEntry n p) p' /\
    val p' = eval_expr e /\ errors p' = errors p.
Proof.
  intros Hr Hat H0.
  pose proof (next_kind_expr e rest) as Hin.
  pose proof (at_input_la_kind (at_input_with_val 0%float Hat)) as Hk.
  destruct (@phrase_parsed) as (HE & _).
  destruct (HE e (with_val 0%float p) rest 0%float) as (p1 & Hc1 & Hr1 & Hat1 & He1 & Hv1);
    [exact Hr|exact Hat| |].
  { unfold stop_expr, stop_term. rewrite H0. lia. }
  destruct (@Get_ready (with_val (eval_expr e) p1)) as (p2 & Hc2 & _ & _ & _ & _ & He2 & Hv2 & _);
    [exact Hr1|].
  exists p2. split; [|split; [exact Hv2|rewrite He2; exact He1]].
  eapply converges_ext; [intro; apply calcEntry_eq|].
  conv_rewrite Hk.
  assert (H5 : (next_kind (tokens_of_expr e ++ rest) =? 5) = false).
  { apply Z.eqb_neq. intro E. rewrite E in Hin. simpl in Hin.
    destruct Hin as [H|[H|[H|[H|[]]]]]; discriminate. }
  conv_rewrite H5.
  conv_rewrite (StartOf_1_true _ Hk Hin).
  eapply converges_bind; [exact Hc1|]. simpl.
  eapply converges_ext; [|exact Hc2].
  intro n. unfold Expect.
  rewrite (at_input_la_kind (at_input_with_val _ Hat1)), H0. reflexivity.
Qed.

(** The braced form: ['{'], a phrase, ['}']. *)
Lemma calcEntry_braced (lb rb : Lexeme) (e : expr) (rest : list Token) (p : Parser) :
  ready p ->
  at_input p (terminal 5 lb :: tokens_of_expr e ++ terminal 6 rb :: rest) ->
  exists p',
    converges (fun n => calcEntry n p) p' /\
    val p' = eval_expr e /\ errors p' = errors p /\
    deref p' (t p') = Ok (terminal 6 rb) /\
    Scanner.GetPos (scanner p') = wrap32 (lpos rb + coco_string_length (ltext rb)) /\
    la p' = ScannedPtr (fst (next_terminal (lpos rb + coco_string_length (ltext rb)) rest)).
Proof.
  intros Hr Hat.
  pose proof (@la_kind_at_terminal _ 5 lb _ (at_input_with_val 0%float Hat)
                ltac:(unfold maxT; lia)) as Hk.
  destruct (@Get_parsed (with_val 0%float p) 5 lb _ Hr Hat)
    as (p1 & Hc1 & (Hr1 & Hat1 & He1 & Hv1) & _); [unfold maxT; lia|].
  destruct (@phrase_parsed) as (HE & _).
  destruct (HE e p1 (terminal 6 rb :: rest) (val p1)) as (p2 & Hc2 & Hr2 & Hat2 & He2 & Hv2);
    [exact Hr1|exact Hat1| |].
  { unfold stop_expr, stop_term.
    rewrite next_kind_terminal by (simpl; unfold maxT; lia). simpl. lia. }
  destruct (at_input_terminal (at_input_with_val (eval_expr e) Hat2)
              ltac:(simpl; unfold maxT; lia)) as [Hla2 Hpend2].
  destruct (@Get_ready (with_val (eval_expr e) p2) Hr2)
    as (p3 & Hc3 & Hr3 & Hla3 & Hsc3 & _ & He3 & Hv3 & Ht3).
  assert (Hbp : Scanner.bufPos (scanner p2) = lpos rb + coco_string_length (ltext rb)).
  { destruct Hat2 as (bp & _ & Hsc). rewrite Hsc. reflexivity. }
  simpl in Hla2, Hpend2, Hla3, Hsc3, He3, Hv3, Ht3.
  rewrite Hla2 in Ht3. simpl in Ht3.
  rewrite Hpend2, Hbp in Hla3.
  eexists. split; [|split; [|split; [|split; [|split]]]].
  - eapply converges_ext; [intro; apply calcEntry_eq|].
    conv_rewrite Hk.
    eapply converges_bind; [exact Hc1|].
    eapply converges_bind; [exact Hc2|]. simpl.
    eapply converges_bind.
    + eapply converges_ext; [|exact Hc3].
      intro n. unfold Expect.
      rewrite (@la_kind_at_terminal _ 6 rb _ (at_input_with_val _ Hat2))
        by (unfold maxT; lia).
      reflexivity.
    + conv_rewrite Ht3. apply converges_ret.
  - simpl. exact Hv3.
  - simpl. rewrite He3, He2, He1. reflexivity.
  - simpl. etransitivity; [|exact Ht3]. apply deref_ext. reflexivity.
  - reflexivity.
  - simpl. exact Hla3.
Qed.

Lemma Parse_bare (e : expr) (rest : list Token) (p : Parser) :
  Scanner.pending (scanner p) = tokens_of_expr e ++ rest ->
  next_kind rest = 0 ->
  exists p',
    converges (fun n => Parse n p) p' /\
    val p' = eval_expr e /\ errors p' = errors p.
Proof.
  intros Hpend H0.
  destruct (Parse_first_Get p) as (p1 & Hc1 & Hr1 & Hat1 & He1 & _).
  rewrite Hpend in Hat1.
  destruct (@calcEntry_bare e rest p1 Hr1 Hat1 H0) as (p2 & Hc2 & Hv2 & He2).
  exists p2. split; [|split; [exact Hv2|congruence]].
  eapply converges_ext; [intro; apply Parse_eq|].
  eapply converges_bind; [exact Hc1|exact Hc2].
Qed.

Lemma Parse_braced (lb rb : Lexeme) (e : expr) (rest : list Token) (p : Parser) :
  Scanner.pending (scanner p) =
    terminal 5 lb :: tokens_of_expr e ++ terminal 6 rb :: rest ->
  exists p',
    converges (fun n => Parse n p) p' /\
    val p' = eval_expr e /\ errors p' = errors p /\
    deref p' (t p') = Ok (terminal 6 rb) /\
    Scanner.GetPos (scanner p') = wrap32 (lpos rb + coco_string_length (ltext rb)) /\
    la p' = ScannedPtr (fst (next_terminal (lpos rb + coco_string_length (ltext rb)) rest)).
Proof.
  intros Hpend.
  destruct (Parse_first_Get p) as (p1 & Hc1 & Hr1 & Hat1 & He1 & _).
  rewrite Hpend in Hat1.
  destruct (@calcEntry_braced lb rb e rest p1 Hr1 Hat1)
    as (p2 & Hc2 & Hv2 & He2 & Hrest).
  exists p2. split; [|split; [exact Hv2|split; [congruence|exact Hrest]]].
  eapply converges_ext; [intro; apply Parse_eq|].
  eapply converges_bind; [exact Hc1|exact Hc2].
Qed.

(** ** SynErr and SemErr *)

Lemma SynErr_eq (n : Z) (p : Parser) (tk : Token) :
  deref p (la p) = Ok tk ->
  SynErr n p =
  Ok (with_errDist 0
        (if minErrDist <=? errDist p
         then with_errors (Errors.SynErr (Token.line tk) (Token.col tk) n (errors p)) p
         else p)).
Proof.
  intro H. unfold SynErr. rewrite H.
  destruct (minErrDist <=? errDist p); reflexivity.
Qed.

Lemma SynErr_returns (n : Z) (p p' : Parser) :
  SynErr n p = Ok p' ->
  errDist p' = 0 /\
  la p' = la p /\ t p' = t p /\ scanner p' = scanner p /\
  dummyToken p' = dummyToken p /\ val p' = val p /\
  (if minErrDist <=? errDist p
   then exists tk, deref p (la p) = Ok tk /\
                   errors p' = Errors.SynErr (Token.line tk) (Token.col tk) n (errors p)
   else errors p' = errors p).
Proof.
  unfold SynErr. intro H.
  destruct (minErrDist <=? errDist p).
  - destruct (deref p (la p)) as [tk| |]; try discriminate.
    simpl in H. injection H as <-. simpl. eauto 10.
  - simpl in H. injection H as <-. simpl. auto 10.
Qed.

Lemma SemErr_returns (msg : string) (p p' : Parser) :
  SemErr msg p = Ok p' ->
  errDist p' = 0 /\
  la p' = la p /\ t p' = t p /\ scanner p' = scanner p /\
  dummyToken p' = dummyToken p /\ val p' = val p /\
  (if minErrDist <=? errDist p
   then exists tk, deref p (t p) = Ok tk /\
                   errors p' = Errors.Error (Token.line tk) (Token.col tk) msg (errors p)
   else errors p' = errors p).
Proof.
  unfold SemErr. intro H.
  destruct (minErrDist <=? errDist p).
  - destruct (deref p (t p)) as [tk| |]; try discriminate.
    simpl in H. injection H as <-. simpl. eauto 10.
  - simpl in H. injection H as <-. simpl. auto 10.
Qed.

(** ** Every procedure of the parser is a run *)

Lemma run_trans (p p1 p2 : Parser) (tr1 tr2 : list Event) :
  run p tr1 p1 -> run p1 tr2 p2 -> run p (tr1 ++ tr2) p2.
Proof.
  induction 1 as [p|p ev q tr q' Hs _ IH|p q tr q' Hs _ IH]; intro H2; simpl.
  - exact H2.
  - eapply run_event; eauto.
  - eapply run_silent; eauto.
Qed.

Lemma run_start (p : Parser) :
  run p []
      (with_dummyToken (Some (Token.with_val "Dummy Token" Token.new))
         (with_la DummyPtr (with_dummyToken (Some Token.new) (with_t Null p)))).
Proof. eapply run_silent; [apply step_start|apply run_done]. Qed.

Lemma run_assign (p : Parser) (v : float) : run p [] (with_val v p).
Proof. eapply run_silent; [apply step_assign|apply run_done]. Qed.

Lemma run_SetPos (p : Parser) (value : Z) :
  run p [] (with_scanner (Scanner.SetPos value (scanner p)) p).
Proof. eapply run_silent; [apply step_SetPos|apply run_done]. Qed.

Lemma run_Get (n : nat) (p p' : Parser) : Get n p = Ok p' -> run p [EvGet] p'.
Proof.
  intro H. eapply run_event; [eapply step_Get; exact H|apply run_done].
Qed.

Lemma run_SynErr (n : Z) (p p' : Parser) :
  SynErr n p = Ok p' -> run p [EvErr (minErrDist <=? errDist p)] p'.
Proof.
  intro H. eapply run_event; [eapply step_SynErr; exact H|apply run_done].
Qed.

Lemma Expect_run (n : nat) (k : Z) (p p' : Parser) :
  Expect n k p = Ok p' -> exists tr, run p tr p'.
Proof.
  unfold Expect. intro H. apply bind_Ok in H. destruct H as (k' & _ & H).
  destruct (k' =? k); eauto using run_Get, run_SynErr.
Qed.

Ltac bind_inv H :=
  let a := fresh "a" in
  let Ha := fresh "Ha" in
  apply bind_Ok in H; destruct H as (a & Ha & H).

Lemma phrase_run (n : nat) :
  (forall v p r, Expr n v p = Ok r -> exists tr, run p tr (snd r)) /\
  (forall v v2 p r, Expr_loop n v v2 p = Ok r -> exists tr, run p tr (snd r)) /\
  (forall v p r, Term n v p = Ok r -> exists tr, run p tr (snd r)) /\
  (forall v v2 p r, Term_loop n v v2 p = Ok r -> exists tr, run p tr (snd r)) /\
  (forall v p r, Factor n v p = Ok r -> exists tr, run p tr (snd r)).
Proof.
  induction n as [|n (IHE & IHEl & IHT & IHTl & IHF)].
  - repeat split; intros; discriminate.
  - split; [|split; [|split; [|split]]].
    + intros v p r H. rewrite Expr_S in H.
      bind_inv H. destruct a as [v1 p1].
      apply IHT in Ha. apply IHEl in H. destruct Ha, H.
      eauto using run_trans.
    + intros v v2 p r H. rewrite Expr_loop_S in H.
      bind_inv H.
      destruct ((a =? 7) || (a =? 8)).
      * destruct (a =? 7);
          bind_inv H; bind_inv H; destruct a1 as [v3 p3];
          apply run_Get in Ha0; apply IHT in Ha1; apply IHEl in H;
          destruct Ha1, H; eauto using run_trans.
      * injection H as <-. simpl. eauto using run_done.
    + intros v p r H. rewrite Term_S in H.
      bind_inv H. destruct a as [v1 p1].
      apply IHF in Ha. apply IHTl in H. destruct Ha, H.
      eauto using run_trans.
    + intros v v2 p r H. rewrite Term_loop_S in H.
      bind_inv H.
      destruct ((a =? 9) || (a =? 10)).
      * destruct (a =? 9);
          bind_inv H; bind_inv H; destruct a1 as [v3 p3];
          apply run_Get in Ha0; apply IHF in Ha1; apply IHTl in H;
          destruct Ha1, H; eauto using run_trans.
      * injection H as <-. simpl. eauto using run_done.
    + intros v p r H. rewrite Factor_S in H.
      bind_inv H.
      destruct (a =? 3); [|destruct (a =? 4); [|destruct (a =? 8); [|destruct (a =? 11)]]].
      * bind_inv H. bind_inv H. injection H as <-. simpl.
        eauto using run_Get.
      * bind_inv H. bind_inv H. injection H as <-. simpl.
        eauto using run_Get.
      * bind_inv H. bind_inv H. bind_inv H. destruct a2 as [v3 p3].
        bind_inv H. injection H as <-. simpl.
        apply run_Get in Ha0. apply Expect_run in Ha1, Ha3. apply IHE in Ha2.
        destruct Ha1, Ha2, Ha3. eauto using run_trans.
      * bind_inv H. bind_inv H. destruct a1 as [v3 p3].
        bind_inv H. injection H as <-. simpl.
        apply run_Get in Ha0. apply Expect_run in Ha2. apply IHE in Ha1.
        destruct Ha1, Ha2. eauto using run_trans.
      * bind_inv H. injection H as <-. simpl. eauto using run_SynErr.
Qed.

Lemma calcEntry_run (n : nat) (p p' : Parser) :
  calcEntry n p = Ok p' -> exists tr, run p tr p'.
Proof.
  rewrite calcEntry_eq. intro H.
  pose proof (run_assign p 0%float) as H0.
  bind_inv H. destruct (a =? 5).
  - bind_inv H. bind_inv H. destruct a1 as [v1 p1].
    bind_inv H. bind_inv H. injection H as <-.
    apply run_Get in Ha0. apply (proj1 (phrase_run n)) in Ha1. simpl in Ha1.
    apply Expect_run in Ha2. destruct Ha1 as [tr1 H1], Ha2 as [tr2 H2].
    exists ([] ++ [EvGet] ++ tr1 ++ [] ++ tr2 ++ []).
    eapply run_trans; [exact H0|].
    eapply run_trans; [exact Ha0|].
    eapply run_trans; [exact H1|].
    eapply run_trans; [apply (run_assign p1 v1)|].
    eapply run_trans; [exact H2|].
    apply run_SetPos.
  - bind_inv H. destruct a0.
    + bind_inv H. destruct a0 as [v1 p1].
      apply (proj1 (phrase_run n)) in Ha1. simpl in Ha1.
      apply Expect_run in H. destruct Ha1 as [tr1 H1], H as [tr2 H2].
      exists ([] ++ tr1 ++ [] ++ tr2).
      eapply run_trans; [exact H0|].
      eapply run_trans; [exact H1|].
      eapply run_trans; [apply (run_assign p1 v1)|].
      exact H2.
    + apply run_SynErr in H.
      eexists. eapply run_trans; [exact H0|exact H].
Qed.

Lemma Parse_run (n : nat) (p p' : Parser) :
  Parse n p = Ok p' -> exists tr, run p tr p'.
Proof.
  rewrite Parse_eq. intro H. bind_inv H.
  apply run_Get in Ha. apply calcEntry_run in H. destruct H as [tr H].
  exists ([] ++ [EvGet] ++ tr).
  eapply run_trans; [apply run_start|].
  eapply run_trans; [exact Ha|exact H].
Qed.

Lemma ExpectWeak_run (n : nat) (k follow : Z) (p p' : Parser) :
  ExpectWeak n k follow p = Ok p' -> exists tr, run p tr p'.
Proof.
  assert (Hskip : forall m q q', ExpectWeak_skip m follow q = Ok q' ->
                                 exists tr, run q tr q').
  { induction m as [|m IH]; intros q q' H; [discriminate|].
    simpl in H. bind_inv H. destruct a; simpl in H.
    - injection H as <-. eauto using run_done.
    - bind_inv H. apply run_Get in Ha0. apply IH in H. destruct H.
      eauto using run_trans. }
  unfold ExpectWeak. intro H. bind_inv H. destruct (a =? k).
  - eauto using run_Get.
  - bind_inv H. apply run_SynErr in Ha0. apply Hskip in H. destruct H.
    eauto using run_trans.
Qed.

Lemma WeakSeparator_run (n : nat) (k syFol repFol : Z) (p : Parser)
      (r : bool * Parser) :
  WeakSeparator n k syFol repFol p = Ok r -> exists tr, run p tr (snd r).
Proof.
  assert (Hskip : forall m q q', WeakSeparator_skip m syFol repFol q = Ok q' ->
                                 exists tr, run q tr q').
  { induction m as [|m IH]; intros q q' H; [discriminate|].
    simpl in H. bind_inv H. destruct a; simpl in H.
    - injection H as <-. eauto using run_done.
    - bind_inv H. apply run_Get in Ha0. apply IH in H. destruct H.
      eauto using run_trans. }
  unfold WeakSeparator. intro H. bind_inv H. destruct (a =? k).
  - bind_inv H. injection H as <-. simpl. eauto using run_Get.
  - bind_inv H. destruct a0.
    + injection H as <-. simpl. eauto using run_done.
    + bind_inv H. bind_inv H. bind_inv H. injection H as <-. simpl.
      apply run_SynErr in Ha1. apply Hskip in Ha2. destruct Ha2.
      eauto using run_trans.
Qed.

(** ** What a run does to [errDist] and to the diagnostics *)

Lemma run_split (p p' : Parser) (a b : list Event) :
  run p (a ++ b) p' -> exists q, run p a q /\ run q b p'.
Proof.
  intro H. remember (a ++ b) as tr eqn:E. revert a E.
  induction H as [p|p ev p1 tr p2 Hs H IH|p p1 tr p2 Hs H IH]; intros a E.
  - symmetry in E. apply app_eq_nil in E. destruct E as [-> ->].
    exists p. split; apply run_done.
  - destruct a as [|ev' a]; simpl in E.
    + subst b. exists p. split; [apply run_done|eapply run_event; eassumption].
    + injection E as <- ->. destruct (IH a eq_refl) as (q & H1 & H2).
      exists q. split; [eapply run_event; eassumption|exact H2].
  - destruct (IH a E) as (q & H1 & H2).
    exists q. split; [eapply run_silent; eassumption|exact H2].
Qed.

Lemma run_head (p p' : Parser) (ev : Event) (tr : list Event) :
  run p (ev :: tr) p' ->
  exists q q',
    errDist q = errDist p /\ errors q = errors p /\
    step q (Some ev) q' /\ run q' tr p'.
Proof.
  intro H. remember (ev :: tr) as tr0 eqn:E. revert E.
  induction H as [p|p ev' p1 tr' p2 Hs H IH|p p1 tr' p2 Hs H IH]; intro E.
  - discriminate.
  - injection E as -> ->. exists p, p1. auto.
  - destruct (IH E) as (q & q' & H1 & H2 & H3 & H4).
    assert (Hsame : errDist p1 = errDist p /\ errors p1 = errors p)
      by (inversion Hs; subst; split; reflexivity).
    destruct Hsame. exists q, q'. repeat split; try assumption; congruence.
Qed.

Lemma step_errDist (p p' : Parser) (ev : Event) :
  step p (Some ev) p' ->
  match ev with
  | EvGet => errDist p' = wrap32 (errDist p + 1) /\ errors p' = errors p
  | EvErr r =>
      r = (minErrDist <=? errDist p) /\ errDist p' = 0 /\
      Errors.count (errors p') =
        (if r then wrap32 (Errors.count (errors p) + 1) else Errors.count (errors p)) /\
      List.length (Errors.log (errors p')) =
        (List.length (Errors.log (errors p)) + (if r then 1 else 0))%nat
  end.
Proof.
  intro H.
  inversion H as [fuel q q' H3|n q q' H3|msg q q' H3| | |]; subst.
  - apply Get_returns in H3. tauto.
  - apply SynErr_returns in H3. destruct H3 as (H0 & _ & _ & _ & _ & _ & He).
    split; [reflexivity|]. split; [exact H0|].
    destruct (minErrDist <=? errDist p).
    + destruct He as (tk & _ & ->). simpl. rewrite length_app. simpl. auto.
    + rewrite He. split; [reflexivity|lia].
  - apply SemErr_returns in H3. destruct H3 as (H0 & _ & _ & _ & _ & _ & He).
    split; [reflexivity|]. split; [exact H0|].
    destruct (minErrDist <=? errDist p).
    + destruct He as (tk & _ & ->). simpl. rewrite length_app. simpl. auto.
    + rewrite He. split; [reflexivity|lia].
Qed.

Lemma step_silent (p p' : Parser) :
  step p None p' -> errDist p' = errDist p /\ errors p' = errors p.
Proof. intro H. inversion H; subst; split; reflexivity. Qed.

Lemma run_errDist_bound (p p' : Parser) (tr : list Event) :
  run p tr p' ->
  forall B, INT_MIN <= errDist p <= B -> 0 <= B ->
            INT_MIN <= errDist p' <= B + Z.of_nat (gets tr).
Proof.
  induction 1 as [p|p ev p1 tr p2 Hs H IH|p p1 tr p2 Hs H IH]; intros B HB H0.
  - simpl. lia.
  - apply step_errDist in Hs. destruct ev as [|r].
    + destruct Hs as [He _].
      pose proof (wrap32_range (errDist p + 1)).
      pose proof (@wrap32_succ_le (errDist p) (proj1 HB)).
      specialize (IH (B + 1)). cbn [gets]. lia.
    + destruct Hs as (_ & He & _).
      specialize (IH B). cbn [gets]. unfold INT_MIN in *. lia.
  - apply step_silent in Hs. destruct Hs as [He _].
    apply IH; [rewrite He; exact HB|exact H0].
Qed.

Lemma run_errDist_exact (p p' : Parser) (tr : list Event) :
  run p tr p' ->
  error_free tr = true ->
  INT_MIN <= errDist p -> errDist p + Z.of_nat (gets tr) <= INT_MAX ->
  errDist p' = errDist p + Z.of_nat (gets tr).
Proof.
  induction 1 as [p|p ev p1 tr p2 Hs H IH|p p1 tr p2 Hs H IH]; intros Hf Hlo Hhi.
  - simpl. lia.
  - destruct ev as [|r]; [|discriminate].
    apply step_errDist in Hs. destruct Hs as [He _].
    cbn [gets error_free] in *.
    rewrite wrap32_id in He by lia.
    rewrite IH; try assumption; lia.
  - apply step_silent in Hs. destruct Hs as [He _].
    rewrite IH; try assumption; lia.
Qed.

Lemma run_reports (p p' : Parser) (tr : list Event) :
  run p tr p' ->
  List.length (Errors.log (errors p')) =
    (List.length (Errors.log (errors p)) + reports tr)%nat /\
  (INT_MIN <= Errors.count (errors p) ->
   Errors.count (errors p) + Z.of_nat (reports tr) <= INT_MAX ->
   Errors.count (errors p') = Errors.count (errors p) + Z.of_nat (reports tr)).
Proof.
  induction 1 as [p|p ev p1 tr p2 Hs H IH|p p1 tr p2 Hs H IH].
  - simpl. split; lia.
  - apply step_errDist in Hs. destruct IH as [IHl IHc]. destruct ev as [|r].
    + destruct Hs as [_ He]. rewrite He in *. cbn [reports]. auto.
    + destruct Hs as (_ & _ & Hc & Hl). destruct r; cbn [reports].
      * split; [lia|]. intros Hlo Hhi.
        rewrite wrap32_id in Hc by lia. rewrite IHc; lia.
      * rewrite Hc in *. split; [lia|exact IHc].
  - apply step_silent in Hs. destruct Hs as [_ He]. rewrite He in *. exact IH.
Qed.

(** Any two diagnostics of a run have at least [minErrDist] calls of
    [Get] between them. *)
Lemma run_separated (p p' : Parser) (tr : list Event) :
  run p tr p' -> separated tr.
Proof.
  intros H a mid b E. subst tr.
  apply run_split in H. destruct H as (q1 & _ & H).
  apply run_head in H. destruct H as (q2 & q3 & _ & _ & Hs & H).
  apply step_errDist in Hs. destruct Hs as (_ & He0 & _).
  apply run_split in H. destruct H as (q4 & Hmid & H).
  apply run_head in H. destruct H as (q5 & q6 & He5 & _ & Hs & _).
  apply step_errDist in Hs. destruct Hs as (Hr & _).
  symmetry in Hr. apply Z.leb_le in Hr.
  pose proof (run_errDist_bound Hmid (B := 0)) as Hb.
  rewrite He0 in Hb. unfold INT_MIN in Hb. lia.
Qed.

(** The first call of [SynErr] or [SemErr] of a run that starts with
    [errDist] at the threshold or above is reported. *)
Lemma run_first_error (p p' : Parser) (a b : list Event) (r : bool) :
  run p (a ++ EvErr r :: b) p' ->
  error_free a = true ->
  minErrDist <= errDist p ->
  errDist p + Z.of_nat (gets a) <= INT_MAX ->
  r = true.
Proof.
  intros H Hf Hmin Hmax.
  apply run_split in H. destruct H as (q1 & Ha & H).
  apply run_head in H. destruct H as (q2 & q3 & He & _ & Hs & _).
  apply step_errDist in Hs. destruct Hs as (-> & _).
  pose proof minErrDist_int as Hint.
  rewrite He, (run_errDist_exact Ha Hf) by lia.
  apply Z.leb_le. lia.
Qed.

(** ** The parser returns on every input *)

Lemma ready_la_kind (p : Parser) :
  ready p -> exists tk, deref p (la p) = Ok tk /\ la_kind p = Ok (Token.kind tk).
Proof.
  intros [[tk H] _]. exists tk. split; [exact H|].
  unfold la_kind. rewrite H. reflexivity.
Qed.

Lemma extends_refl (p : Parser) : extends p p.
Proof. exists []. symmetry. apply app_nil_r. Qed.

Lemma extends_trans (p p1 p2 : Parser) :
  extends p p1 -> extends p1 p2 -> extends p p2.
Proof.
  intros [l1 H1] [l2 H2]. exists (l1 ++ l2). rewrite H2, H1. symmetry. apply app_assoc.
Qed.

Lemma extends_same (p p' : Parser) : errors p' = errors p -> extends p p'.
Proof. intro H. exists []. rewrite H. symmetry. apply app_nil_r. Qed.

Ltac advances_split :=
  unfold advances;
  split; [try assumption
         |split; [try lia
                 |split; [try lia
                         |split; [eauto 8 using extends_refl, extends_trans, extends_same
                                 |try tauto]]]].

Lemma advances_refl (p : Parser) : ready p -> advances 0 p p.
Proof. intro H. advances_split. Qed.

Lemma advances_trans (d1 d2 : nat) (p p1 p2 : Parser) :
  advances d1 p p1 -> advances d2 p1 p2 -> advances (d1 + d2) p p2.
Proof.
  unfold advances. intros (_ & H1 & H2 & H3 & H3') (Hr & H4 & H5 & H6 & H6').
  advances_split.
Qed.

Lemma advances_weaken (d d' : nat) (p p' : Parser) :
  advances d p p' -> (d <= d')%nat -> advances d' p p'.
Proof.
  unfold advances. intros (Hr & H1 & H2 & H3 & H3') Hd.
  advances_split.
Qed.

(** A call of [Get] on a lookahead other than the end-marker pays for
    three diagnostics. *)
Lemma Get_total (p : Parser) (tk : Token) :
  ready p -> deref p (la p) = Ok tk ->
  exists p',
    converges (fun n => Get n p) p' /\
    ready p' /\
    (remaining p' + (if (Token.kind tk =? 0)%Z then 0 else 1) <= remaining p)%nat /\
    errors p' = errors p /\
    deref p' (t p') = Ok tk.
Proof.
  intros Hr Hla.
  destruct (Get_ready Hr) as (p' & Hc & Hr' & _ & _ & _ & He & _ & Ht).
  exists p'. split; [exact Hc|]. split; [exact Hr'|].
  split; [|split; [exact He|congruence]].
  destruct Hc as [n0 Hc]. eapply Get_remaining; [apply (Hc n0); lia|exact Hla].
Qed.

Lemma Get_advances (p : Parser) (tk : Token) :
  ready p -> deref p (la p) = Ok tk -> Token.kind tk <> 0 ->
  exists p',
    converges (fun n => Get n p) p' /\
    ready p' /\
    (remaining p' + 1 <= remaining p)%nat /\
    (weight p' + 3 <= weight p)%nat /\
    errors p' = errors p /\
    t p' <> Null /\
    deref p' (t p') = Ok tk.
Proof.
  intros Hr Hla Hk.
  destruct (Get_total Hr Hla) as (p' & Hc & Hr' & Hrem & He & Ht).
  apply Z.eqb_neq in Hk. rewrite Hk in Hrem.
  exists p'. unfold weight. rewrite He.
  split; [exact Hc|]. split; [exact Hr'|]. split; [lia|]. split; [lia|].
  split; [reflexivity|]. split; [|exact Ht].
  intro E. rewrite E in Ht. discriminate.
Qed.

Lemma remaining_ext (p q : Parser) :
  scanner p = scanner q -> la p = la q -> dummyToken p = dummyToken q ->
  remaining p = remaining q.
Proof.
  intros Hs Hl Hd. unfold remaining.
  rewrite Hs, Hl, (deref_ext p q _ Hd). reflexivity.
Qed.

Lemma SynErr_advances (n : Z) (p : Parser) :
  ready p -> exists p', SynErr n p = Ok p' /\ advances 1 p p'.
Proof.
  intros Hr. destruct Hr as [[tk Hla] Hd].
  pose proof (SynErr_eq n _ Hla) as Heq.
  eexists. split; [exact Heq|].
  apply SynErr_returns in Heq.
  match type of Heq with errDist ?q = _ /\ _ => set (p' := q) in * end.
  destruct Heq as (_ & Hl & Ht & Hs & Hdum & _ & He).
  pose proof (remaining_ext _ _ Hs Hl Hdum) as Hrem.
  assert (Hlog : exists l, Errors.log (errors p') = Errors.log (errors p) ++ l /\
                           (List.length l <= 1)%nat).
  { destruct (minErrDist <=? errDist p).
    - destruct He as (tk' & _ & ->). simpl. eexists. split; [reflexivity|simpl; lia].
    - rewrite He. exists []. split; [symmetry; apply app_nil_r|simpl; lia]. }
  destruct Hlog as (l & Hlog & Hlen).
  unfold advances, weight, extends. rewrite Hrem, Hlog, length_app, Ht.
  split; [split; [exists tk; rewrite Hl; etransitivity; [apply deref_ext; exact Hdum|exact Hla]
                 |rewrite Hdum; exact Hd]|].
  split; [lia|]. split; [lia|]. split; [eauto|auto].
Qed.

Lemma Expect_advances (k : Z) (p : Parser) :
  ready p ->
  exists p', converges (fun n => Expect n k p) p' /\ advances 1 p p'.
Proof.
  intros Hr. destruct (ready_la_kind Hr) as (tk & Hla & Hlk).
  destruct (Z.eqb_spec (Token.kind tk) k) as [E|E].
  - destruct (@Get_total p tk Hr Hla) as (p' & Hc & Hr' & H1 & He & Ht).
    exists p'. split.
    + eapply converges_ext; [|exact Hc]. intro n. unfold Expect.
      rewrite Hlk. simpl. apply Z.eqb_eq in E. rewrite E. reflexivity.
    + assert (Hn : t p' <> Null) by (intro E'; rewrite E' in Ht; discriminate).
      unfold advances, weight. rewrite He.
      split; [exact Hr'|]. split; [destruct (Token.kind tk =? 0); lia|].
      split; [destruct (Token.kind tk =? 0); lia|].
      split; [apply extends_same; exact He|auto].
  - destruct (SynErr_advances k Hr) as (p' & Hs & Ha).
    exists p'. split; [|exact Ha].
    exists 0%nat. intros n _. unfold Expect. rewrite Hlk. simpl.
    apply Z.eqb_neq in E. rewrite E. exact Hs.
Qed.

Ltac conv_bind H := eapply converges_bind; [exact H|]; simpl.

Ltac advances_facts :=
  unfold advances in *;
  repeat match goal with
         | H : _ /\ _ |- _ => destruct H
         end.

Lemma Factor_total_step (m : nat) :
  (forall p v, ready p -> (remaining p < m)%nat ->
      exists r, converges (fun n => Expr n v p) r /\ advances 1 p (snd r)) ->
  forall p v, ready p -> (remaining p <= m)%nat ->
      exists r, converges (fun n => Factor n v p) r /\ advances 1 p (snd r).
Proof.
  intros IHE p v Hr Hm. destruct (ready_la_kind Hr) as (tk & Hla & Hlk).
  destruct (Token.kind tk =? 3) eqn:E3;
    [|destruct (Token.kind tk =? 4) eqn:E4;
      [|destruct (Token.kind tk =? 8) eqn:E8;
        [|destruct (Token.kind tk =? 11) eqn:E11]]].
  - (* variable *)
    destruct (@Get_advances p tk Hr Hla) as (p1 & Hc1 & Hr1 & Hrem1 & Hw1 & He1 & Hn1 & Ht1);
      [apply Z.eqb_eq in E3; lia|].
    exists (resolve_variable (Token.val tk), p1). split.
    + conv_unfold Factor_S. conv_rewrite Hlk. conv_rewrite E3.
      conv_bind Hc1. unfold getDictLookup. conv_rewrite Ht1. apply converges_ret.
    + simpl. advances_split.
  - (* number *)
    destruct (@Get_advances p tk Hr Hla) as (p1 & Hc1 & Hr1 & Hrem1 & Hw1 & He1 & Hn1 & Ht1);
      [apply Z.eqb_eq in E4; lia|].
    exists (parse_numeric_literal (Token.val tk), p1). split.
    + conv_unfold Factor_S. conv_rewrite Hlk. conv_rewrite E3. conv_rewrite E4.
      conv_bind Hc1. unfold getScalar. conv_rewrite Ht1. apply converges_ret.
    + simpl. advances_split.
  - (* - ( Expr ) *)
    destruct (@Get_advances p tk Hr Hla) as (p1 & Hc1 & Hr1 & Hrem1 & Hw1 & He1 & Hn1 & _);
      [apply Z.eqb_eq in E8; lia|].
    destruct (@Expect_advances 11 p1 Hr1) as (p2 & Hc2 & Ha2).
    destruct (IHE p2 v) as ([v3 p3] & Hc3 & Ha3);
      [apply Ha2|unfold advances in Ha2; lia|].
    simpl in Ha3.
    destruct (@Expect_advances 12 p3) as (p4 & Hc4 & Ha4); [apply Ha3|].
    exists ((- v3)%float, p4). split.
    + conv_unfold Factor_S. conv_rewrite Hlk.
      conv_rewrite E3. conv_rewrite E4. conv_rewrite E8.
      conv_bind Hc1. conv_bind Hc2. conv_bind Hc3. conv_bind Hc4.
      apply converges_ret.
    + simpl. advances_facts. advances_split.
  - (* ( Expr ) *)
    destruct (@Get_advances p tk Hr Hla) as (p1 & Hc1 & Hr1 & Hrem1 & Hw1 & He1 & Hn1 & _);
      [apply Z.eqb_eq in E11; lia|].
    destruct (IHE p1 v) as ([v3 p3] & Hc3 & Ha3); [exact Hr1|lia|].
    simpl in Ha3.
    destruct (@Expect_advances 12 p3) as (p4 & Hc4 & Ha4); [apply Ha3|].
    exists (v3, p4). split.
    + conv_unfold Factor_S. conv_rewrite Hlk.
      conv_rewrite E3. conv_rewrite E4. conv_rewrite E8. conv_rewrite E11.
      conv_bind Hc1. conv_bind Hc3. conv_bind Hc4.
      apply converges_ret.
    + simpl. advances_facts. advances_split.
  - (* invalid Factor *)
    destruct (SynErr_advances 15 Hr) as (p1 & Hs & Ha).
    exists (v, p1). split; [|exact Ha].
    conv_unfold Factor_S. conv_rewrite Hlk.
    conv_rewrite E3. conv_rewrite E4. conv_rewrite E8. conv_rewrite E11.
    conv_rewrite Hs. apply converges_ret.
Qed.

Lemma Term_loop_total_step (m : nat) :
  (forall p v, ready p -> (remaining p < m)%nat ->
      exists r, converges (fun n => Factor n v p) r /\ advances 1 p (snd r)) ->
  (forall p v v2, ready p -> (remaining p < m)%nat ->
      exists r, converges (fun n => Term_loop n v v2 p) r /\ advances 0 p (snd r)) ->
  forall p v v2, ready p -> (remaining p <= m)%nat ->
      exists r, converges (fun n => Term_loop n v v2 p) r /\ advances 0 p (snd r).
Proof.
  intros IHF IHL p v v2 Hr Hm. destruct (ready_la_kind Hr) as (tk & Hla & Hlk).
  destruct ((Token.kind tk =? 9) || (Token.kind tk =? 10)) eqn:E.
  - destruct (@Get_advances p tk Hr Hla) as (p1 & Hc1 & Hr1 & Hrem1 & Hw1 & He1 & Hn1 & _).
    { apply orb_true_iff in E. destruct E as [E|E]; apply Z.eqb_eq in E; lia. }
    destruct (IHF p1 v2) as ([v3 p3] & Hc3 & Ha3); [exact Hr1|lia|].
    simpl in Ha3.
    destruct (Token.kind tk =? 9) eqn:E9.
    + destruct (IHL p3 (v * v3)%float v3) as ([v4 p4] & Hc4 & Ha4);
        [apply Ha3|unfold advances in Ha3; lia|].
      exists (v4, p4). split.
      * conv_unfold Term_loop_S. conv_rewrite Hlk. conv_rewrite E9.
        conv_bind Hc1. conv_bind Hc3. exact Hc4.
      * simpl in *. advances_facts. advances_split.
    + destruct (IHL p3 (v / v3)%float v3) as ([v4 p4] & Hc4 & Ha4);
        [apply Ha3|unfold advances in Ha3; lia|].
      exists (v4, p4). split.
      * conv_unfold Term_loop_S. conv_rewrite Hlk. conv_rewrite E9.
        simpl in E. conv_rewrite E.
        conv_bind Hc1. conv_bind Hc3. exact Hc4.
      * simpl in *. advances_facts. advances_split.
  - exists (v, p). split; [|apply advances_refl; exact Hr].
    conv_unfold Term_loop_S. conv_rewrite Hlk. conv_rewrite E. apply converges_ret.
Qed.

Lemma Expr_loop_total_step (m : nat) :
  (forall p v, ready p -> (remaining p < m)%nat ->
      exists r, converges (fun n => Term n v p) r /\ advances 1 p (snd r)) ->
  (forall p v v2, ready p -> (remaining p < m)%nat ->
      exists r, converges (fun n => Expr_loop n v v2 p) r /\ advances 0 p (snd r)) ->
  forall p v v2, ready p -> (remaining p <= m)%nat ->
      exists r, converges (fun n => Expr_loop n v v2 p) r /\ advances 0 p (snd r).
Proof.
  intros IHT IHL p v v2 Hr Hm. destruct (ready_la_kind Hr) as (tk & Hla & Hlk).
  destruct ((Token.kind tk =? 7) || (Token.kind tk =? 8)) eqn:E.
  - destruct (@Get_advances p tk Hr Hla) as (p1 & Hc1 & Hr1 & Hrem1 & Hw1 & He1 & Hn1 & _).
    { apply orb_true_iff in E. destruct E as [E|E]; apply Z.eqb_eq in E; lia. }
    destruct (IHT p1 v2) as ([v3 p3] & Hc3 & Ha3); [exact Hr1|lia|].
    simpl in Ha3.
    destruct (Token.kind tk =? 7) eqn:E7.
    + destruct (IHL p3 (v + v3)%float v3) as ([v4 p4] & Hc4 & Ha4);
        [apply Ha3|unfold advances in Ha3; lia|].
      exists (v4, p4). split.
      * conv_unfold Expr_loop_S. conv_rewrite Hlk. conv_rewrite E7.
        conv_bind Hc1. conv_bind Hc3. exact Hc4.
      * simpl in *. advances_facts. advances_split.
    + destruct (IHL p3 (v - v3)%float v3) as ([v4 p4] & Hc4 & Ha4);
        [apply Ha3|unfold advances in Ha3; lia|].
      exists (v4, p4). split.
      * conv_unfold Expr_loop_S. conv_rewrite Hlk. conv_rewrite E7.
        simpl in E. conv_rewrite E.
        conv_bind Hc1. conv_bind Hc3. exact Hc4.
      * simpl in *. advances_facts. advances_split.
  - exists (v, p). split; [|apply advances_refl; exact Hr].
    conv_unfold Expr_loop_S. conv_rewrite Hlk. conv_rewrite E. apply converges_ret.
Qed.

(** [Expr], [Term] and [Factor] return on every ready parser, whatever the
    scanner holds. *)
Lemma phrase_total (m : nat) :
  (forall p v, ready p -> (remaining p <= m)%nat ->
      exists r, converges (fun n => Expr n v p) r /\ advances 1 p (snd r)) /\
  (forall p v v2, ready p -> (remaining p <= m)%nat ->
      exists r, converges (fun n => Expr_loop n v v2 p) r /\ advances 0 p (snd r)) /\
  (forall p v, ready p -> (remaining p <= m)%nat ->
      exists r, converges (fun n => Term n v p) r /\ advances 1 p (snd r)) /\
  (forall p v v2, ready p -> (remaining p <= m)%nat ->
      exists r, converges (fun n => Term_loop n v v2 p) r /\ advances 0 p (snd r)) /\
  (forall p v, ready p -> (remaining p <= m)%nat ->
      exists r, converges (fun n => Factor n v p) r /\ advances 1 p (snd r)).
Proof.
  induction m as [m IH] using lt_wf_ind.
  assert (HF : forall p v, ready p -> (remaining p <= m)%nat ->
      exists r, converges (fun n => Factor n v p) r /\ advances 1 p (snd r)).
  { apply Factor_total_step. intros p v Hr Hm.
    apply (proj1 (IH _ Hm)); [exact Hr|lia]. }
  assert (HTl : forall p v v2, ready p -> (remaining p <= m)%nat ->
      exists r, converges (fun n => Term_loop n v v2 p) r /\ advances 0 p (snd r)).
  { apply Term_loop_total_step; intros p v; intros.
    - apply (IH (remaining p)); [lia|assumption|lia].
    - apply (IH (remaining p)); [lia|assumption|lia]. }
  assert (HT : forall p v, ready p -> (remaining p <= m)%nat ->
      exists r, converges (fun n => Term n v p) r /\ advances 1 p (snd r)).
  { intros p v Hr Hm.
    destruct (HF p v Hr Hm) as ([v1 p1] & Hc1 & Ha1). simpl in Ha1.
    destruct (HTl p1 v1 0%float) as ([v2 p2] & Hc2 & Ha2);
      [apply Ha1|unfold advances in Ha1; lia|].
    exists (v2, p2). split.
    - conv_unfold Term_S. conv_bind Hc1. exact Hc2.
    - simpl in *. advances_facts. advances_split. }
  assert (HEl : forall p v v2, ready p -> (remaining p <= m)%nat ->
      exists r, converges (fun n => Expr_loop n v v2 p) r /\ advances 0 p (snd r)).
  { apply Expr_loop_total_step; intros p v; intros.
    - apply (IH (remaining p)); [lia|assumption|lia].
    - apply (IH (remaining p)); [lia|assumption|lia]. }
  assert (HE : forall p v, ready p -> (remaining p <= m)%nat ->
      exists r, converges (fun n => Expr n v p) r /\ advances 1 p (snd r)).
  { intros p v Hr Hm.
    destruct (HT p v Hr Hm) as ([v1 p1] & Hc1 & Ha1). simpl in Ha1.
    destruct (HEl p1 v1 0%float) as ([v2 p2] & Hc2 & Ha2);
      [apply Ha1|unfold advances in Ha1; lia|].
    exists (v2, p2). split.
    - conv_unfold Expr_S. conv_bind Hc1. exact Hc2.
    - simpl in *. advances_facts. advances_split. }
  auto.
Qed.

Lemma deref_ready (p : Parser) (ptr : TokenPtr) :
  ready p -> ptr <> Null -> exists tk, deref p ptr = Ok tk.
Proof.
  intros [_ Hd] Hn. destruct ptr as [| |tok]; simpl.
  - congruence.
  - destruct (dummyToken p); [eauto|congruence].
  - eauto.
Qed.

(** [calcEntry] returns on every ready parser whose lookahead is a token
    kind of the table of [StartOf]. *)
Lemma calcEntry_total (p : Parser) (tk : Token) :
  ready p -> deref p (la p) = Ok tk -> 0 <= Token.kind tk < 15 ->
  exists p', converges (fun n => calcEntry n p) p' /\ advances 2 p p'.
Proof.
  intros Hr Hla Hk.
  assert (Hlk : la_kind (with_val 0%float p) = Ok (Token.kind tk)).
  { unfold la_kind. change (deref (with_val 0%float p) (la (with_val 0%float p)))
      with (deref p (la p)). rewrite Hla. reflexivity. }
  destruct (Token.kind tk =? 5) eqn:E5.
  - destruct (@Get_advances (with_val 0%float p) tk Hr Hla)
      as (p1 & Hc1 & Hr1 & Hrem1 & Hw1 & He1 & Hn1 & _);
      [apply Z.eqb_eq in E5; lia|].
    destruct (proj1 (phrase_total (remaining p1)) p1 (val p1) Hr1 (Nat.le_refl _))
      as ([v2 p2] & Hc2 & Ha2). simpl in Ha2.
    destruct (@Expect_advances 6 (with_val v2 p2)) as (p3 & Hc3 & Ha3); [apply Ha2|].
    destruct (@deref_ready p3 (t p3)) as (tk3 & Ht3);
      [apply Ha3|apply Ha3; apply Ha2; exact Hn1|].
    eexists. split.
    + eapply converges_ext; [intro; apply calcEntry_eq|].
      conv_rewrite Hlk. conv_rewrite E5.
      conv_bind Hc1. conv_bind Hc2. conv_bind Hc3.
      conv_rewrite Ht3. apply converges_ret.
    + change (advances 2 p p3).
      change (advances 1 p2 p3) in Ha3.
      assert (Hrem1' : (remaining p1 + 1 <= remaining p)%nat) by exact Hrem1.
      assert (Hw1' : (weight p1 + 3 <= weight p)%nat) by exact Hw1.
      assert (He1' : errors p1 = errors p) by exact He1.
      clear Hrem1 Hw1 He1.
      advances_facts. advances_split.
  - assert (Hso : StartOf 1 (with_val 0%float p) =
                  Ok (nth (Z.to_nat (Token.kind tk)) (nth 1%nat set []) false)).
    { unfold StartOf. rewrite Hlk. simpl.
      destruct (Z.leb_spec 0 (Token.kind tk)); [|lia].
      destruct (Z.ltb_spec (Token.kind tk) 15); [|lia]. reflexivity. }
    destruct (nth (Z.to_nat (Token.kind tk)) (nth 1%nat set []) false) eqn:Eb.
    + destruct (proj1 (phrase_total (remaining p)) (with_val 0%float p) 0%float Hr
                      (Nat.le_refl _))
        as ([v2 p2] & Hc2 & Ha2). simpl in Ha2.
      destruct (@Expect_advances 0 (with_val v2 p2)) as (p3 & Hc3 & Ha3); [apply Ha2|].
      exists p3. split.
      * eapply converges_ext; [intro; apply calcEntry_eq|].
        conv_rewrite Hlk. conv_rewrite E5. conv_rewrite Hso.
        conv_bind Hc2. exact Hc3.
      * change (advances 1 p p2) in Ha2. change (advances 1 p2 p3) in Ha3.
        advances_facts. advances_split.
    + destruct (@SynErr_advances 14 (with_val 0%float p) Hr) as (p3 & Hs & Ha3).
      exists p3. split.
      * eapply converges_ext; [intro; apply calcEntry_eq|].
        conv_rewrite Hlk. conv_rewrite E5. conv_rewrite Hso.
        exists 0%nat. intros; exact Hs.
      * change (advances 1 p p3) in Ha3. eapply advances_weaken; [exact Ha3|lia].
Qed.

(** [Parse] returns on every input whose first terminal has a kind of the
    grammar's table; it writes at most two diagnostics more than three
    per token. *)
Lemma Parse_total (p : Parser) :
  0 <= next_kind (Scanner.pending (scanner p)) ->
  exists p',
    converges (fun n => Parse n p) p' /\
    ready p' /\ extends p p' /\
    (List.length (Errors.log (errors p')) <=
     List.length (Errors.log (errors p))
     + 3 * List.length (Scanner.pending (scanner p)) + 2)%nat.
Proof.
  intro H0.
  destruct (Parse_first_Get p) as (p1 & Hc1 & Hr1 & Hat1 & He1 & _ & _ & Hrem1 & _).
  destruct (ready_la_kind Hr1) as (tk & Hla & Hlk).
  rewrite (at_input_la_kind Hat1) in Hlk. injection Hlk as Hlk.
  destruct (@calcEntry_total p1 tk Hr1 Hla) as (p2 & Hc2 & Hr2 & _ & Hw2 & Hx2 & _).
  { rewrite <- Hlk. split; [exact H0|].
    pose proof (next_terminal_kind 0 (Scanner.pending (scanner p))).
    unfold next_kind, maxT in *. lia. }
  exists p2. split; [|split; [exact Hr2|split]].
  - eapply converges_ext; [intro; apply Parse_eq|].
    eapply converges_bind; [exact Hc1|exact Hc2].
  - eapply extends_trans; [apply extends_same; exact He1|exact Hx2].
  - unfold weight in Hw2. rewrite He1 in Hw2. lia.
Qed.

(** ** The error count *)

(** From the log to the error count. *)
Lemma Parse_count (n : nat) (p p' : Parser) (l : list (Z * Z * string)) :
  Parse n p = Ok p' ->
  Errors.log (errors p') = Errors.log (errors p) ++ l ->
  INT_MIN <= Errors.count (errors p) ->
  Errors.count (errors p) + Z.of_nat (List.length l) <= INT_MAX ->
  Errors.count (errors p') = Errors.count (errors p) + Z.of_nat (List.length l).
Proof.
  intros H Hl Hlo Hhi.
  apply Parse_run in H. destruct H as [tr H].
  apply run_reports in H. destruct H as [Hlen Hc].
  rewrite Hl, length_app in Hlen.
  assert (E : reports tr = List.length l) by lia.
  rewrite E in Hc. auto.
Qed.

Unset Implicit Arguments.

(** ** More fuel does not change what [Get] returns *)

Lemma Get_mono (n : nat) : forall p p' m,
  Get n p = Ok p' -> (n <= m)%nat -> Get m p = Ok p'.
Proof.
  induction n as [|n IH]; intros p p' m H Hm; [discriminate|].
  destruct m as [|m]; [lia|].
  simpl in H |- *.
  destruct (Scanner.Scan (scanner p)) as [tok sc].
  destruct (Token.kind tok <=? maxT); [exact H|].
  apply bind_Ok in H. destruct H as (q & Hq & H).
  rewrite Hq. simpl. apply IH; [exact H|lia].
Qed.

(** ** WeakSeparator *)

Lemma StartOf_defined (s : Z) (p : Parser) (k : Z) :
  la_kind p = Ok k -> 0 <= k < 15 -> 0 <= s < 2 ->
  StartOf s p = Ok (nth (Z.to_nat k) (nth (Z.to_nat s) set []) false).
Proof.
  intros Hk Hr Hs. unfold StartOf. rewrite Hk. simpl.
  destruct (Z.leb_spec 0 s); [|lia]. destruct (Z.ltb_spec s 2); [|lia].
  destruct (Z.leb_spec 0 k); [|lia]. destruct (Z.ltb_spec k 15); [|lia].
  reflexivity.
Qed.

Lemma WeakSeparator_sync_defined (syFol repFol : Z) (p : Parser) (k : Z) :
  la_kind p = Ok k -> 0 <= k < 15 -> 0 <= syFol < 2 -> 0 <= repFol < 2 ->
  exists b, WeakSeparator_sync syFol repFol p = Ok b /\ (k = 0 -> b = true).
Proof.
  intros Hk Hr Hs Hrp. unfold WeakSeparator_sync.
  rewrite (StartOf_defined _ _ _ Hk Hr Hs), (StartOf_defined _ _ _ Hk Hr Hrp),
    (StartOf_defined 0 p k Hk Hr ltac:(lia)).
  generalize (nth (Z.to_nat k) (nth (Z.to_nat syFol) set []) false) as b1.
  generalize (nth (Z.to_nat k) (nth (Z.to_nat repFol) set []) false) as b2.
  intros b2 b1. unfold bind.
  destruct b1; [eexists; split; [reflexivity|auto]|].
  destruct b2; [eexists; split; [reflexivity|auto]|].
  eexists. split; [reflexivity|]. intros ->. reflexivity.
Qed.

Lemma next_terminal_nonneg (bp : Z) (l : list Token) :
  Forall (fun tok => 0 <= Token.kind tok) l ->
  0 <= Token.kind (fst (next_terminal bp l)) /\
  Forall (fun tok => 0 <= Token.kind tok) (Scanner.pending (snd (next_terminal bp l))).
Proof.
  revert bp. induction l as [|tok rest IH]; intros bp H; simpl.
  - split; [lia|constructor].
  - inversion H as [|? ? H1 H2]; subst.
    destruct (Token.kind tok <=? maxT); simpl; [auto|apply IH; exact H2].
Qed.

Lemma WeakSeparator_skip_S (n : nat) (syFol repFol : Z) (p : Parser) :
  WeakSeparator_skip (S n) syFol repFol p =
  (b <- WeakSeparator_sync syFol repFol p ;;
   if negb b then
     p <- Get n p ;; WeakSeparator_skip n syFol repFol p
   else Ok p).
Proof. reflexivity. Qed.

Lemma WeakSeparator_skip_total (syFol repFol : Z) (m : nat) : forall p k,
  (List.length (Scanner.pending (scanner p)) <= m)%nat ->
  ready p -> la_kind p = Ok k -> 0 <= k < 15 ->
  Forall (fun tok => 0 <= Token.kind tok) (Scanner.pending (scanner p)) ->
  0 <= syFol < 2 -> 0 <= repFol < 2 ->
  exists p',
    converges (fun n => WeakSeparator_skip n syFol repFol p) p' /\
    ready p' /\ WeakSeparator_sync syFol repFol p' = Ok true /\
    (exists k', la_kind p' = Ok k' /\ 0 <= k' < 15) /\
    extends p p' /\ errors p' = errors p.
Proof.
  induction m as [m IH] using lt_wf_ind.
  intros p k Hm Hr Hk Hkr Hnn Hs Hrp.
  destruct (WeakSeparator_sync_defined _ _ _ _ Hk Hkr Hs Hrp) as (b & Hb & Hb0).
  destruct b.
  - exists p. split; [|split; [exact Hr|split; [exact Hb|split; [eauto|split]]]].
    + conv_unfold WeakSeparator_skip_S. conv_rewrite Hb. apply converges_ret.
    + apply extends_refl.
    + reflexivity.
  - destruct (Get_ready Hr) as (p1 & Hc1 & Hr1 & Hla1 & Hsc1 & _ & He1 & _ & _).
    destruct (next_terminal_nonneg (Scanner.bufPos (scanner p)) _ Hnn) as [Hk1 Hnn1].
    pose proof (next_terminal_kind (Scanner.bufPos (scanner p))
                  (Scanner.pending (scanner p))) as Hk1'.
    assert (Hlk1 : la_kind p1 = Ok (Token.kind (fst (next_terminal
                     (Scanner.bufPos (scanner p)) (Scanner.pending (scanner p))))))
      by (unfold la_kind; rewrite Hla1; reflexivity).
    rewrite <- Hsc1 in Hnn1.
    assert (Hgo : exists p',
      converges (fun n => WeakSeparator_skip n syFol repFol p1) p' /\
      ready p' /\ WeakSeparator_sync syFol repFol p' = Ok true /\
      (exists k', la_kind p' = Ok k' /\ 0 <= k' < 15) /\
      extends p1 p' /\ errors p' = errors p1).
    { destruct (Scanner.pending (scanner p)) as [|tok rest] eqn:El.
      - (* the scanner is at the end: the lookahead is now the end-marker *)
        simpl in Hlk1.
        destruct (WeakSeparator_sync_defined syFol repFol p1 0 Hlk1) as (b1 & Hb1 & Hb1');
          [lia|exact Hs|exact Hrp|].
        rewrite (Hb1' eq_refl) in Hb1.
        exists p1. split; [|split; [exact Hr1|split; [exact Hb1|split; [|split]]]].
        + conv_unfold WeakSeparator_skip_S.
          conv_rewrite Hb1. apply converges_ret.
        + exists 0. split; [exact Hlk1|lia].
        + apply extends_refl.
        + reflexivity.
      - eapply (IH (List.length (Scanner.pending (scanner p1)))); try eassumption.
        + rewrite Hsc1.
          pose proof (@next_terminal_consumes (Scanner.bufPos (scanner p)) (tok :: rest)
                        ltac:(discriminate)). lia.
        + lia.
        + unfold maxT in Hk1'. lia. }
    destruct Hgo as (p' & Hc & Hr' & Hsync & Hk' & Hx & He).
    exists p'. split; [|split; [exact Hr'|split; [exact Hsync|split; [exact Hk'|split]]]].
    + conv_unfold WeakSeparator_skip_S. conv_rewrite Hb.
      conv_bind Hc1. exact Hc.
    + eapply extends_trans; [apply extends_same; exact He1|exact Hx].
    + congruence.
Qed.

End Proofs.

(* ================================================================== *)
(** * Further properties of the parser: lemmas *)

Ltac conv_unfold E := eapply converges_step; [intro; apply E|].
Ltac conv_rewrite H :=
  eapply converges_ext; [intro; rewrite H; simpl; reflexivity|].
Ltac conv_bind H := eapply converges_bind; [exact H|]; simpl.

Section Further.

Context {hdr : ParserHeader}.

(** ** Tokens that are not of the grammar between the terminals *)

Lemma next_kind_terminals (L : list Token) :
  next_kind (terminals L) = next_kind L.
Proof.
  induction L as [|tok L IH]; [reflexivity|].
  unfold terminals in *. simpl. destruct (Token.kind tok <=? maxT) eqn:E.
  - rewrite !next_kind_terminal by (apply Z.leb_le; exact E). reflexivity.
  - rewrite IH. unfold next_kind. simpl. rewrite E.
    apply next_terminal_kind_bp.
Qed.

Lemma before_la_kind (p : Parser) (l : list Token) :
  before p l -> la_kind p = Ok (next_kind l).
Proof.
  intros (L & Hat & <-). rewrite next_kind_terminals.
  apply at_input_la_kind. exact Hat.
Qed.

Lemma at_input_before (p : Parser) (L : list Token) :
  at_input p L -> before p (terminals L).
Proof. intro H. exists L. auto. Qed.

Lemma terminals_In (tok : Token) (l L : list Token) :
  terminals L = tok :: l -> Token.kind tok <= maxT.
Proof.
  intro H. assert (Hin : In tok (terminals L)) by (rewrite H; left; reflexivity).
  unfold terminals in Hin. apply filter_In in Hin. apply Z.leb_le, Hin.
Qed.

Lemma at_input_first (p : Parser) (L : list Token) : forall tok l,
  at_input p L -> terminals L = tok :: l ->
  exists L1, at_input p (tok :: L1) /\ terminals L1 = l.
Proof.
  induction L as [|tk L IH]; intros tok l Hat Ht; [discriminate|].
  unfold terminals in Ht. simpl in Ht.
  destruct (Token.kind tk <=? maxT) eqn:E.
  - injection Ht as -> Ht. exists L. auto.
  - apply IH; [|exact Ht].
    destruct Hat as (bp & Hla & Hsc). simpl in Hla, Hsc. rewrite E in Hla, Hsc.
    eexists. eauto.
Qed.

Lemma before_kind (p : Parser) (tok : Token) (l : list Token) :
  before p (tok :: l) -> la_kind p = Ok (Token.kind tok).
Proof.
  intro H. rewrite (before_la_kind p _ H).
  destruct H as (L & _ & Ht).
  rewrite next_kind_terminal; [reflexivity|]. eapply terminals_In; exact Ht.
Qed.

Lemma dist_after_add (a b : nat) (d : Z) :
  dist_after (a + b) d = dist_after b (dist_after a d).
Proof.
  unfold dist_after. rewrite Nat.add_comm. apply Nat.iter_add.
Qed.

Lemma dist_after_range (k : nat) (d : Z) :
  INT_MIN <= d -> d + Z.of_nat k <= INT_MAX -> dist_after k d = d + Z.of_nat k.
Proof.
  induction k as [|k IH]; intros Hlo Hhi.
  - simpl. lia.
  - unfold dist_after in *. simpl. rewrite IH by lia.
    rewrite wrap32_id by (unfold INT_MIN, INT_MAX in *; lia). lia.
Qed.

Lemma last_cons_default {A : Type} (l : list A) : forall (x d d' : A),
  last (x :: l) d = last (x :: l) d'.
Proof.
  induction l as [|y l IH]; intros x d d'; [reflexivity|].
  change (last (y :: l) d = last (y :: l) d'). apply IH.
Qed.

Lemma last_app_default {A : Type} (a b : list A) (d : A) :
  last (a ++ b) d = last b (last a d).
Proof.
  revert d. induction a as [|x a IH]; intro d; [reflexivity|].
  destruct a as [|y a].
  - destruct b as [|z b]; [reflexivity|].
    change (last (z :: b) d = last (z :: b) x). apply last_cons_default.
  - change (last ((y :: a) ++ b) d = last b (last (y :: a) d)). apply IH.
Qed.

Lemma consumed_refl (p : Parser) (rest : list Token) :
  ready p -> before p rest -> consumed [] p p rest.
Proof. intros; unfold consumed; simpl; auto 10. Qed.

Lemma consumed_trans (a b : list Token) (p p1 p2 : Parser) (r1 r2 : list Token) :
  consumed a p p1 r1 -> consumed b p1 p2 r2 -> consumed (a ++ b) p p2 r2.
Proof.
  intros (_ & _ & He & Hv & Hd & Ht) (Hr & Hat & He' & Hv' & Hd' & Ht').
  unfold consumed. rewrite He', Hv', Hd', Hd, length_app, dist_after_add.
  repeat (split; [assumption || reflexivity|]).
  intros tk0 H0. rewrite last_app_default. auto.
Qed.

Lemma consumed_cons (x : Token) (b : list Token) (p p1 p2 : Parser)
      (r1 r2 : list Token) :
  consumed [x] p p1 r1 -> consumed b p1 p2 r2 -> consumed (x :: b) p p2 r2.
Proof. apply (consumed_trans [x] b). Qed.

Lemma Get_before (p : Parser) (tok : Token) (l : list Token) :
  ready p -> before p (tok :: l) ->
  exists p',
    converges (fun n => Get n p) p' /\ consumed [tok] p p' l /\
    deref p' (t p') = Ok tok.
Proof.
  intros Hr (L & Hat & Ht).
  pose proof (terminals_In _ _ _ Ht) as Hk.
  destruct (at_input_first p L tok l Hat Ht) as (L1 & Hat1 & Hl1).
  destruct (Get_at_input Hr Hat1 Hk)
    as (p' & Hc & Hr' & Hat' & He & Hv & Hd & Hdt).
  exists p'. split; [exact Hc|]. split; [|exact Hdt].
  unfold consumed. split; [exact Hr'|]. split; [exists L1; auto|].
  repeat (split; [assumption|]). intros tk0 _. exact Hdt.
Qed.

Lemma Expect_before (p : Parser) (tok : Token) (l : list Token) :
  ready p -> before p (tok :: l) ->
  exists p',
    converges (fun n => Expect n (Token.kind tok) p) p' /\
    consumed [tok] p p' l /\
    deref p' (t p') = Ok tok.
Proof.
  intros Hr Hb.
  destruct (Get_before p tok l Hr Hb) as (p' & Hc & H).
  exists p'. split; [|exact H].
  eapply converges_ext; [|exact Hc].
  intro n. unfold Expect. rewrite (before_kind p tok l Hb). simpl.
  rewrite Z.eqb_refl. reflexivity.
Qed.

(** A phrase of the grammar is parsed to its value with one call of [Get]
    per terminal and no call of [SynErr], whatever tokens of other kinds
    stand between its terminals. *)
Lemma phrase_consumed :
  (forall e p rest v0,
      ready p -> before p (tokens_of_expr e ++ rest) -> stop_expr rest ->
      exists p', converges (fun n => Expr n v0 p) (eval_expr e, p') /\
                 consumed (tokens_of_expr e) p p' rest) /\
  (forall tl p rest acc v2,
      ready p -> before p (tokens_of_expr_tail tl ++ rest) -> stop_expr rest ->
      exists p', converges (fun n => Expr_loop n acc v2 p) (eval_expr_tail acc tl, p') /\
                 consumed (tokens_of_expr_tail tl) p p' rest) /\
  (forall tm p rest v0,
      ready p -> before p (tokens_of_term tm ++ rest) -> stop_term rest ->
      exists p', converges (fun n => Term n v0 p) (eval_term tm, p') /\
                 consumed (tokens_of_term tm) p p' rest) /\
  (forall tl p rest acc v2,
      ready p -> before p (tokens_of_term_tail tl ++ rest) -> stop_term rest ->
      exists p', converges (fun n => Term_loop n acc v2 p) (eval_term_tail acc tl, p') /\
                 consumed (tokens_of_term_tail tl) p p' rest) /\
  (forall f p rest v0,
      ready p -> before p (tokens_of_factor f ++ rest) ->
      exists p', converges (fun n => Factor n v0 p) (eval_factor f, p') /\
                 consumed (tokens_of_factor f) p p' rest).
Proof.
  apply phrase_ind.
  - (* Term tail *)
    intros tm IHtm tl IHtl p rest v0 Hr Hat Hs. simpl in Hat.
    rewrite <- app_assoc in Hat.
    destruct (IHtm p _ v0 Hr Hat (stop_term_expr_tail tl Hs)) as (p1 & Hc1 & Hp1).
    destruct (IHtl p1 rest (eval_term tm) 0%float) as (p2 & Hc2 & Hp2);
      [apply Hp1|apply Hp1|exact Hs|].
    exists p2. split; [|eapply consumed_trans; eassumption].
    conv_unfold Expr_S. simpl.
    eapply converges_bind; [exact Hc1|exact Hc2].
  - (* no further clause *)
    intros p rest acc v2 Hr Hat (H7 & H8 & _). simpl in Hat.
    exists p. split; [|apply consumed_refl; assumption].
    conv_unfold Expr_loop_S. conv_rewrite (before_la_kind p _ Hat).
    apply Z.eqb_neq in H7, H8. rewrite H7, H8. simpl. apply converges_ret.
  - (* + Term *)
    intros op tm IHtm tl IHtl p rest acc v2 Hr Hat Hs. simpl in Hat.
    rewrite <- app_assoc in Hat.
    destruct (Get_before p _ _ Hr Hat) as (p1 & Hc1 & Hp1 & _).
    destruct (IHtm p1 _ v2 (proj1 Hp1) (proj1 (proj2 Hp1))
                   (stop_term_expr_tail tl Hs)) as (p2 & Hc2 & Hp2).
    destruct (IHtl p2 rest (acc + eval_term tm)%float (eval_term tm))
      as (p3 & Hc3 & Hp3); [apply Hp2|apply Hp2|exact Hs|].
    exists p3. split.
    + conv_unfold Expr_loop_S.
      conv_rewrite (before_kind p _ _ Hat).
      conv_bind Hc1. conv_bind Hc2. exact Hc3.
    + simpl. eapply consumed_cons; [exact Hp1|].
      eapply consumed_trans; eassumption.
  - (* - Term *)
    intros op tm IHtm tl IHtl p rest acc v2 Hr Hat Hs. simpl in Hat.
    rewrite <- app_assoc in Hat.
    destruct (Get_before p _ _ Hr Hat) as (p1 & Hc1 & Hp1 & _).
    destruct (IHtm p1 _ v2 (proj1 Hp1) (proj1 (proj2 Hp1))
                   (stop_term_expr_tail tl Hs)) as (p2 & Hc2 & Hp2).
    destruct (IHtl p2 rest (acc - eval_term tm)%float (eval_term tm))
      as (p3 & Hc3 & Hp3); [apply Hp2|apply Hp2|exact Hs|].
    exists p3. split.
    + conv_unfold Expr_loop_S.
      conv_rewrite (before_kind p _ _ Hat).
      conv_bind Hc1. conv_bind Hc2. exact Hc3.
    + simpl. eapply consumed_cons; [exact Hp1|].
      eapply consumed_trans; eassumption.
  - (* Factor tail *)
    intros f IHf tl IHtl p rest v0 Hr Hat Hs. simpl in Hat.
    rewrite <- app_assoc in Hat.
    destruct (IHf p _ v0 Hr Hat) as (p1 & Hc1 & Hp1).
    destruct (IHtl p1 rest (eval_factor f) 0%float) as (p2 & Hc2 & Hp2);
      [apply Hp1|apply Hp1|exact Hs|].
    exists p2. split; [|eapply consumed_trans; eassumption].
    conv_unfold Term_S. simpl.
    eapply converges_bind; [exact Hc1|exact Hc2].
  - (* no further clause *)
    intros p rest acc v2 Hr Hat (H9 & H10). simpl in Hat.
    exists p. split; [|apply consumed_refl; assumption].
    conv_unfold Term_loop_S. conv_rewrite (before_la_kind p _ Hat).
    apply Z.eqb_neq in H9, H10. rewrite H9, H10. simpl. apply converges_ret.
  - (* * Factor *)
    intros op f IHf tl IHtl p rest acc v2 Hr Hat Hs. simpl in Hat.
    rewrite <- app_assoc in Hat.
    destruct (Get_before p _ _ Hr Hat) as (p1 & Hc1 & Hp1 & _).
    destruct (IHf p1 _ v2 (proj1 Hp1) (proj1 (proj2 Hp1))) as (p2 & Hc2 & Hp2).
    destruct (IHtl p2 rest (acc * eval_factor f)%float (eval_factor f))
      as (p3 & Hc3 & Hp3); [apply Hp2|apply Hp2|exact Hs|].
    exists p3. split.
    + conv_unfold Term_loop_S.
      conv_rewrite (before_kind p _ _ Hat).
      conv_bind Hc1. conv_bind Hc2. exact Hc3.
    + simpl. eapply consumed_cons; [exact Hp1|].
      eapply consumed_trans; eassumption.
  - (* / Factor *)
    intros op f IHf tl IHtl p rest acc v2 Hr Hat Hs. simpl in Hat.
    rewrite <- app_assoc in Hat.
    destruct (Get_before p _ _ Hr Hat) as (p1 & Hc1 & Hp1 & _).
    destruct (IHf p1 _ v2 (proj1 Hp1) (proj1 (proj2 Hp1))) as (p2 & Hc2 & Hp2).
    destruct (IHtl p2 rest (acc / eval_factor f)%float (eval_factor f))
      as (p3 & Hc3 & Hp3); [apply Hp2|apply Hp2|exact Hs|].
    exists p3. split.
    + conv_unfold Term_loop_S.
      conv_rewrite (before_kind p _ _ Hat).
      conv_bind Hc1. conv_bind Hc2. exact Hc3.
    + simpl. eapply consumed_cons; [exact Hp1|].
      eapply consumed_trans; eassumption.
  - (* variable *)
    intros x p rest v0 Hr Hat. simpl in Hat.
    destruct (Get_before p _ _ Hr Hat) as (p1 & Hc1 & Hp1 & Ht).
    exists p1. split; [|exact Hp1].
    conv_unfold Factor_S.
    conv_rewrite (before_kind p _ _ Hat).
    conv_bind Hc1.
    unfold getDictLookup. conv_rewrite Ht. apply converges_ret.
  - (* number *)
    intros x p rest v0 Hr Hat. simpl in Hat.
    destruct (Get_before p _ _ Hr Hat) as (p1 & Hc1 & Hp1 & Ht).
    exists p1. split; [|exact Hp1].
    conv_unfold Factor_S.
    conv_rewrite (before_kind p _ _ Hat).
    conv_bind Hc1.
    unfold getScalar. conv_rewrite Ht. apply converges_ret.
  - (* - ( Expr ) *)
    intros minus lpar e IHe rpar p rest v0 Hr Hat. simpl in Hat.
    rewrite <- app_assoc in Hat. simpl in Hat.
    destruct (Get_before p _ _ Hr Hat) as (p1 & Hc1 & Hp1 & _).
    destruct (Expect_before p1 _ _ (proj1 Hp1) (proj1 (proj2 Hp1)))
      as (p2 & Hc2 & Hp2 & _).
    destruct (IHe p2 (terminal 12 rpar :: rest) v0) as (p3 & Hc3 & Hp3);
      [apply Hp2|apply Hp2| |].
    { unfold stop_expr, stop_term.
      rewrite next_kind_terminal by (simpl; unfold maxT; lia). simpl. lia. }
    destruct (Expect_before p3 _ _ (proj1 Hp3) (proj1 (proj2 Hp3)))
      as (p4 & Hc4 & Hp4 & _).
    exists p4. split.
    + conv_unfold Factor_S.
      conv_rewrite (before_kind p _ _ Hat).
      conv_bind Hc1. conv_bind Hc2. conv_bind Hc3. conv_bind Hc4.
      apply converges_ret.
    + simpl. eapply consumed_cons; [exact Hp1|].
      eapply consumed_cons; [exact Hp2|].
      eapply consumed_trans; eassumption.
  - (* ( Expr ) *)
    intros lpar e IHe rpar p rest v0 Hr Hat. simpl in Hat.
    rewrite <- app_assoc in Hat. simpl in Hat.
    destruct (Get_before p _ _ Hr Hat) as (p1 & Hc1 & Hp1 & _).
    destruct (IHe p1 (terminal 12 rpar :: rest) v0) as (p3 & Hc3 & Hp3);
      [apply Hp1|apply Hp1| |].
    { unfold stop_expr, stop_term.
      rewrite next_kind_terminal by (simpl; unfold maxT; lia). simpl. lia. }
    destruct (Expect_before p3 _ _ (proj1 Hp3) (proj1 (proj2 Hp3)))
      as (p4 & Hc4 & Hp4 & _).
    exists p4. split.
    + conv_unfold Factor_S.
      conv_rewrite (before_kind p _ _ Hat).
      conv_bind Hc1. conv_bind Hc3. conv_bind Hc4.
      apply converges_ret.
    + simpl. eapply consumed_cons; [exact Hp1|].
      eapply consumed_trans; eassumption.
Qed.

(** ** Parse on inputs in and out of the grammar *)

Lemma before_la (p : Parser) (tok : Token) (l : list Token) :
  before p (tok :: l) -> la p = ScannedPtr tok.
Proof.
  intros (L & Hat & Ht).
  pose proof (terminals_In _ _ _ Ht) as Hk.
  destruct (at_input_first p L tok l Hat Ht) as (L1 & Hat1 & _).
  apply (at_input_terminal Hat1 Hk).
Qed.

(** The first [Get] of [Parse]. *)
Lemma Parse_start (p : Parser) :
  exists p1 tk0,
    converges
      (fun n => Get n (with_dummyToken (Some (Token.with_val "Dummy Token" Token.new))
                         (with_la DummyPtr
                            (with_dummyToken (Some Token.new) (with_t Null p))))) p1 /\
    ready p1 /\ before p1 (terminals (Scanner.pending (scanner p))) /\
    errors p1 = errors p /\ errDist p1 = dist_after 1 (errDist p) /\
    deref p1 (t p1) = Ok tk0.
Proof.
  destruct (Parse_first_Get p) as (p1 & Hc & Hr & Hat & He & _ & Hd & _ & Ht).
  destruct (deref_ready Hr Ht) as (tk0 & Htk).
  exists p1, tk0. split; [exact Hc|]. split; [exact Hr|].
  split; [apply at_input_before; exact Hat|]. auto.
Qed.

(** [Expect] on a lookahead of another kind. *)
Lemma Expect_mismatch (p : Parser) (n : Z) (tk : Token) :
  deref p (la p) = Ok tk -> Token.kind tk <> n ->
  forall fuel,
    Expect fuel n p =
    Ok (with_errDist 0
          (if minErrDist <=? errDist p
           then with_errors
                  (Errors.SynErr (Token.line tk) (Token.col tk) n (errors p)) p
           else p)).
Proof.
  intros Hla Hk fuel. unfold Expect, la_kind. rewrite Hla. simpl.
  apply Z.eqb_neq in Hk. rewrite Hk. apply SynErr_eq. exact Hla.
Qed.

Lemma stop_expr_kind (rest : list Token) (k : Z) :
  next_kind rest = k -> ~ In k [7; 8; 9; 10] -> stop_expr rest.
Proof.
  intros E H. unfold stop_expr, stop_term. rewrite E. simpl in H. intuition.
Qed.

(** The bare branch of [calcEntry] up to its [Expect(0)]. *)
Lemma calcEntry_bare_consumed (e : expr) (rest : list Token) (p : Parser) :
  ready p -> before p (tokens_of_expr e ++ rest) -> stop_expr rest ->
  exists p1,
    consumed (tokens_of_expr e) (with_val 0%float p) p1 rest /\
    forall p',
      converges (fun n => Expect n 0 (with_val (eval_expr e) p1)) p' ->
      converges (fun n => calcEntry n p) p'.
Proof.
  intros Hr Hat Hs.
  assert (Hin : In (next_kind (tokens_of_expr e ++ rest)) [3; 4; 8; 11])
    by apply next_kind_expr.
  pose proof (before_la_kind (with_val 0%float p) _ Hat) as Hk.
  destruct phrase_consumed as (HE & _).
  destruct (HE e (with_val 0%float p) rest 0%float Hr Hat Hs) as (p1 & Hc1 & Hp1).
  exists p1. split; [exact Hp1|]. intros p' Hc2.
  eapply converges_ext; [intro; apply calcEntry_eq|].
  conv_rewrite Hk.
  assert (H5 : (next_kind (tokens_of_expr e ++ rest) =? 5) = false).
  { apply Z.eqb_neq. intro E. rewrite E in Hin. simpl in Hin.
    destruct Hin as [H|[H|[H|[H|[]]]]]; discriminate. }
  conv_rewrite H5.
  conv_rewrite (StartOf_1_true _ Hk Hin).
  conv_bind Hc1. exact Hc2.
Qed.

(** The braced branch of [calcEntry] up to its [Expect(6)]. *)
Lemma calcEntry_braced_consumed (lb : Lexeme) (e : expr) (rest : list Token)
      (p : Parser) :
  ready p -> before p (terminal 5 lb :: tokens_of_expr e ++ rest) ->
  stop_expr rest ->
  exists p1,
    consumed (terminal 5 lb :: tokens_of_expr e) (with_val 0%float p) p1 rest /\
    forall p2 tk,
      converges (fun n => Expect n 6 (with_val (eval_expr e) p1)) p2 ->
      deref p2 (t p2) = Ok tk ->
      converges (fun n => calcEntry n p)
        (with_scanner
           (Scanner.SetPos
              (wrap32 (Token.pos tk + coco_string_length (Token.val tk)))
              (scanner p2)) p2).
Proof.
  intros Hr Hat Hs.
  pose proof (before_kind (with_val 0%float p) _ _ Hat) as Hk.
  destruct (Get_before (with_val 0%float p) _ _ Hr Hat) as (p0 & Hc0 & Hp0 & _).
  destruct phrase_consumed as (HE & _).
  destruct (HE e p0 rest (val p0) (proj1 Hp0) (proj1 (proj2 Hp0)) Hs)
    as (p1 & Hc1 & Hp1).
  exists p1. split; [eapply consumed_cons; eassumption|].
  intros p2 tk Hc2 Htk.
  eapply converges_ext; [intro; apply calcEntry_eq|].
  conv_rewrite Hk.
  conv_bind Hc0. conv_bind Hc1. conv_bind Hc2.
  conv_rewrite Htk. apply converges_ret.
Qed.

Lemma after_SynErr_at_reported (n : Z) (tk : Token) (p : Parser) :
  minErrDist <= errDist p ->
  errors (after_SynErr_at n tk p) =
  Errors.SynErr (Token.line tk) (Token.col tk) n (errors p).
Proof.
  intro H. unfold after_SynErr_at. apply Z.leb_le in H. rewrite H. reflexivity.
Qed.

Lemma after_SynErr_at_frame (n : Z) (tk : Token) (p : Parser) :
  la (after_SynErr_at n tk p) = la p /\
  t (after_SynErr_at n tk p) = t p /\
  scanner (after_SynErr_at n tk p) = scanner p /\
  dummyToken (after_SynErr_at n tk p) = dummyToken p /\
  val (after_SynErr_at n tk p) = val p /\
  errDist (after_SynErr_at n tk p) = 0.
Proof.
  unfold after_SynErr_at. destruct (minErrDist <=? errDist p); simpl; auto 10.
Qed.

Lemma ready_ext (p q : Parser) :
  la q = la p -> dummyToken q = dummyToken p -> ready p -> ready q.
Proof.
  intros Hla Hd [[tk H] Hn]. split.
  - exists tk. rewrite Hla, <- H. apply deref_ext. exact Hd.
  - rewrite Hd. exact Hn.
Qed.

Lemma before_ext (p q : Parser) (l : list Token) :
  la q = la p -> scanner q = scanner p -> before p l -> before q l.
Proof.
  intros Hla Hsc (L & (bp & H1 & H2) & Ht).
  exists L. split; [|exact Ht]. exists bp. rewrite Hla, Hsc. auto.
Qed.

Lemma Term_loop_stops (p : Parser) (k : Z) (v v2 : float) :
  la_kind p = Ok k -> k <> 9 -> k <> 10 ->
  converges (fun n => Term_loop n v v2 p) (v, p).
Proof.
  intros Hk H9 H10. conv_unfold Term_loop_S. conv_rewrite Hk.
  apply Z.eqb_neq in H9, H10. rewrite H9, H10. apply converges_ret.
Qed.

Lemma Expr_loop_stops (p : Parser) (k : Z) (v v2 : float) :
  la_kind p = Ok k -> k <> 7 -> k <> 8 ->
  converges (fun n => Expr_loop n v v2 p) (v, p).
Proof.
  intros Hk H7 H8. conv_unfold Expr_loop_S. conv_rewrite Hk.
  apply Z.eqb_neq in H7, H8. rewrite H7, H8. apply converges_ret.
Qed.

(** A result of [Factor] before a token that continues neither [Term]
    nor [Expr] is the result of [Term] and of [Expr]. *)
Lemma Term_of_Factor_stops (p p' : Parser) (v v' : float) (k : Z) :
  converges (fun n => Factor n v p) (v', p') ->
  la_kind p' = Ok k -> k <> 9 -> k <> 10 ->
  converges (fun n => Term n v p) (v', p').
Proof.
  intros Hc Hk H9 H10. conv_unfold Term_S. conv_bind Hc.
  apply (Term_loop_stops p' k); assumption.
Qed.

Lemma Expr_of_Factor_stops (p p' : Parser) (v v' : float) (k : Z) :
  converges (fun n => Factor n v p) (v', p') ->
  la_kind p' = Ok k -> ~ In k [7; 8; 9; 10] ->
  converges (fun n => Expr n v p) (v', p').
Proof.
  intros Hc Hk Hn. simpl in Hn.
  conv_unfold Expr_S.
  eapply converges_bind with (a := (v', p')).
  - apply (Term_of_Factor_stops p p' v v' k); intuition.
  - simpl. apply (Expr_loop_stops p' k); intuition.
Qed.

(** [Factor] before a token that starts no factor: one call of
    [SynErr(15)], nothing consumed, and the argument handed back as it
    came. *)
Lemma Factor_invalid (p : Parser) (tk : Token) (v : float) :
  deref p (la p) = Ok tk -> ~ In (Token.kind tk) [3; 4; 8; 11] ->
  converges (fun n => Factor n v p) (v, after_SynErr_at 15 tk p).
Proof.
  intros Hla Hn. simpl in Hn.
  conv_unfold Factor_S. unfold la_kind. conv_rewrite Hla.
  destruct (Z.eqb_spec (Token.kind tk) 3) as [E|_];
    [exfalso; apply Hn; rewrite E; auto 6|].
  destruct (Z.eqb_spec (Token.kind tk) 4) as [E|_];
    [exfalso; apply Hn; rewrite E; auto 6|].
  destruct (Z.eqb_spec (Token.kind tk) 8) as [E|_];
    [exfalso; apply Hn; rewrite E; auto 6|].
  destruct (Z.eqb_spec (Token.kind tk) 11) as [E|_];
    [exfalso; apply Hn; rewrite E; auto 6|].
  conv_rewrite (SynErr_eq 15 p Hla). apply converges_ret.
Qed.

(** [Expect(0)] at the end of the input. *)
Lemma Expect_end (p : Parser) :
  ready p -> before p [] ->
  exists p',
    converges (fun n => Expect n 0 p) p' /\
    errors p' = errors p /\ val p' = val p /\
    errDist p' = dist_after 1 (errDist p).
Proof.
  intros Hr Hb.
  destruct (Get_ready Hr) as (p' & Hc & _ & _ & _ & Hd & He & Hv & _).
  exists p'. split; [|auto].
  eapply converges_ext; [|exact Hc]. intro n. unfold Expect.
  rewrite (before_la_kind p _ Hb). reflexivity.
Qed.





Lemma terminals_le (tok : Token) (L : list Token) :
  In tok (terminals L) -> Token.kind tok <= maxT.
Proof. intro H. apply filter_In in H. apply Z.leb_le, H. Qed.


Lemma deref_after_SynErr_at (n : Z) (tk : Token) (p : Parser) (ptr : TokenPtr) :
  deref (after_SynErr_at n tk p) ptr = deref p ptr.
Proof. apply deref_ext. apply after_SynErr_at_frame. Qed.

Lemma ready_after_SynErr_at (n : Z) (tk : Token) (p : Parser) :
  ready p -> ready (after_SynErr_at n tk p).
Proof. apply ready_ext; apply after_SynErr_at_frame. Qed.

Lemma before_after_SynErr_at (n : Z) (tk : Token) (p : Parser) (l : list Token) :
  before p l -> before (after_SynErr_at n tk p) l.
Proof. apply before_ext; apply after_SynErr_at_frame. Qed.

Lemma la_kind_after_SynErr_at (n : Z) (tk : Token) (p : Parser) :
  la_kind (after_SynErr_at n tk p) = la_kind p.
Proof.
  unfold la_kind. rewrite deref_after_SynErr_at.
  destruct (after_SynErr_at_frame n tk p) as (-> & _). reflexivity.
Qed.

(** ** What no procedure of the parser does *)

Lemma framed_refl (p : Parser) : framed p p.
Proof. split; [reflexivity|apply extends_refl]. Qed.

Lemma framed_trans (p p1 p2 : Parser) :
  framed p p1 -> framed p1 p2 -> framed p p2.
Proof.
  intros (Hd1 & He1) (Hd2 & He2).
  split; [congruence|eapply extends_trans; eassumption].
Qed.

Lemma step_framed (p p' : Parser) (ev : option Event) :
  step p ev p' -> framed p p'.
Proof.
  intro H. inversion H as [fuel q q' H3|n q q' H3|msg q q' H3| | |]; subst.
  - apply Get_returns in H3. destruct H3 as (_ & _ & _ & He & _ & Hd).
    split; [exact Hd|apply extends_same; exact He].
  - unfold SynErr in H3. destruct (minErrDist <=? errDist p).
    + destruct (deref p (la p)) as [tk| |]; try discriminate.
      injection H3 as <-. split; [reflexivity|eexists; reflexivity].
    + injection H3 as <-. split; [reflexivity|apply extends_same; reflexivity].
  - unfold SemErr in H3. destruct (minErrDist <=? errDist p).
    + destruct (deref p (t p)) as [tk| |]; try discriminate.
      injection H3 as <-. split; [reflexivity|eexists; reflexivity].
    + injection H3 as <-. split; [reflexivity|apply extends_same; reflexivity].
  - split; [reflexivity|apply extends_same; reflexivity].
  - split; [reflexivity|apply extends_same; reflexivity].
  - split; [reflexivity|apply extends_same; reflexivity].
Qed.

Lemma run_framed (p p' : Parser) (tr : list Event) :
  run p tr p' -> framed p p'.
Proof.
  induction 1 as [p|p ev p1 tr p2 Hs _ IH|p p1 tr p2 Hs _ IH].
  - apply framed_refl.
  - eapply framed_trans; [eapply step_framed; exact Hs|exact IH].
  - eapply framed_trans; [eapply step_framed; exact Hs|exact IH].
Qed.

(** ** Parse before a token that starts no calc-entry *)

Lemma Parse_no_alternative (p : Parser) (tok : Token) (rest : list Token) :
  Scanner.pending (scanner p) = tok :: rest ->
  0 <= Token.kind tok <= maxT ->
  ~ In (Token.kind tok) [3; 4; 5; 8; 11] ->
  exists p1,
    converges (fun n => Parse n p) (after_SynErr_at 14 tok (with_val 0%float p1)) /\
    Scanner.pending (scanner p1) = rest /\
    errDist p1 = wrap32 (errDist p + 1) /\
    errors p1 = errors p.
Proof.
  intros Hp Hk Hn.
  destruct (Parse_first_Get p) as (p1 & Hc1 & Hr1 & Hat1 & He1 & _ & Hd1 & _).
  rewrite Hp in Hat1.
  destruct (at_input_terminal Hat1 (proj2 Hk)) as [Hla Hpend].
  exists p1. split; [|auto].
  assert (Hderef : deref (with_val 0%float p1) (la (with_val 0%float p1)) = Ok tok)
    by (simpl; rewrite Hla; reflexivity).
  assert (Hlk : la_kind (with_val 0%float p1) = Ok (Token.kind tok))
    by (unfold la_kind; rewrite Hderef; reflexivity).
  eapply converges_ext; [intro; apply Parse_eq|].
  conv_bind Hc1.
  eapply converges_ext; [intro; apply calcEntry_eq|].
  conv_rewrite Hlk.
  simpl in Hn.
  destruct (Z.eqb_spec (Token.kind tok) 5) as [E|_];
    [exfalso; apply Hn; rewrite E; auto 6|].
  assert (Hs : StartOf 1 (with_val 0%float p1) = Ok false).
  { rewrite (StartOf_defined 1 _ (Token.kind tok) Hlk)
      by (unfold maxT in Hk; lia).
    f_equal. unfold maxT in Hk.
    assert (Hc : In (Token.kind tok) [0; 1; 2; 3; 4; 5; 6; 7; 8; 9; 10; 11; 12; 13])
      by (simpl; lia).
    simpl in Hc.
    repeat (destruct Hc as [E|Hc];
            [try (rewrite <- E; reflexivity);
             exfalso; apply Hn; rewrite <- E; auto 8|]).
    destruct Hc. }
  conv_rewrite Hs.
  conv_rewrite (SynErr_eq 14 (with_val 0%float p1) Hderef).
  apply converges_ret.
Qed.

(** ** An operator without its right operand *)



(** ** ExpectWeak *)

Lemma ExpectWeak_skip_S (n : nat) (follow : Z) (p : Parser) :
  ExpectWeak_skip (S n) follow p =
  (b <- StartOf follow p ;;
   if negb b then p <- Get n p ;; ExpectWeak_skip n follow p else Ok p).
Proof. reflexivity. Qed.

Lemma StartOf_in_set (follow : Z) (p : Parser) (tk : Token) :
  deref p (la p) = Ok tk -> 0 <= follow < 2 ->
  0 <= Token.kind tk < 15 ->
  StartOf follow p = Ok (in_set follow (Token.kind tk)).
Proof.
  intros Hla Hf Hk. apply StartOf_defined; [|exact Hk|exact Hf].
  unfold la_kind. rewrite Hla. reflexivity.
Qed.

Lemma skipped_by_spec (follow : Z) (tok : Token) :
  skipped_by follow tok = true ->
  0 <= Token.kind tok < 15 /\ in_set follow (Token.kind tok) = false.
Proof.
  unfold skipped_by. intro H.
  apply andb_prop in H. destruct H as [H H3].
  apply andb_prop in H. destruct H as [H1 H2].
  apply Z.leb_le in H1. apply Z.ltb_lt in H2. apply negb_true_iff in H3. auto.
Qed.

Lemma stops_at_spec (follow : Z) (tok : Token) :
  stops_at follow tok = true ->
  0 <= Token.kind tok < 15 /\ in_set follow (Token.kind tok) = true.
Proof.
  unfold stops_at. intro H.
  apply andb_prop in H. destruct H as [H H3].
  apply andb_prop in H. destruct H as [H1 H2].
  apply Z.leb_le in H1. apply Z.ltb_lt in H2. auto.
Qed.

(** The first terminal that the scanner holds is the one that [Get]
    makes the lookahead. *)
Lemma next_terminal_terminals (l : list Token) : forall bp x r,
  terminals l = x :: r ->
  fst (next_terminal bp l) = x /\
  terminals (Scanner.pending (snd (next_terminal bp l))) = r.
Proof.
  induction l as [|tok l IH]; intros bp x r H; [discriminate|].
  unfold terminals in H. simpl in H. simpl.
  destruct (Token.kind tok <=? maxT).
  - injection H as -> H. simpl. auto.
  - apply IH. exact H.
Qed.

Lemma next_terminal_end (l : list Token) : forall bp,
  terminals l = [] ->
  Token.kind (fst (next_terminal bp l)) = 0 /\
  Scanner.pending (snd (next_terminal bp l)) = [].
Proof.
  induction l as [|tok l IH]; intros bp H; [simpl; auto|].
  unfold terminals in H. simpl in H. simpl.
  destruct (Token.kind tok <=? maxT); [discriminate|].
  apply IH. exact H.
Qed.

Lemma dist_after_S (k : nat) (d : Z) :
  dist_after (S k) d = dist_after k (wrap32 (d + 1)).
Proof. apply (dist_after_add 1 k d). Qed.

(** The loop of [ExpectWeak] ends at the first token of the follow set,
    with every token before it consumed. *)
Lemma ExpectWeak_skip_to (follow : Z) : forall pre p tk tok post,
  ready p -> deref p (la p) = Ok tk -> 0 <= follow < 2 ->
  tk :: terminals (Scanner.pending (scanner p)) = pre ++ tok :: post ->
  forallb (skipped_by follow) pre = true ->
  stops_at follow tok = true ->
  exists p',
    converges (fun n => ExpectWeak_skip n follow p) p' /\
    ready p' /\
    deref p' (la p') = Ok tok /\
    terminals (Scanner.pending (scanner p')) = post /\
    errors p' = errors p /\
    errDist p' = dist_after (List.length pre) (errDist p).
Proof.
  induction pre as [|x pre IH]; intros p tk tok post Hr Hla Hf Hl Hpre Hstop.
  - simpl in Hl. injection Hl as -> Hl.
    destruct (stops_at_spec _ _ Hstop) as [Hk Hin].
    exists p. split; [|auto 10].
    conv_unfold ExpectWeak_skip_S.
    conv_rewrite (StartOf_in_set follow p tok Hla Hf Hk).
    rewrite Hin. apply converges_ret.
  - simpl in Hl. injection Hl as -> Hl.
    simpl in Hpre. apply andb_prop in Hpre. destruct Hpre as [Hx Hpre].
    destruct (skipped_by_spec _ _ Hx) as [Hk Hin].
    destruct (Get_ready Hr) as (p1 & Hc1 & Hr1 & Hla1 & Hsc1 & Hd1 & He1 & _).
    assert (Hne : exists y r, terminals (Scanner.pending (scanner p)) = y :: r
                              /\ y :: r = pre ++ tok :: post).
    { rewrite Hl. destruct pre; simpl; eauto. }
    destruct Hne as (y & r & Hy & Hyr).
    destruct (next_terminal_terminals _ (Scanner.bufPos (scanner p)) _ _ Hy)
      as [Hfst Hrest].
    rewrite Hfst in Hla1. rewrite <- Hsc1 in Hrest.
    destruct (IH p1 y tok post Hr1) as (p' & Hc & Hr' & Hla' & Hp' & He' & Hd');
      [rewrite Hla1; reflexivity|exact Hf|rewrite Hrest; exact Hyr
      |exact Hpre|exact Hstop|].
    exists p'. split; [|split; [exact Hr'|split; [exact Hla'|split; [exact Hp'|]]]].
    + conv_unfold ExpectWeak_skip_S.
      conv_rewrite (StartOf_in_set follow p x Hla Hf Hk).
      rewrite Hin. simpl. conv_bind Hc1. exact Hc.
    + split; [congruence|].
      rewrite Hd', Hd1. symmetry. apply dist_after_S.
Qed.

(** The same loop when no token of the follow set is left and the set
    holds the end-marker. *)
Lemma ExpectWeak_skip_to_end (follow : Z) : forall pre p tk,
  ready p -> deref p (la p) = Ok tk -> 0 <= follow < 2 ->
  in_set follow 0 = true ->
  tk :: terminals (Scanner.pending (scanner p)) = pre ->
  forallb (skipped_by follow) pre = true ->
  exists p' tk',
    converges (fun n => ExpectWeak_skip n follow p) p' /\
    ready p' /\
    deref p' (la p') = Ok tk' /\ Token.kind tk' = 0 /\
    Scanner.pending (scanner p') = [] /\
    errors p' = errors p /\
    errDist p' = dist_after (List.length pre) (errDist p).
Proof.
  induction pre as [|x pre IH]; intros p tk Hr Hla Hf H0 Hl Hpre; [discriminate|].
  injection Hl as -> Hl.
  simpl in Hpre. apply andb_prop in Hpre. destruct Hpre as [Hx Hpre].
  destruct (skipped_by_spec _ _ Hx) as [Hk Hin].
  destruct (Get_ready Hr) as (p1 & Hc1 & Hr1 & Hla1 & Hsc1 & Hd1 & He1 & _).
  destruct pre as [|y pre].
  - destruct (next_terminal_end _ (Scanner.bufPos (scanner p)) Hl) as [Hk0 Hp0].
    rewrite <- Hsc1 in Hp0.
    exists p1. eexists.
    split; [|split; [exact Hr1|split; [rewrite Hla1; reflexivity|
             split; [exact Hk0|split; [exact Hp0|split; [exact He1|exact Hd1]]]]]].
    conv_unfold ExpectWeak_skip_S.
    conv_rewrite (StartOf_in_set follow p x Hla Hf Hk).
    rewrite Hin. simpl. conv_bind Hc1.
    conv_unfold ExpectWeak_skip_S.
    rewrite (StartOf_in_set follow p1 _ ltac:(rewrite Hla1; reflexivity) Hf)
      by (rewrite Hk0; lia).
    rewrite Hk0, H0. apply converges_ret.
  - destruct (next_terminal_terminals _ (Scanner.bufPos (scanner p)) _ _ Hl)
      as [Hfst Hrest].
    rewrite Hfst in Hla1. rewrite <- Hsc1 in Hrest.
    destruct (IH p1 y Hr1) as (p' & tk' & Hc & Hr' & Hla' & Hk' & Hp' & He' & Hd');
      [rewrite Hla1; reflexivity|exact Hf|exact H0|rewrite Hrest; reflexivity
      |exact Hpre|].
    exists p', tk'.
    split; [|split; [exact Hr'|split; [exact Hla'|split; [exact Hk'|
             split; [exact Hp'|]]]]].
    + conv_unfold ExpectWeak_skip_S.
      conv_rewrite (StartOf_in_set follow p x Hla Hf Hk).
      rewrite Hin. simpl. conv_bind Hc1. exact Hc.
    + split; [congruence|].
      rewrite Hd', Hd1. symmetry. apply dist_after_S.
Qed.

(** [Get] on a parser whose lookahead and dummy token are allocated
    reads through no null pointer, whatever fuel it has. *)
Lemma Get_defined (n : nat) : forall p,
  ready p -> Get n p = OutOfFuel \/ exists p', Get n p = Ok p'.
Proof.
  induction n as [|n IH]; intros p Hr; [left; reflexivity|].
  destruct Hr as [[tk0 Hla] Hd].
  simpl. unfold Scanner.Scan.
  destruct (Scanner.pending (scanner p)) as [|tok rest] eqn:Hl; simpl.
  - right. eexists. reflexivity.
  - destruct (Token.kind tok <=? maxT); [right; eexists; reflexivity|].
    destruct (dummyToken p) as [d|] eqn:Hdum; [|congruence].
    unfold is_dummyToken. simpl. rewrite Hdum.
    destruct (la p) as [| |tk] eqn:Ela; simpl in Hla; try discriminate; simpl.
    + apply IH. split; [|simpl; rewrite Hdum; discriminate].
      simpl. rewrite Hdum. eauto.
    + apply IH. split; [|simpl; discriminate]. simpl. eauto.
Qed.

Lemma Get_ready_Ok (n : nat) (p p' : Parser) :
  ready p -> Get n p = Ok p' ->
  ready p' /\
  la p' = ScannedPtr (fst (next_terminal (Scanner.bufPos (scanner p))
                                         (Scanner.pending (scanner p)))) /\
  scanner p' = snd (next_terminal (Scanner.bufPos (scanner p))
                                  (Scanner.pending (scanner p))).
Proof.
  intros Hr H.
  destruct (Get_ready Hr) as (q & [n0 Hc] & Hrq & Hlq & Hsq & _).
  assert (E : q = p').
  { pose proof (Get_mono n p p' (Nat.max n n0) H (Nat.le_max_l _ _)) as H1.
    rewrite (Hc _ (Nat.le_max_r _ _)) in H1. congruence. }
  subst q. auto.
Qed.

(** The loop of [ExpectWeak] with the follow set 1, which does not hold
    the end-marker, does not end when no token of the set is left. *)
Lemma ExpectWeak_skip_diverges (n : nat) : forall p tk,
  ready p -> deref p (la p) = Ok tk ->
  forallb (skipped_by 1) (tk :: terminals (Scanner.pending (scanner p))) = true ->
  ExpectWeak_skip n 1 p = OutOfFuel.
Proof.
  induction n as [|n IH]; intros p tk Hr Hla Hall; [reflexivity|].
  simpl in Hall. apply andb_prop in Hall. destruct Hall as [Hx Hrest].
  destruct (skipped_by_spec _ _ Hx) as [Hk Hin].
  rewrite ExpectWeak_skip_S.
  rewrite (StartOf_in_set 1 p tk Hla ltac:(lia) Hk), Hin. simpl.
  destruct (Get_defined n p Hr) as [E|[p1 E]]; rewrite E; [reflexivity|].
  simpl. destruct (Get_ready_Ok n p p1 Hr E) as (Hr1 & Hla1 & Hsc1).
  destruct (terminals (Scanner.pending (scanner p))) as [|y r] eqn:Ht.
  - destruct (next_terminal_end _ (Scanner.bufPos (scanner p)) Ht) as [Hk0 Hp0].
    rewrite <- Hsc1 in Hp0.
    eapply IH; [exact Hr1|rewrite Hla1; reflexivity|].
    rewrite Hp0. simpl. unfold skipped_by. rewrite Hk0. reflexivity.
  - destruct (next_terminal_terminals _ (Scanner.bufPos (scanner p)) _ _ Ht)
      as [Hfst Hrest'].
    rewrite Hfst in Hla1. rewrite <- Hsc1 in Hrest'.
    eapply IH; [exact Hr1|rewrite Hla1; reflexivity|].
    rewrite Hrest'. exact Hrest.
Qed.

(** ** The loop of WeakSeparator *)

Lemma WeakSeparator_sync_in_set (syFol repFol : Z) (p : Parser) (tk : Token) :
  deref p (la p) = Ok tk -> 0 <= syFol < 2 -> 0 <= repFol < 2 ->
  0 <= Token.kind tk < 15 ->
  WeakSeparator_sync syFol repFol p = Ok (sync_sets syFol repFol (Token.kind tk)).
Proof.
  intros Hla Hs Hrp Hk. unfold WeakSeparator_sync, sync_sets.
  rewrite (StartOf_in_set syFol p tk Hla Hs Hk),
          (StartOf_in_set repFol p tk Hla Hrp Hk),
          (StartOf_in_set 0 p tk Hla ltac:(lia) Hk).
  simpl. destruct (in_set syFol (Token.kind tk)); [reflexivity|].
  simpl. destruct (in_set repFol (Token.kind tk)); reflexivity.
Qed.

Lemma passed_by_spec (syFol repFol : Z) (tok : Token) :
  passed_by syFol repFol tok = true ->
  0 <= Token.kind tok < 15 /\ sync_sets syFol repFol (Token.kind tok) = false.
Proof.
  unfold passed_by. intro H.
  apply andb_prop in H. destruct H as [H H3].
  apply andb_prop in H. destruct H as [H1 H2].
  apply Z.leb_le in H1. apply Z.ltb_lt in H2. apply negb_true_iff in H3. auto.
Qed.

Lemma synchronizes_at_spec (syFol repFol : Z) (tok : Token) :
  synchronizes_at syFol repFol tok = true ->
  0 <= Token.kind tok < 15 /\ sync_sets syFol repFol (Token.kind tok) = true.
Proof.
  unfold synchronizes_at. intro H.
  apply andb_prop in H. destruct H as [H H3].
  apply andb_prop in H. destruct H as [H1 H2].
  apply Z.leb_le in H1. apply Z.ltb_lt in H2. auto.
Qed.

(** The loop of [WeakSeparator] ends at the first token that one of the
    three sets holds, with every token before it consumed. *)
Lemma WeakSeparator_skip_to (syFol repFol : Z) : forall pre p tk tok post,
  ready p -> deref p (la p) = Ok tk ->
  0 <= syFol < 2 -> 0 <= repFol < 2 ->
  tk :: terminals (Scanner.pending (scanner p)) = pre ++ tok :: post ->
  forallb (passed_by syFol repFol) pre = true ->
  synchronizes_at syFol repFol tok = true ->
  exists p',
    converges (fun n => WeakSeparator_skip n syFol repFol p) p' /\
    ready p' /\
    deref p' (la p') = Ok tok /\
    terminals (Scanner.pending (scanner p')) = post /\
    errors p' = errors p /\ val p' = val p /\
    errDist p' = dist_after (List.length pre) (errDist p).
Proof.
  induction pre as [|x pre IH]; intros p tk tok post Hr Hla Hs Hrp Hl Hpre Hstop.
  - simpl in Hl. injection Hl as -> Hl.
    destruct (synchronizes_at_spec _ _ _ Hstop) as [Hk Hin].
    exists p. split; [|auto 12].
    conv_unfold WeakSeparator_skip_S.
    conv_rewrite (WeakSeparator_sync_in_set syFol repFol p tok Hla Hs Hrp Hk).
    rewrite Hin. apply converges_ret.
  - simpl in Hl. injection Hl as -> Hl.
    simpl in Hpre. apply andb_prop in Hpre. destruct Hpre as [Hx Hpre].
    destruct (passed_by_spec _ _ _ Hx) as [Hk Hin].
    destruct (Get_ready Hr) as (p1 & Hc1 & Hr1 & Hla1 & Hsc1 & Hd1 & He1 & Hv1 & _).
    assert (Hne : exists y r, terminals (Scanner.pending (scanner p)) = y :: r
                              /\ y :: r = pre ++ tok :: post).
    { rewrite Hl. destruct pre; simpl; eauto. }
    destruct Hne as (y & r & Hy & Hyr).
    destruct (next_terminal_terminals _ (Scanner.bufPos (scanner p)) _ _ Hy)
      as [Hfst Hrest].
    rewrite Hfst in Hla1. rewrite <- Hsc1 in Hrest.
    destruct (IH p1 y tok post Hr1)
      as (p' & Hc & Hr' & Hla' & Hp' & He' & Hv' & Hd');
      [rewrite Hla1; reflexivity|exact Hs|exact Hrp|rewrite Hrest; exact Hyr
      |exact Hpre|exact Hstop|].
    exists p'. split; [|split; [exact Hr'|split; [exact Hla'|split; [exact Hp'|]]]].
    + conv_unfold WeakSeparator_skip_S.
      conv_rewrite (WeakSeparator_sync_in_set syFol repFol p x Hla Hs Hrp Hk).
      rewrite Hin. simpl. conv_bind Hc1. exact Hc.
    + split; [congruence|]. split; [congruence|].
      rewrite Hd', Hd1. symmetry. apply dist_after_S.
Qed.

(** The same loop when none of the tokens left is in one of the sets: it
    ends at the end-marker, which set 0 holds. *)
Lemma WeakSeparator_skip_to_end (syFol repFol : Z) : forall pre p tk,
  ready p -> deref p (la p) = Ok tk ->
  0 <= syFol < 2 -> 0 <= repFol < 2 ->
  tk :: terminals (Scanner.pending (scanner p)) = pre ->
  forallb (passed_by syFol repFol) pre = true ->
  exists p' tk',
    converges (fun n => WeakSeparator_skip n syFol repFol p) p' /\
    ready p' /\
    deref p' (la p') = Ok tk' /\ Token.kind tk' = 0 /\
    Scanner.pending (scanner p') = [] /\
    errors p' = errors p /\
    errDist p' = dist_after (List.length pre) (errDist p).
Proof.
  induction pre as [|x pre IH]; intros p tk Hr Hla Hs Hrp Hl Hpre; [discriminate|].
  injection Hl as -> Hl.
  simpl in Hpre. apply andb_prop in Hpre. destruct Hpre as [Hx Hpre].
  destruct (passed_by_spec _ _ _ Hx) as [Hk Hin].
  destruct (Get_ready Hr) as (p1 & Hc1 & Hr1 & Hla1 & Hsc1 & Hd1 & He1 & _).
  destruct pre as [|y pre].
  - destruct (next_terminal_end _ (Scanner.bufPos (scanner p)) Hl) as [Hk0 Hp0].
    rewrite <- Hsc1 in Hp0.
    exists p1. eexists.
    split; [|split; [exact Hr1|split; [rewrite Hla1; reflexivity|
             split; [exact Hk0|split; [exact Hp0|split; [exact He1|exact Hd1]]]]]].
    conv_unfold WeakSeparator_skip_S.
    conv_rewrite (WeakSeparator_sync_in_set syFol repFol p x Hla Hs Hrp Hk).
    rewrite Hin. simpl. conv_bind Hc1.
    conv_unfold WeakSeparator_skip_S.
    rewrite (WeakSeparator_sync_in_set syFol repFol p1 _
               ltac:(rewrite Hla1; reflexivity) Hs Hrp)
      by (rewrite Hk0; lia).
    rewrite Hk0. unfold sync_sets.
    replace (in_set 0 0) with true by reflexivity.
    rewrite !orb_true_r. apply converges_ret.
  - destruct (next_terminal_terminals _ (Scanner.bufPos (scanner p)) _ _ Hl)
      as [Hfst Hrest].
    rewrite Hfst in Hla1. rewrite <- Hsc1 in Hrest.
    destruct (IH p1 y Hr1) as (p' & tk' & Hc & Hr' & Hla' & Hk' & Hp' & He' & Hd');
      [rewrite Hla1; reflexivity|exact Hs|exact Hrp|rewrite Hrest; reflexivity
      |exact Hpre|].
    exists p', tk'.
    split; [|split; [exact Hr'|split; [exact Hla'|split; [exact Hk'|
             split; [exact Hp'|]]]]].
    + conv_unfold WeakSeparator_skip_S.
      conv_rewrite (WeakSeparator_sync_in_set syFol repFol p x Hla Hs Hrp Hk).
      rewrite Hin. simpl. conv_bind Hc1. exact Hc.
    + split; [congruence|].
      rewrite Hd', Hd1. symmetry. apply dist_after_S.
Qed.

(** ** A minus sign before anything but a parenthesis, at any place *)

Lemma dist_after_app_S {A : Type} (a b : list A) (d : Z) :
  dist_after (S (List.length (a ++ b))) d =
  dist_after (S (List.length b)) (dist_after (List.length a) d).
Proof.
  rewrite length_app, <- dist_after_add. f_equal. lia.
Qed.

Lemma consumed_dist (a b : list Token) (p p1 : Parser) (X : list Token) :
  consumed a p p1 X ->
  minErrDist <= dist_after (S (List.length (a ++ b))) (errDist p) ->
  minErrDist <= dist_after (S (List.length b)) (errDist p1).
Proof.
  intros (_ & _ & _ & _ & Hd & _) H.
  rewrite dist_after_app_S in H. rewrite Hd. exact H.
Qed.

Lemma stop_term_additive (tl : expr_tail) (plus : bool) (op : Lexeme)
      (rest : list Token) :
  stop_term (tokens_of_expr_tail tl
             ++ terminal (if plus then 7 else 8) op :: rest).
Proof.
  destruct tl as [|op' tm tl|op' tm tl], plus; simpl; unfold stop_term;
    rewrite next_kind_terminal by (simpl; unfold maxT; lia); simpl; lia.
Qed.

(** The diagnostics written since [p], when [q'] has those of [q] and
    possibly more. *)
Lemma log_extends (p q q' : Parser) (d : Z * Z * string)
      (l : list (Z * Z * string)) :
  Errors.log (errors q) = Errors.log (errors p) ++ d :: l ->
  extends q q' ->
  exists l', Errors.log (errors q') = Errors.log (errors p) ++ d :: l'.
Proof.
  intros Hl [l2 H2]. exists (l ++ l2).
  rewrite H2, Hl, <- app_assoc. reflexivity.
Qed.

(** The loop of [Term] up to the operator of the clause that holds the
    place: the clauses before it are consumed, then the operator, and
    the loop goes on with [Factor] at the place. *)
Lemma Term_loop_before_clause (times : bool) (op : Lexeme) (X : list Token) :
  forall tl p acc v2,
  ready p ->
  before p (tokens_of_term_tail tl
            ++ terminal (if times then 9 else 10) op :: X) ->
  exists p1 acc' v2',
    consumed (tokens_of_term_tail tl ++ [terminal (if times then 9 else 10) op])
             p p1 X /\
    forall r,
      converges
        (fun n => ' (v, q) <- Factor n v2' p1 ;;
                  Term_loop n (if times then acc' * v else acc' / v)%float v q) r ->
      converges (fun n => Term_loop n acc v2 p) r.
Proof.
  destruct phrase_consumed as (_ & _ & _ & _ & HF).
  induction tl as [|op' f tl IH|op' f tl IH]; intros p acc v2 Hr Hat.
  - simpl in Hat.
    destruct (Get_before p _ _ Hr Hat) as (p1 & Hc1 & Hp1 & _).
    exists p1, acc, v2. split; [exact Hp1|]. intros r Hc.
    conv_unfold Term_loop_S. conv_rewrite (before_kind p _ _ Hat).
    destruct times; simpl; (eapply converges_bind; [exact Hc1|exact Hc]).
  - simpl in Hat. rewrite <- app_assoc in Hat.
    destruct (Get_before p _ _ Hr Hat) as (p1 & Hc1 & Hp1 & _).
    destruct (HF f p1 _ v2 (proj1 Hp1) (proj1 (proj2 Hp1))) as (p2 & Hc2 & Hp2).
    destruct (IH p2 (acc * eval_factor f)%float (eval_factor f)
                 (proj1 Hp2) (proj1 (proj2 Hp2)))
      as (p3 & acc' & v2' & Hp3 & Hk).
    exists p3, acc', v2'. split.
    + simpl. rewrite <- app_assoc.
      eapply consumed_cons; [exact Hp1|]. eapply consumed_trans; eassumption.
    + intros r Hc. conv_unfold Term_loop_S. conv_rewrite (before_kind p _ _ Hat).
      conv_bind Hc1. conv_bind Hc2. apply Hk. exact Hc.
  - simpl in Hat. rewrite <- app_assoc in Hat.
    destruct (Get_before p _ _ Hr Hat) as (p1 & Hc1 & Hp1 & _).
    destruct (HF f p1 _ v2 (proj1 Hp1) (proj1 (proj2 Hp1))) as (p2 & Hc2 & Hp2).
    destruct (IH p2 (acc / eval_factor f)%float (eval_factor f)
                 (proj1 Hp2) (proj1 (proj2 Hp2)))
      as (p3 & acc' & v2' & Hp3 & Hk).
    exists p3, acc', v2'. split.
    + simpl. rewrite <- app_assoc.
      eapply consumed_cons; [exact Hp1|]. eapply consumed_trans; eassumption.
    + intros r Hc. conv_unfold Term_loop_S. conv_rewrite (before_kind p _ _ Hat).
      conv_bind Hc1. conv_bind Hc2. apply Hk. exact Hc.
Qed.

(** The same for the loop of [Expr]. *)
Lemma Expr_loop_before_clause (plus : bool) (op : Lexeme) (X : list Token) :
  forall tl p acc v2,
  ready p ->
  before p (tokens_of_expr_tail tl
            ++ terminal (if plus then 7 else 8) op :: X) ->
  exists p1 acc' v2',
    consumed (tokens_of_expr_tail tl ++ [terminal (if plus then 7 else 8) op])
             p p1 X /\
    forall r,
      converges
        (fun n => ' (v, q) <- Term n v2' p1 ;;
                  Expr_loop n (if plus then acc' + v else acc' - v)%float v q) r ->
      converges (fun n => Expr_loop n acc v2 p) r.
Proof.
  destruct phrase_consumed as (_ & _ & HT & _).
  induction tl as [|op' tm tl IH|op' tm tl IH]; intros p acc v2 Hr Hat.
  - simpl in Hat.
    destruct (Get_before p _ _ Hr Hat) as (p1 & Hc1 & Hp1 & _).
    exists p1, acc, v2. split; [exact Hp1|]. intros r Hc.
    conv_unfold Expr_loop_S. conv_rewrite (before_kind p _ _ Hat).
    destruct plus; simpl; (eapply converges_bind; [exact Hc1|exact Hc]).
  - simpl in Hat. rewrite <- app_assoc in Hat.
    destruct (Get_before p _ _ Hr Hat) as (p1 & Hc1 & Hp1 & _).
    destruct (HT tm p1 _ v2 (proj1 Hp1) (proj1 (proj2 Hp1))
                 (stop_term_additive tl plus op X)) as (p2 & Hc2 & Hp2).
    destruct (IH p2 (acc + eval_term tm)%float (eval_term tm)
                 (proj1 Hp2) (proj1 (proj2 Hp2)))
      as (p3 & acc' & v2' & Hp3 & Hk).
    exists p3, acc', v2'. split.
    + simpl. rewrite <- app_assoc.
      eapply consumed_cons; [exact Hp1|]. eapply consumed_trans; eassumption.
    + intros r Hc. conv_unfold Expr_loop_S. conv_rewrite (before_kind p _ _ Hat).
      conv_bind Hc1. conv_bind Hc2. apply Hk. exact Hc.
  - simpl in Hat. rewrite <- app_assoc in Hat.
    destruct (Get_before p _ _ Hr Hat) as (p1 & Hc1 & Hp1 & _).
    destruct (HT tm p1 _ v2 (proj1 Hp1) (proj1 (proj2 Hp1))
                 (stop_term_additive tl plus op X)) as (p2 & Hc2 & Hp2).
    destruct (IH p2 (acc - eval_term tm)%float (eval_term tm)
                 (proj1 Hp2) (proj1 (proj2 Hp2)))
      as (p3 & acc' & v2' & Hp3 & Hk).
    exists p3, acc', v2'. split.
    + simpl. rewrite <- app_assoc.
      eapply consumed_cons; [exact Hp1|]. eapply consumed_trans; eassumption.
    + intros r Hc. conv_unfold Expr_loop_S. conv_rewrite (before_kind p _ _ Hat).
      conv_bind Hc1. conv_bind Hc2. apply Hk. exact Hc.
Qed.

(** [Factor] at a minus sign that no parenthesis follows, at any place of
    a phrase whose tokens before the place are as the grammar has them:
    the procedure at the head of the way returns, and the diagnostic for
    the missing ['('] is written at the operand. *)
Lemma negation_at_place (minus tk : Token) (rest : list Token) :
  Token.kind minus = 8 -> Token.kind tk <> 11 ->
  (forall eh p v,
      ready p -> before p (tokens_before_expr eh ++ minus :: tk :: rest) ->
      minErrDist <= dist_after (S (List.length (tokens_before_expr eh))) (errDist p) ->
      exists r,
        converges (fun n => Expr n v p) r /\ ready (snd r) /\
        exists l, Errors.log (errors (snd r)) =
                  Errors.log (errors p)
                  ++ (Token.line tk, Token.col tk, Errors.strerror 11) :: l) /\
  (forall th p v,
      ready p -> before p (tokens_before_term th ++ minus :: tk :: rest) ->
      minErrDist <= dist_after (S (List.length (tokens_before_term th))) (errDist p) ->
      exists r,
        converges (fun n => Term n v p) r /\ ready (snd r) /\
        exists l, Errors.log (errors (snd r)) =
                  Errors.log (errors p)
                  ++ (Token.line tk, Token.col tk, Errors.strerror 11) :: l) /\
  (forall fh p v,
      ready p -> before p (tokens_before_factor fh ++ minus :: tk :: rest) ->
      minErrDist <= dist_after (S (List.length (tokens_before_factor fh))) (errDist p) ->
      exists r,
        converges (fun n => Factor n v p) r /\ ready (snd r) /\
        exists l, Errors.log (errors (snd r)) =
                  Errors.log (errors p)
                  ++ (Token.line tk, Token.col tk, Errors.strerror 11) :: l).
Proof.
  intros Hm Hn11.
  destruct phrase_consumed as (_ & _ & HT & _ & HF).
  apply place_ind.
  - (* in the first term *)
    intros th IH p v Hr Hb Hd.
    destruct (IH p v Hr Hb Hd) as ([v1 p1] & Hc1 & Hr1 & l1 & Hl1).
    cbn [snd] in Hr1, Hl1.
    destruct (proj1 (proj2 (phrase_total (remaining p1))) p1 v1 0%float
                Hr1 (Nat.le_refl _)) as ([v2 p2] & Hc2 & Ha2).
    cbn [snd] in Ha2.
    exists (v2, p2). split; [|split; [apply Ha2|]].
    + conv_unfold Expr_S. conv_bind Hc1. exact Hc2.
    + apply (log_extends p p1 p2 _ l1 Hl1). apply Ha2.
  - (* in a later term *)
    intros tm tl plus op th IH p v Hr Hb Hd.
    cbn [tokens_before_expr] in Hb, Hd.
    rewrite <- !app_assoc in Hb. rewrite <- app_comm_cons in Hb.
    destruct (HT tm p _ v Hr Hb (stop_term_additive tl plus op _))
      as (p1 & Hc1 & Hp1).
    destruct (Expr_loop_before_clause plus op _ tl p1 (eval_term tm) 0%float
                (proj1 Hp1) (proj1 (proj2 Hp1)))
      as (p2 & acc' & v2' & Hp2 & Hk).
    pose proof (consumed_trans _ _ _ _ _ _ _ Hp1 Hp2) as Hp12.
    assert (Hd2 : minErrDist <=
                  dist_after (S (List.length (tokens_before_term th))) (errDist p2)).
    { apply (consumed_dist _ (tokens_before_term th) p p2 _ Hp12).
      rewrite <- !app_assoc. exact Hd. }
    destruct (IH p2 v2' (proj1 Hp2) (proj1 (proj2 Hp2)) Hd2)
      as ([v3 p3] & Hc3 & Hr3 & l3 & Hl3).
    cbn [snd] in Hr3, Hl3.
    destruct (proj1 (proj2 (phrase_total (remaining p3))) p3
                (if plus then acc' + v3 else acc' - v3)%float v3
                Hr3 (Nat.le_refl _)) as ([v4 p4] & Hc4 & Ha4).
    cbn [snd] in Ha4.
    exists (v4, p4). split; [|split; [apply Ha4|]].
    + conv_unfold Expr_S. conv_bind Hc1. apply Hk.
      eapply converges_bind; [exact Hc3|]. exact Hc4.
    + assert (He2 : errors p2 = errors p) by apply Hp12.
      rewrite He2 in Hl3.
      apply (log_extends p p3 p4 _ l3 Hl3). apply Ha4.
  - (* the first factor *)
    intros fh IH p v Hr Hb Hd.
    destruct (IH p v Hr Hb Hd) as ([v1 p1] & Hc1 & Hr1 & l1 & Hl1).
    cbn [snd] in Hr1, Hl1.
    destruct (proj1 (proj2 (proj2 (proj2 (phrase_total (remaining p1))))) p1 v1 0%float
                Hr1 (Nat.le_refl _)) as ([v2 p2] & Hc2 & Ha2).
    cbn [snd] in Ha2.
    exists (v2, p2). split; [|split; [apply Ha2|]].
    + conv_unfold Term_S. conv_bind Hc1. exact Hc2.
    + apply (log_extends p p1 p2 _ l1 Hl1). apply Ha2.
  - (* a later factor *)
    intros f tl times op fh IH p v Hr Hb Hd.
    cbn [tokens_before_term] in Hb, Hd.
    rewrite <- !app_assoc in Hb. rewrite <- app_comm_cons in Hb.
    destruct (HF f p _ v Hr Hb) as (p1 & Hc1 & Hp1).
    destruct (Term_loop_before_clause times op _ tl p1 (eval_factor f) 0%float
                (proj1 Hp1) (proj1 (proj2 Hp1)))
      as (p2 & acc' & v2' & Hp2 & Hk).
    pose proof (consumed_trans _ _ _ _ _ _ _ Hp1 Hp2) as Hp12.
    assert (Hd2 : minErrDist <=
                  dist_after (S (List.length (tokens_before_factor fh))) (errDist p2)).
    { apply (consumed_dist _ (tokens_before_factor fh) p p2 _ Hp12).
      rewrite <- !app_assoc. exact Hd. }
    destruct (IH p2 v2' (proj1 Hp2) (proj1 (proj2 Hp2)) Hd2)
      as ([v3 p3] & Hc3 & Hr3 & l3 & Hl3).
    cbn [snd] in Hr3, Hl3.
    destruct (proj1 (proj2 (proj2 (proj2 (phrase_total (remaining p3))))) p3
                (if times then acc' * v3 else acc' / v3)%float v3
                Hr3 (Nat.le_refl _)) as ([v4 p4] & Hc4 & Ha4).
    cbn [snd] in Ha4.
    exists (v4, p4). split; [|split; [apply Ha4|]].
    + conv_unfold Term_S. conv_bind Hc1. apply Hk.
      eapply converges_bind; [exact Hc3|]. exact Hc4.
    + assert (He2 : errors p2 = errors p) by apply Hp12.
      rewrite He2 in Hl3.
      apply (log_extends p p3 p4 _ l3 Hl3). apply Ha4.
  - (* the minus sign itself *)
    intros p v Hr Hb Hd.
    cbn [tokens_before_factor app List.length] in Hb, Hd.
    destruct (Get_before p _ _ Hr Hb) as (p1 & Hc1 & Hp1 & _).
    destruct Hp1 as (Hr1 & Hb1 & He1 & _ & Hd1 & _).
    assert (Hla1 : deref p1 (la p1) = Ok tk).
    { rewrite (before_la p1 tk rest Hb1). reflexivity. }
    pose proof (Expect_mismatch p1 11 tk Hla1 Hn11) as Hx.
    change (forall fuel, Expect fuel 11 p1 = Ok (after_SynErr_at 11 tk p1)) in Hx.
    assert (He2 : errors (after_SynErr_at 11 tk p1) =
                  Errors.SynErr (Token.line tk) (Token.col tk) 11 (errors p)).
    { rewrite after_SynErr_at_reported; [rewrite He1; reflexivity|].
      rewrite Hd1. exact Hd. }
    pose proof (ready_after_SynErr_at 11 tk p1 Hr1) as Hr2.
    destruct (proj1 (phrase_total (remaining (after_SynErr_at 11 tk p1)))
                (after_SynErr_at 11 tk p1) v Hr2 (Nat.le_refl _))
      as ([v3 p3] & Hc3 & Ha3).
    cbn [snd] in Ha3.
    destruct (Expect_advances 12 (proj1 Ha3)) as (p4 & Hc4 & Ha4).
    exists ((- v3)%float, p4). split; [|split; [apply Ha4|]].
    + conv_unfold Factor_S. conv_rewrite (before_kind p _ _ Hb).
      rewrite Hm. simpl. conv_bind Hc1.
      eapply converges_bind; [exists 0%nat; intros n _; apply Hx|].
      simpl. conv_bind Hc3. conv_bind Hc4. apply converges_ret.
    + cbn [snd].
      apply (log_extends p (after_SynErr_at 11 tk p1) p4 _ []).
      * rewrite He2. reflexivity.
      * eapply extends_trans; [apply Ha3|apply Ha4].
  - (* in a parenthesis *)
    intros lpar eh IH p v Hr Hb Hd.
    cbn [tokens_before_factor] in Hb, Hd.
    rewrite <- app_comm_cons in Hb.
    destruct (Get_before p _ _ Hr Hb) as (p1 & Hc1 & Hp1 & _).
    assert (Hd1 : minErrDist <=
                  dist_after (S (List.length (tokens_before_expr eh))) (errDist p1)).
    { apply (consumed_dist [terminal 11 lpar] (tokens_before_expr eh) p p1 _ Hp1).
      exact Hd. }
    destruct (IH p1 v (proj1 Hp1) (proj1 (proj2 Hp1)) Hd1)
      as ([v2 p2] & Hc2 & Hr2 & l2 & Hl2).
    cbn [snd] in Hr2, Hl2.
    destruct (Expect_advances 12 Hr2) as (p3 & Hc3 & Ha3).
    exists (v2, p3). split; [|split; [apply Ha3|]].
    + conv_unfold Factor_S. conv_rewrite (before_kind p _ _ Hb).
      conv_bind Hc1. conv_bind Hc2. conv_bind Hc3. apply converges_ret.
    + assert (He1 : errors p1 = errors p) by apply Hp1.
      rewrite He1 in Hl2. cbn [snd].
      apply (log_extends p p2 p3 _ l2 Hl2). apply Ha3.
  - (* in a negated parenthesis *)
    intros minus0 lpar eh IH p v Hr Hb Hd.
    cbn [tokens_before_factor] in Hb, Hd.
    rewrite <- !app_comm_cons in Hb.
    destruct (Get_before p _ _ Hr Hb) as (p1 & Hc1 & Hp1 & _).
    destruct (Expect_before p1 _ _ (proj1 Hp1) (proj1 (proj2 Hp1)))
      as (p2 & Hc2 & Hp2 & _).
    pose proof (consumed_cons _ _ _ _ _ _ _ Hp1 Hp2) as Hp12.
    assert (Hd2 : minErrDist <=
                  dist_after (S (List.length (tokens_before_expr eh))) (errDist p2)).
    { apply (consumed_dist [terminal 8 minus0; terminal 11 lpar]
                           (tokens_before_expr eh) p p2 _ Hp12).
      exact Hd. }
    destruct (IH p2 v (proj1 Hp2) (proj1 (proj2 Hp2)) Hd2)
      as ([v3 p3] & Hc3 & Hr3 & l3 & Hl3).
    cbn [snd] in Hr3, Hl3.
    destruct (Expect_advances 12 Hr3) as (p4 & Hc4 & Ha4).
    exists ((- v3)%float, p4). split; [|split; [apply Ha4|]].
    + conv_unfold Factor_S. conv_rewrite (before_kind p _ _ Hb).
      conv_bind Hc1. conv_bind Hc2. conv_bind Hc3. conv_bind Hc4.
      apply converges_ret.
    + assert (He2 : errors p2 = errors p) by apply Hp12.
      rewrite He2 in Hl3. cbn [snd].
      apply (log_extends p p3 p4 _ l3 Hl3). apply Ha4.
Qed.

(** A phrase up to a place starts as a factor does. *)
Lemma tokens_before_expr_start (eh : expr_place) (minus : Token)
      (X : list Token) :
  Token.kind minus = 8 ->
  In (next_kind (tokens_before_expr eh ++ minus :: X)) [3; 4; 8; 11].
Proof.
  intro Hm.
  assert (Hmin : forall Y, In (next_kind (minus :: Y)) [3; 4; 8; 11]).
  { intro Y. rewrite next_kind_terminal by (rewrite Hm; unfold maxT; lia).
    rewrite Hm. simpl. auto 6. }
  assert (Hf : forall f Y, In (next_kind (tokens_of_factor f ++ Y)) [3; 4; 8; 11]).
  { intros [x|x|m l e r|l e r] Y; cbn [tokens_of_factor app];
      rewrite next_kind_terminal by (simpl; unfold maxT; lia); simpl; auto 6. }
  assert (Hfh : forall fh Y,
             In (next_kind (tokens_before_factor fh ++ minus :: Y)) [3; 4; 8; 11]).
  { intros [|l eh'|m l eh'] Y; cbn [tokens_before_factor app];
      [apply Hmin| |];
      rewrite next_kind_terminal by (simpl; unfold maxT; lia); simpl; auto 6. }
  assert (Hth : forall th Y,
             In (next_kind (tokens_before_term th ++ minus :: Y)) [3; 4; 8; 11]).
  { intros [fh|f tl times op fh] Y; cbn [tokens_before_term].
    - apply Hfh.
    - rewrite <- app_assoc. apply Hf. }
  destruct eh as [th|[f tl0] tl plus op th]; cbn [tokens_before_expr tokens_of_term].
  - apply Hth.
  - rewrite <- !app_assoc. apply Hf.
Qed.

(** [Parse] on a bare input with a minus sign that no parenthesis
    follows, at any place of the phrase. *)
Lemma Parse_negation_bare (eh : expr_place) (minus tk : Token)
      (rest : list Token) (p : Parser) :
  Token.kind minus = 8 -> Token.kind tk <> 11 ->
  terminals (Scanner.pending (scanner p)) =
    tokens_before_expr eh ++ minus :: tk :: rest ->
  minErrDist <=
    dist_after (S (S (List.length (tokens_before_expr eh)))) (errDist p) ->
  exists p' l,
    converges (fun n => Parse n p) p' /\
    Errors.log (errors p') =
      Errors.log (errors p)
      ++ (Token.line tk, Token.col tk, Errors.strerror 11) :: l.
Proof.
  intros Hm Hn11 Hterm Hd.
  destruct (Parse_start p) as (p1 & tk0 & Hc1 & Hr1 & Hb1 & He1 & Hd1 & _).
  rewrite Hterm in Hb1.
  assert (Hb : before (with_val 0%float p1)
                 (tokens_before_expr eh ++ minus :: tk :: rest)) by exact Hb1.
  assert (Hd' : minErrDist <=
                dist_after (S (List.length (tokens_before_expr eh)))
                           (errDist (with_val 0%float p1))).
  { change (errDist (with_val 0%float p1)) with (errDist p1). rewrite Hd1.
    rewrite <- (dist_after_add 1). exact Hd. }
  destruct (proj1 (negation_at_place minus tk rest Hm Hn11) eh
              (with_val 0%float p1) 0%float Hr1 Hb Hd')
    as ([v2 p2] & Hc2 & Hr2 & l2 & Hl2).
  cbn [snd] in Hr2, Hl2.
  assert (Hr2' : ready (with_val v2 p2)) by exact Hr2.
  destruct (Expect_advances 0 Hr2') as (p3 & Hc3 & Ha3).
  destruct (log_extends (with_val 0%float p1) p2 p3 _ l2 Hl2) as [l3 Hl3].
  { destruct Ha3 as (_ & _ & _ & Hx & _). exact Hx. }
  exists p3, l3. split.
  - eapply converges_ext; [intro; apply Parse_eq|].
    eapply converges_bind; [exact Hc1|].
    eapply converges_ext; [intro; apply calcEntry_eq|].
    pose proof (before_la_kind _ _ Hb) as Hlk.
    pose proof (tokens_before_expr_start eh minus (tk :: rest) Hm) as Hin.
    conv_rewrite Hlk.
    assert (H5 : (next_kind (tokens_before_expr eh ++ minus :: tk :: rest) =? 5)
                 = false).
    { apply Z.eqb_neq. intro E. rewrite E in Hin. simpl in Hin.
      intuition discriminate. }
    rewrite H5.
    conv_rewrite (StartOf_1_true _ Hlk Hin).
    eapply converges_bind; [exact Hc2|]. exact Hc3.
  - rewrite Hl3. change (errors (with_val 0%float p1)) with (errors p1).
    rewrite He1. reflexivity.
Qed.

(** The same between braces. *)
Lemma Parse_negation_braced (lb : Lexeme) (eh : expr_place) (minus tk : Token)
      (rest : list Token) (p : Parser) :
  Token.kind minus = 8 -> Token.kind tk <> 11 ->
  terminals (Scanner.pending (scanner p)) =
    terminal 5 lb :: tokens_before_expr eh ++ minus :: tk :: rest ->
  minErrDist <=
    dist_after (S (S (S (List.length (tokens_before_expr eh))))) (errDist p) ->
  exists p' l,
    converges (fun n => Parse n p) p' /\
    Errors.log (errors p') =
      Errors.log (errors p)
      ++ (Token.line tk, Token.col tk, Errors.strerror 11) :: l.
Proof.
  intros Hm Hn11 Hterm Hd.
  destruct (Parse_start p) as (p1 & tk0 & Hc1 & Hr1 & Hb1 & He1 & Hd1 & _).
  rewrite Hterm in Hb1.
  assert (Hb : before (with_val 0%float p1)
                 (terminal 5 lb :: tokens_before_expr eh ++ minus :: tk :: rest))
    by exact Hb1.
  assert (Hr : ready (with_val 0%float p1)) by exact Hr1.
  destruct (Get_before _ _ _ Hr Hb) as (q & Hcq & Hq & Htq).
  assert (Hdq : minErrDist <=
                dist_after (S (List.length (tokens_before_expr eh))) (errDist q)).
  { destruct Hq as (_ & _ & _ & _ & Hdq & _). rewrite Hdq.
    change (errDist (with_val 0%float p1)) with (errDist p1). rewrite Hd1.
    rewrite <- (dist_after_add 1), <- (dist_after_add 1). exact Hd. }
  destruct (proj1 (negation_at_place minus tk rest Hm Hn11) eh
              q (val q) (proj1 Hq) (proj1 (proj2 Hq)) Hdq)
    as ([v2 p2] & Hc2 & Hr2 & l2 & Hl2).
  cbn [snd] in Hr2, Hl2.
  destruct (proj1 (phrase_total (remaining q)) q (val q) (proj1 Hq) (Nat.le_refl _))
    as (r' & Hc' & Ha').
  rewrite <- (converges_inj Hc2 Hc') in Ha'. cbn [snd] in Ha'.
  assert (Hr2' : ready (with_val v2 p2)) by exact Hr2.
  destruct (Expect_advances 6 Hr2') as (p3 & Hc3 & Ha3).
  assert (Hn3 : t p3 <> Null).
  { destruct Ha3 as (_ & _ & _ & _ & Hn3). apply Hn3.
    change (t (with_val v2 p2)) with (t p2).
    destruct Ha' as (_ & _ & _ & _ & Hn2). apply Hn2.
    intro E. rewrite E in Htq. discriminate. }
  destruct (deref_ready (proj1 Ha3) Hn3) as (tk3 & Ht3).
  destruct (log_extends q p2 p3 _ l2 Hl2) as [l3 Hl3].
  { destruct Ha3 as (_ & _ & _ & Hx & _). exact Hx. }
  eexists. exists l3. split.
  - eapply converges_ext; [intro; apply Parse_eq|].
    eapply converges_bind; [exact Hc1|].
    eapply converges_ext; [intro; apply calcEntry_eq|].
    conv_rewrite (before_kind _ _ _ Hb).
    eapply converges_bind; [exact Hcq|].
    eapply converges_bind; [exact Hc2|]. simpl.
    eapply converges_bind; [exact Hc3|]. simpl.
    conv_rewrite Ht3. apply converges_ret.
  - cbn [errors with_scanner]. rewrite Hl3.
    destruct Hq as (_ & _ & Heq & _). rewrite Heq.
    change (errors (with_val 0%float p1)) with (errors p1).
    rewrite He1. reflexivity.
Qed.

End Further.

(* ================================================================== *)
(** * The claims of the specification *)

(** C8, as the code has it.  After every call of [Get] that returns, the
    lookahead is a token handed out by the scanner whose kind is at most
    [maxT], and [Get] returns on every parser whose lookahead and dummy
    token are allocated.  A token of a kind above [maxT] is never left as
    the lookahead: [Get] drops it and scans on.  What the dummy token
    receives on the way is a copy of the token that was the lookahead
    when [Get] was called, and [t] refers to the dummy token
    afterwards. *)
Theorem Get_lookahead_is_terminal :
  (forall fuel p p',
      Get fuel p = Ok p' ->
      exists tok, la p' = ScannedPtr tok /\ Token.kind tok <= maxT) /\
  (forall p, ready p -> exists p', converges (fun n => Get n p) p') /\
  (forall fuel p p' tk0 tok rest,
      Get fuel p = Ok p' ->
      deref p (la p) = Ok tk0 -> dummyToken p <> None ->
      Scanner.pending (scanner p) = tok :: rest -> maxT < Token.kind tok ->
      la p' <> ScannedPtr tok /\ t p' = DummyPtr /\ dummyToken p' = Some tk0).
Proof.
  split; [|split].
  - intros fuel p p' H. apply Get_returns in H. destruct H as (H & _).
    eexists. split; [exact H|apply next_terminal_kind].
  - intros p Hr. destruct (Get_ready Hr) as (p' & Hc & _). eauto.
  - intros fuel p p' tk0 tok rest H Hla Hd Hl Hk.
    destruct (@Get_ready_list (tok :: rest) p tk0 Hl Hla Hd)
      as (p'' & Hget & _ & _ & Hpark).
    assert (E : p'' = p').
    { pose proof (Get_mono fuel p p' (Nat.max fuel (S (List.length (tok :: rest)))) H
                           (Nat.le_max_l _ _)) as H1.
      rewrite Hget in H1 by lia. congruence. }
    subst p''. apply Z.leb_gt in Hk. rewrite Hk in Hpark.
    split; [|exact Hpark].
    apply Get_returns in H. destruct H as (H & _).
    intro E. rewrite H in E. injection E as E.
    pose proof (next_terminal_kind (Scanner.bufPos (scanner p))
                                   (Scanner.pending (scanner p))) as Hle.
    rewrite E in Hle. apply Z.leb_gt in Hk. lia.
Qed.

Lemma Get_lookahead_is_terminal_witness :
  (exists p', converges (fun n => Get n state_before_pragmas) p') /\
  exists p',
    Get 4 state_before_pragmas = Ok p' /\
    (exists tk, la p' = ScannedPtr tk /\ Token.kind tk <= maxT) /\
    la p' = ScannedPtr (tok 7 8 "+") /\
    la p' <> ScannedPtr (tok 14 2 "#p") /\
    t p' = DummyPtr /\ dummyToken p' = Some (tok 4 0 "1").
Proof.
  split.
  - apply (proj1 (proj2 Get_lookahead_is_terminal)).
    split; [eexists; reflexivity|discriminate].
  - eexists. split; [vm_compute; reflexivity|].
    split.
    { apply (proj1 Get_lookahead_is_terminal 4%nat state_before_pragmas).
      vm_compute. reflexivity. }
    split; [reflexivity|].
    apply (proj2 (proj2 Get_lookahead_is_terminal)
             4%nat state_before_pragmas _ (tok 4 0 "1") (tok 14 2 "#p")
             [tok 15 5 "#q"; tok 7 8 "+"; tok 4 10 "2"]).
    + vm_compute. reflexivity.
    + reflexivity.
    + discriminate.
    + reflexivity.
    + unfold maxT. simpl. lia.
Defined.

(** C8, as the specification states it, fails in its last clause: the
    tokens of a kind above [maxT] are not absorbed into the dummy token.
    On [1 #p #q + 2], the call of [Get] that consumes [1] skips [#p] and
    [#q]; afterwards the dummy token holds the number [1], the lookahead
    is [+], the scanner holds [2], and nothing refers to [#p] or [#q]. *)
Lemma skipped_tokens_are_dropped :
  (exists p',
      Get 4 state_before_pragmas = Ok p' /\
      t p' = DummyPtr /\
      dummyToken p' = Some (tok 4 0 "1") /\
      la p' = ScannedPtr (tok 7 8 "+") /\
      Scanner.pending (scanner p') = [tok 4 10 "2"]) /\
  ~ (forall fuel p p' tok rest,
        Scanner.pending (scanner p) = tok :: rest ->
        maxT < Token.kind tok ->
        Get fuel p = Ok p' ->
        exists d, dummyToken p' = Some d /\ maxT < Token.kind d).
Proof.
  split.
  - eexists. split; [vm_compute; reflexivity|]. repeat split; reflexivity.
  - intro H.
    destruct (H 4%nat state_before_pragmas _ (tok 14 2 "#p")
                [tok 15 5 "#q"; tok 7 8 "+"; tok 4 10 "2"]
                eq_refl eq_refl ltac:(vm_compute; reflexivity))
      as (d & Hd & Hk).
    simpl in Hd. injection Hd as <-. vm_compute in Hk. discriminate.
Qed.

(** C7, as the code has it.  [Expect(n)] consumes the lookahead exactly
    when its kind is [n]: the token becomes the one read through [t] and
    the next terminal of the scanner becomes the lookahead.  Otherwise it
    consumes nothing, the lookahead, the consumed token and the scanner
    stay as they are, [errDist] becomes 0, and the diagnostic for [n] is
    written, at the line and column of the lookahead, only if [errDist]
    had reached [minErrDist]; below that nothing is written.  The message
    of the diagnostic is the one of the table of [Errors::strerror]:
    [EOF expected], [ident expected], [string expected],
    [variable expected], [number expected], the terminal between double
    quotes followed by [expected] for the eight punctuation terminals,
    [??? expected], the two [invalid] messages, and [error n] for every
    other [n]. *)
Theorem Expect_consumes_or_reports (hdr : ParserHeader)
        (n : Z) (p : Parser) (tk : Token) :
  ready p -> deref p (la p) = Ok tk ->
  (Token.kind tk = n ->
   exists p',
     converges (fun fuel => Expect fuel n p) p' /\
     deref p' (t p') = Ok tk /\
     la p' = ScannedPtr (fst (next_terminal (Scanner.bufPos (scanner p))
                                            (Scanner.pending (scanner p)))) /\
     scanner p' = snd (next_terminal (Scanner.bufPos (scanner p))
                                     (Scanner.pending (scanner p))) /\
     errors p' = errors p) /\
  (Token.kind tk <> n ->
   exists p',
     (forall fuel, Expect fuel n p = Ok p') /\
     SynErr n p = Ok p' /\
     la p' = la p /\ t p' = t p /\ scanner p' = scanner p /\
     dummyToken p' = dummyToken p /\
     errDist p' = 0 /\
     errors p' =
       (if minErrDist <=? errDist p
        then Errors.mk (wrap32 (Errors.count (errors p) + 1))
                       (Errors.log (errors p)
                        ++ [(Token.line tk, Token.col tk, Errors.strerror n)])
        else errors p)) /\
  (let quote := String (ascii_of_nat 34) EmptyString in
   map Errors.strerror [0; 1; 2; 3; 4; 5; 6; 7; 8; 9; 10; 11; 12; 13; 14; 15]
   = ["EOF expected"; "ident expected"; "string expected";
      "variable expected"; "number expected";
      quote ++ "{" ++ quote ++ " expected";
      quote ++ "}" ++ quote ++ " expected";
      quote ++ "+" ++ quote ++ " expected";
      quote ++ "-" ++ quote ++ " expected";
      quote ++ "*" ++ quote ++ " expected";
      quote ++ "/" ++ quote ++ " expected";
      quote ++ "(" ++ quote ++ " expected";
      quote ++ ")" ++ quote ++ " expected";
      "??? expected"; "invalid calcEntry"; "invalid Factor"]%string /\
   (~ 0 <= n <= 15 ->
    Errors.strerror n = ("error " ++ NilEmpty.string_of_int (Z.to_int n))%string)).
Proof.
  intros Hr Hla.
  assert (Hlk : la_kind p = Ok (Token.kind tk))
    by (unfold la_kind; rewrite Hla; reflexivity).
  split; [|split]; [intro Hk|intro Hk|].
  - destruct (Get_ready Hr) as (p' & Hc & _ & H1 & H2 & _ & H4 & _ & H6).
    exists p'. split; [|split; [congruence|auto]].
    eapply converges_ext; [|exact Hc].
    intro fuel. unfold Expect. rewrite Hlk. simpl.
    apply Z.eqb_eq in Hk. rewrite Hk. reflexivity.
  - pose proof (SynErr_eq n p Hla) as Hs.
    eexists. split; [|split; [exact Hs|]].
    + intro fuel. unfold Expect. rewrite Hlk. simpl.
      apply Z.eqb_neq in Hk. rewrite Hk. exact Hs.
    + destruct (minErrDist <=? errDist p); simpl; auto 10.
  - split; [reflexivity|].
    intro Hn. unfold Errors.strerror.
    destruct n as [|q|q]; [lia| |reflexivity].
    do 4 (try destruct q as [q|q|]); try reflexivity; lia.
Qed.

Lemma Expect_consumes_or_reports_witness :
  (exists p',
      converges (fun fuel => @Expect exampleHeader fuel 12 state_at_rparen) p' /\
      deref p' (t p') = Ok (tok 12 3 ")")) /\
  (exists p',
      (forall fuel, @Expect exampleHeader fuel 6 state_at_rparen = Ok p') /\
      la p' = la state_at_rparen /\ errors p' = errors state_at_rparen) /\
  (exists p',
      (forall fuel, @Expect exampleHeader fuel 6 state_at_number = Ok p') /\
      la p' = la state_at_number /\
      errors p' =
        Errors.mk 1 [(1, 1, String (ascii_of_nat 34)
                              ("}" ++ String (ascii_of_nat 34) " expected"))%string]) /\
  Errors.strerror 16 = "error 16".
Proof.
  assert (Hr : forall tk pend d, ready (midParser tk pend d)).
  { intros. split; [eexists; reflexivity|discriminate]. }
  split; [|split; [|split]].
  - destruct (proj1 (@Expect_consumes_or_reports exampleHeader 12 state_at_rparen
                       (tok 12 3 ")") (Hr _ _ _) eq_refl) eq_refl)
      as (p' & Hc & Ht & _).
    exists p'. split; assumption.
  - destruct (proj1 (proj2 (@Expect_consumes_or_reports exampleHeader 6 state_at_rparen
                       (tok 12 3 ")") (Hr _ _ _) eq_refl)))
      as (p' & He & _ & Hl & _ & _ & _ & _ & Herr); [discriminate|].
    exists p'. split; [exact He|split; [exact Hl|exact Herr]].
  - destruct (proj1 (proj2 (@Expect_consumes_or_reports exampleHeader 6 state_at_number
                       (tok 4 0 "1") (Hr _ _ _) eq_refl)))
      as (p' & He & _ & Hl & _ & _ & _ & _ & Herr); [discriminate|].
    exists p'. split; [exact He|split; [exact Hl|]].
    rewrite Herr. reflexivity.
  - apply (proj2 (proj2 (proj2 (@Expect_consumes_or_reports exampleHeader 16
                                   state_at_number (tok 4 0 "1") (Hr _ _ _) eq_refl)))).
    lia.
Defined.

(** C7, as the specification states it, fails: a lookahead of another
    kind does not always bring a diagnostic.  With [)] as lookahead, one
    token after the last error and [minErrDist] 2, [Expect] for ['}']
    (kind 6) finds a mismatch, leaves the lookahead in place and writes
    nothing: the [Errors] object is as it was. *)
Lemma Expect_mismatch_without_diagnostic :
  (exists p',
      (forall fuel, @Expect exampleHeader fuel 6 state_at_rparen = Ok p') /\
      la_kind state_at_rparen = Ok 12 /\
      la p' = la state_at_rparen /\
      errors p' = errors state_at_rparen /\
      Errors.count (errors p') = 0 /\ Errors.log (errors p') = []) /\
  ~ (forall fuel n p p' k,
        @Expect exampleHeader fuel n p = Ok p' ->
        la_kind p = Ok k -> k <> n ->
        List.length (Errors.log (errors p'))
        = S (List.length (Errors.log (errors p)))).
Proof.
  split.
  - eexists. split; [intro fuel; reflexivity|]. repeat split; reflexivity.
  - intro H.
    specialize (H 0%nat 6 state_at_rparen _ 12 eq_refl eq_refl ltac:(discriminate)).
    discriminate.
Qed.

(** C9.  [calcEntry] sets the result to 0 before it looks at a token.
    When the lookahead starts neither alternative (it is not ['{'] and
    not a variable, a number, ['-'] or ['(']), [calcEntry] consumes
    nothing, hands the diagnostic 14 to [SynErr] and leaves the result at
    0; on a freshly constructed parser the diagnostic is written:
    [Parse] ends with exactly one more diagnostic, [invalid calcEntry]
    at the first token of the input, and with the result 0, whatever the
    result held before. *)
Theorem calcEntry_no_alternative (hdr : ParserHeader) :
  (forall p tk fuel,
      deref p (la p) = Ok tk ->
      0 <= Token.kind tk < 15 -> ~ In (Token.kind tk) [5; 3; 4; 8; 11] ->
      exists p',
        calcEntry fuel p = Ok p' /\
        val p' = 0%float /\
        la p' = la p /\ t p' = t p /\ scanner p' = scanner p /\
        errors p' =
          (if minErrDist <=? errDist p
           then Errors.mk (wrap32 (Errors.count (errors p) + 1))
                          (Errors.log (errors p)
                           ++ [(Token.line tk, Token.col tk, "invalid calcEntry"%string)])
           else errors p)) /\
  (forall sc err val0,
      0 <= next_kind (Scanner.pending sc) ->
      ~ In (next_kind (Scanner.pending sc)) [5; 3; 4; 8; 11] ->
      minErrDist < INT_MAX ->
      exists p' tk,
        converges (fun fuel => Parse fuel (newParser sc err val0)) p' /\
        val p' = 0%float /\
        la p' = ScannedPtr tk /\
        tk = fst (next_terminal (Scanner.bufPos sc) (Scanner.pending sc)) /\
        Errors.log (errors p') =
          Errors.log (errors (newParser sc err val0))
          ++ [(Token.line tk, Token.col tk, "invalid calcEntry"%string)] /\
        Errors.count (errors p') =
          wrap32 (Errors.count (errors (newParser sc err val0)) + 1)).
Proof.
  assert (Hcalc : forall p tk fuel,
      deref p (la p) = Ok tk ->
      0 <= Token.kind tk < 15 -> ~ In (Token.kind tk) [5; 3; 4; 8; 11] ->
      calcEntry fuel p = SynErr 14 (with_val 0%float p)).
  { intros p tk fuel Hla Hk Hn.
    assert (Hlk : la_kind (with_val 0%float p) = Ok (Token.kind tk)).
    { unfold la_kind.
      change (deref (with_val 0%float p) (la (with_val 0%float p)))
        with (deref p (la p)).
      rewrite Hla. reflexivity. }
    rewrite calcEntry_eq, Hlk. simpl.
    rewrite (StartOf_defined 1 _ _ Hlk Hk ltac:(lia)).
    simpl in Hn.
    assert (Hcases : Token.kind tk = 0 \/ Token.kind tk = 1 \/ Token.kind tk = 2 \/
                     Token.kind tk = 6 \/ Token.kind tk = 7 \/ Token.kind tk = 9 \/
                     Token.kind tk = 10 \/ Token.kind tk = 12 \/ Token.kind tk = 13 \/
                     Token.kind tk = 14) by lia.
    repeat (destruct Hcases as [E|Hcases]; [rewrite E; reflexivity|]).
    rewrite Hcases. reflexivity. }
  split.
  - intros p tk fuel Hla Hk Hn.
    rewrite (Hcalc p tk fuel Hla Hk Hn).
    rewrite (SynErr_eq 14 (with_val 0%float p) Hla).
    eexists. split; [reflexivity|].
    simpl. destruct (minErrDist <=? errDist p); simpl; auto 10.
  - intros sc err val0 H0 Hn Hmax.
    destruct (Parse_first_Get (newParser sc err val0))
      as (p1 & Hc1 & Hr1 & Hat1 & He1 & _ & Hd1 & _).
    simpl in Hat1, Hd1.
    destruct Hat1 as (bp & Hla1 & Hsc1).
    assert (Hbp : fst (next_terminal bp (Scanner.pending sc)) =
                  fst (next_terminal (Scanner.bufPos sc) (Scanner.pending sc))).
    { destruct Hc1 as [n0 Hc1]. specialize (Hc1 n0 (Nat.le_refl _)).
      apply Get_returns in Hc1. destruct Hc1 as (Hla & _). simpl in Hla.
      rewrite Hla in Hla1. injection Hla1 as Hla1. symmetry. exact Hla1. }
    rewrite Hbp in Hla1.
    set (tk := fst (next_terminal (Scanner.bufPos sc) (Scanner.pending sc))) in *.
    assert (Hktk : Token.kind tk = next_kind (Scanner.pending sc))
      by apply next_kind_bp.
    assert (Hderef : deref p1 (la p1) = Ok tk) by (rewrite Hla1; reflexivity).
    pose proof (next_terminal_kind (Scanner.bufPos sc) (Scanner.pending sc)) as Hle.
    fold tk in Hle. unfold maxT in Hle.
    pose proof (@minErrDist_int hdr) as Hint.
    rewrite wrap32_id in Hd1 by (unfold INT_MIN, INT_MAX in *; lia).
    assert (Hrep : (minErrDist <=? errDist p1) = true) by (apply Z.leb_le; lia).
    exists (with_errDist 0
              (with_errors (Errors.SynErr (Token.line tk) (Token.col tk) 14 (errors p1))
                           (with_val 0%float p1))), tk.
    split; [|split; [reflexivity|split; [exact Hla1|split; [reflexivity|]]]].
    + eapply converges_ext; [intro; apply Parse_eq|].
      eapply converges_bind; [exact Hc1|].
      exists 0%nat. intros n _.
      rewrite (Hcalc p1 tk n Hderef) by (rewrite ?Hktk; auto; lia).
      rewrite (SynErr_eq 14 (with_val 0%float p1) Hderef).
      simpl. rewrite Hrep. reflexivity.
    + simpl. rewrite He1. split; reflexivity.
Qed.

Lemma calcEntry_no_alternative_witness :
  (exists p',
      @calcEntry exampleHeader 0 state_at_rparen = Ok p' /\
      val p' = 0%float /\ la p' = la state_at_rparen /\
      errors p' = errors state_at_rparen) /\
  exists p',
    converges (fun fuel => @Parse exampleHeader fuel (exampleParser [] 0)) p' /\
    val p' = 0%float /\
    Errors.log (errors p') = [(0, 0, "invalid calcEntry"%string)] /\
    Errors.count (errors p') = 1.
Proof.
  split.
  - destruct (proj1 (calcEntry_no_alternative exampleHeader)
                state_at_rparen (tok 12 3 ")") 0%nat)
      as (p' & Hc & Hv & Hl & _ & _ & He).
    + reflexivity.
    + simpl. lia.
    + simpl. intuition discriminate.
    + exists p'. split; [exact Hc|]. split; [exact Hv|]. split; [exact Hl|exact He].
  - destruct (proj2 (calcEntry_no_alternative exampleHeader)
                (Scanner.mk [] 0) None 0%float)
      as (p' & tk & Hc & Hv & _ & Htk & Hlog & Hcount).
    + vm_compute. discriminate.
    + vm_compute. intuition discriminate.
    + reflexivity.
    + exists p'. subst tk. auto.
Defined.

(** C10.  The constructor sets [errDist] to [minErrDist], so the first
    error of a parser is not suppressed: in every run of a freshly
    constructed parser (and [Parse] is such a run) the first call of
    [SynErr] or [SemErr] is a reported one, as long as fewer than 2^31
    tokens came before it; and a call of [SynErr] or [SemErr] at a
    distance of [minErrDist] or more adds one to the error count and
    writes its diagnostic. *)
Theorem first_error_is_reported (hdr : ParserHeader) :
  (forall sc err val0, errDist (newParser sc err val0) = minErrDist) /\
  (forall fuel sc err val0 p',
      Parse fuel (newParser sc err val0) = Ok p' ->
      exists tr, run (newParser sc err val0) tr p') /\
  (forall sc err val0 tr p' a r b,
      run (newParser sc err val0) tr p' ->
      tr = a ++ EvErr r :: b -> error_free a = true ->
      minErrDist + Z.of_nat (gets a) <= INT_MAX ->
      r = true) /\
  (forall n p tk,
      minErrDist <= errDist p -> deref p (la p) = Ok tk ->
      exists p',
        SynErr n p = Ok p' /\
        Errors.count (errors p') = wrap32 (Errors.count (errors p) + 1) /\
        Errors.log (errors p') =
          Errors.log (errors p) ++ [(Token.line tk, Token.col tk, Errors.strerror n)]) /\
  (forall msg p tk,
      minErrDist <= errDist p -> deref p (t p) = Ok tk ->
      exists p',
        SemErr msg p = Ok p' /\
        Errors.count (errors p') = wrap32 (Errors.count (errors p) + 1) /\
        Errors.log (errors p') =
          Errors.log (errors p) ++ [(Token.line tk, Token.col tk, msg)]).
Proof.
  split; [reflexivity|]. split; [|split; [|split]].
  - intros fuel sc err val0 p' H. eapply Parse_run; exact H.
  - intros sc err val0 tr p' a r b Hrun -> Hf Hmax.
    eapply run_first_error; [exact Hrun|exact Hf|simpl; lia|simpl; exact Hmax].
  - intros n p tk Hd Hla. rewrite (SynErr_eq n p Hla).
    apply Z.leb_le in Hd. rewrite Hd. eexists. split; [reflexivity|]. split; reflexivity.
  - intros msg p tk Hd Hla. unfold SemErr. rewrite Hla.
    apply Z.leb_le in Hd. rewrite Hd. eexists. split; [reflexivity|]. split; reflexivity.
Qed.

Lemma first_error_is_reported_witness :
  errDist (exampleParser input_minus_number 0) = 2 /\
  (exists p' r,
      @Parse exampleHeader 20 (exampleParser [] 0) = Ok p' /\
      @run exampleHeader (exampleParser [] 0) [EvGet; EvErr r] p' /\
      r = true) /\
  (exists p',
      @SynErr exampleHeader 11 state_at_number = Ok p' /\
      Errors.count (errors p') = 1 /\
      Errors.log (errors p') = [(1, 1, Errors.strerror 11)]) /\
  (exists p',
      @SemErr exampleHeader "no such variable" state_at_number = Ok p' /\
      Errors.count (errors p') = 1).
Proof.
  split; [|split; [|split]].
  - exact (proj1 (first_error_is_reported exampleHeader) _ _ _).
  - assert (Hrun : exists p',
               @Parse exampleHeader 20 (exampleParser [] 0) = Ok p' /\
               @run exampleHeader (exampleParser [] 0) [EvGet; EvErr true] p').
    { eexists. split; [vm_compute; reflexivity|].
      eapply run_silent; [apply step_start|].
      eapply run_event; [apply step_Get with (fuel := 1%nat); reflexivity|].
      eapply run_silent; [apply step_assign with (v := 0%float)|].
      eapply run_event; [apply (@step_SynErr exampleHeader 14); reflexivity|].
      apply run_done. }
    destruct Hrun as (p' & HP & Hrun).
    pose proof (proj1 (proj2 (proj2 (first_error_is_reported exampleHeader)))
                  (Scanner.mk [] 0) None 0%float [EvGet; EvErr true] p'
                  [EvGet] true [] Hrun eq_refl eq_refl
                  ltac:(vm_compute; discriminate)) as Hrep.
    exists p', true.
    split; [exact HP|]. split; [exact Hrun|exact Hrep].
  - destruct (proj1 (proj2 (proj2 (proj2 (first_error_is_reported exampleHeader))))
                11 state_at_number (tok 4 0 "1")) as (p' & Hs & Hc & Hl).
    + vm_compute. discriminate.
    + reflexivity.
    + exists p'. split; [exact Hs|split; [exact Hc|exact Hl]].
  - destruct (proj2 (proj2 (proj2 (proj2 (first_error_is_reported exampleHeader))))
                "no such variable"%string state_at_number
                (Token.with_val "Dummy Token" Token.new)) as (p' & Hs & Hc & _).
    + vm_compute. discriminate.
    + reflexivity.
    + exists p'. split; [exact Hs|exact Hc].
Defined.

(** C3.  [errDist] is set to 0 by every call of [SynErr] and [SemErr] and
    goes up by one (in 32-bit arithmetic) with every call of [Get] that
    returns, which ends on a token of a kind at most [maxT]; [SynErr] and
    [SemErr] add to the error count exactly when [errDist] has reached
    [minErrDist].  [Parse] is a run of calls of [Get], [SynErr] and
    [SemErr], and in every run any two reported diagnostics have at least
    [minErrDist] calls of [Get] between them. *)
Theorem errDist_discipline (hdr : ParserHeader) :
  (forall n p p',
      SynErr n p = Ok p' ->
      errDist p' = 0 /\
      Errors.count (errors p') =
        (if minErrDist <=? errDist p
         then wrap32 (Errors.count (errors p) + 1)
         else Errors.count (errors p))) /\
  (forall msg p p',
      SemErr msg p = Ok p' ->
      errDist p' = 0 /\
      Errors.count (errors p') =
        (if minErrDist <=? errDist p
         then wrap32 (Errors.count (errors p) + 1)
         else Errors.count (errors p))) /\
  (forall fuel p p',
      Get fuel p = Ok p' ->
      errDist p' = wrap32 (errDist p + 1) /\
      (INT_MIN <= errDist p < INT_MAX -> errDist p' = errDist p + 1) /\
      errors p' = errors p /\
      exists tok, la p' = ScannedPtr tok /\ Token.kind tok <= maxT) /\
  (forall fuel p p',
      Parse fuel p = Ok p' ->
      exists tr,
        run p tr p' /\
        List.length (Errors.log (errors p')) =
          (List.length (Errors.log (errors p)) + reports tr)%nat) /\
  (forall p tr p', run p tr p' -> separated tr).
Proof.
  split; [|split; [|split; [|split]]].
  - intros n p p' H. apply SynErr_returns in H.
    destruct H as (H0 & _ & _ & _ & _ & _ & He). split; [exact H0|].
    destruct (minErrDist <=? errDist p).
    + destruct He as (tk & _ & ->). reflexivity.
    + rewrite He. reflexivity.
  - intros msg p p' H. apply SemErr_returns in H.
    destruct H as (H0 & _ & _ & _ & _ & _ & He). split; [exact H0|].
    destruct (minErrDist <=? errDist p).
    + destruct He as (tk & _ & ->). reflexivity.
    + rewrite He. reflexivity.
  - intros fuel p p' H. apply Get_returns in H.
    destruct H as (Hla & _ & Hd & He & _).
    split; [exact Hd|]. split; [|split; [exact He|]].
    + intro Hr. rewrite Hd. apply wrap32_id. unfold INT_MIN, INT_MAX in *. lia.
    + eexists. split; [exact Hla|apply next_terminal_kind].
  - intros fuel p p' H. apply Parse_run in H. destruct H as [tr H].
    exists tr. split; [exact H|]. apply (run_reports H).
  - intros p tr p' H. eapply run_separated; exact H.
Qed.

Lemma errDist_discipline_witness :
  (exists p',
      @SynErr exampleHeader 12 state_at_rparen = Ok p' /\
      errDist p' = 0 /\ Errors.count (errors p') = 0) /\
  (exists p',
      @SemErr exampleHeader "no such variable" state_at_number = Ok p' /\
      errDist p' = 0 /\ Errors.count (errors p') = 1) /\
  (exists p',
      Get 4 state_before_pragmas = Ok p' /\ errDist p' = 3) /\
  exists p' tr,
    @Parse exampleHeader 20 (exampleParser input_minus_number 0) = Ok p' /\
    @run exampleHeader (exampleParser input_minus_number 0) tr p' /\
    @separated exampleHeader tr /\
    reports tr = 1%nat /\
    errDist p' = 1.
Proof.
  split; [|split; [|split]].
  - assert (H : exists p', @SynErr exampleHeader 12 state_at_rparen = Ok p')
      by (eexists; reflexivity).
    destruct H as (p' & H). exists p'. split; [exact H|].
    exact (proj1 (errDist_discipline exampleHeader) 12 state_at_rparen p' H).
  - assert (H : exists p',
               @SemErr exampleHeader "no such variable" state_at_number = Ok p')
      by (eexists; reflexivity).
    destruct H as (p' & H). exists p'. split; [exact H|].
    exact (proj1 (proj2 (errDist_discipline exampleHeader))
             "no such variable"%string state_at_number p' H).
  - assert (H : exists p', Get 4 state_before_pragmas = Ok p')
      by (eexists; vm_compute; reflexivity).
    destruct H as (p' & H). exists p'. split; [exact H|].
    destruct (proj1 (proj2 (proj2 (errDist_discipline exampleHeader)))
                4%nat state_before_pragmas p' H) as (_ & Hd & _).
    apply Hd. vm_compute. split; [discriminate|reflexivity].
  - assert (H : exists p', @Parse exampleHeader 20 (exampleParser input_minus_number 0)
                           = Ok p' /\
                           List.length (Errors.log (errors p')) = 1%nat /\
                           errDist p' = 1).
    { eexists. split; [vm_compute; reflexivity|]. split; reflexivity. }
    destruct H as (p' & HP & Hlen & Hd).
    destruct (proj1 (proj2 (proj2 (proj2 (errDist_discipline exampleHeader))))
                20%nat _ p' HP) as (tr & Hrun & Hrep).
    exists p', tr. split; [exact HP|]. split; [exact Hrun|]. split; [|split].
    + exact (proj2 (proj2 (proj2 (proj2 (errDist_discipline exampleHeader))))
               _ _ _ Hrun).
    + rewrite Hlen in Hrep. simpl in Hrep. lia.
    + exact Hd.
Defined.

(** C2.  On every input that is a phrase of the grammar, [Parse] returns
    without a diagnostic and its result is the value of the phrase:
    [eval_expr], the evaluation in which [Expr] seeds an accumulator from
    its first [Term] and folds every further plus-or-minus [Term] into
    it from the left, [Term] does the same with its times-or-over
    [Factor]s, and a parenthesis or a negated parenthesis is evaluated
    first.  This holds
    for the bare and for the braced form, and [2+3*4], [(2+3)*4] and
    [-(2+3)] evaluate to 14, 20 and -5. *)
Theorem Parse_evaluates :
  (forall (hdr : ParserHeader) e bp err val0,
      exists p',
        converges
          (fun fuel => Parse fuel (newParser (Scanner.mk (tokens_of_expr e) bp) err val0))
          p' /\
        val p' = eval_expr e /\
        errors p' = errors (newParser (Scanner.mk (tokens_of_expr e) bp) err val0)) /\
  (forall (hdr : ParserHeader) lb e rb rest bp err val0,
      exists p',
        converges
          (fun fuel =>
             Parse fuel
                   (newParser
                      (Scanner.mk (terminal 5 lb :: tokens_of_expr e
                                     ++ terminal 6 rb :: rest) bp) err val0))
          p' /\
        val p' = eval_expr e /\
        errors p' =
          errors (newParser
                    (Scanner.mk (terminal 5 lb :: tokens_of_expr e
                                   ++ terminal 6 rb :: rest) bp) err val0)) /\
  (exists p',
      @Parse exampleHeader 20 (exampleParser input_sum_product 0) = Ok p' /\
      val p' = 14%float /\ Errors.count (errors p') = 0) /\
  (exists p',
      @Parse exampleHeader 20 (exampleParser input_paren_product 0) = Ok p' /\
      val p' = 20%float /\ Errors.count (errors p') = 0) /\
  (exists p',
      @Parse exampleHeader 20 (exampleParser input_negation 0) = Ok p' /\
      val p' = (-5)%float /\ Errors.count (errors p') = 0).
Proof.
  split; [|split; [|split; [|split]]].
  - intros hdr e bp err val0.
    apply (@Parse_bare hdr e []).
    + simpl. symmetry. apply app_nil_r.
    + reflexivity.
  - intros hdr lb e rb rest bp err val0.
    destruct (@Parse_braced hdr lb rb e rest
                (newParser (Scanner.mk (terminal 5 lb :: tokens_of_expr e
                                          ++ terminal 6 rb :: rest) bp) err val0)
                eq_refl) as (p' & Hc & Hv & He & _).
    exists p'. auto.
  - eexists. split; [vm_compute; reflexivity|]. split; reflexivity.
  - eexists. split; [vm_compute; reflexivity|]. split; reflexivity.
  - eexists. split; [vm_compute; reflexivity|]. split; reflexivity.
Qed.

(** C5.  A divisor that evaluates to zero is not an error.  Every phrase
    of the grammar, bare or between braces, is parsed without a
    diagnostic whatever its divisors are worth, so also every phrase
    with a zero divisor anywhere in it, and the value that [Parse]
    returns is the value of the phrase, in which every ['/'] clause
    divides what [Term] has accumulated by the value of its [Factor]
    with the division of the host's floating-point numbers.  That
    division by a zero of either sign is the one of IEEE 754: an infinity
    with the product of the signs for a dividend that is finite and not
    zero or is an infinity, and a NaN for a dividend that is a zero or a
    NaN.  [1/0], [{1/0}], [2*3/0] and [1+1/0] give infinity, [1/-(0)]
    gives minus infinity and [0/0] a NaN, all with an error count of 0. *)
Theorem division_by_zero_is_not_an_error :
  (forall (hdr : ParserHeader) e bp err val0,
      exists p',
        converges
          (fun fuel => Parse fuel (newParser (Scanner.mk (tokens_of_expr e) bp) err val0))
          p' /\
        val p' = eval_expr e /\
        errors p' = errors (newParser (Scanner.mk (tokens_of_expr e) bp) err val0)) /\
  (forall (hdr : ParserHeader) lb e rb rest bp err val0,
      exists p',
        converges
          (fun fuel =>
             Parse fuel
                   (newParser
                      (Scanner.mk (terminal 5 lb :: tokens_of_expr e
                                     ++ terminal 6 rb :: rest) bp) err val0))
          p' /\
        val p' = eval_expr e /\
        errors p' =
          errors (newParser
                    (Scanner.mk (terminal 5 lb :: tokens_of_expr e
                                   ++ terminal 6 rb :: rest) bp) err val0)) /\
  (forall (hdr : ParserHeader) acc op f tl,
      eval_term_tail acc (T_over op f tl)
      = eval_term_tail (acc / eval_factor f)%float tl) /\
  (forall (x y : float) (s : bool),
      Prim2SF y = S754_zero s ->
      Prim2SF (x / y) =
      match Prim2SF x with
      | S754_finite sx _ _ => S754_infinity (xorb sx s)
      | S754_infinity sx => S754_infinity (xorb sx s)
      | S754_zero _ => S754_nan
      | S754_nan => S754_nan
      end) /\
  (exists p',
      @Parse exampleHeader 20 (exampleParser input_division_by_zero 0) = Ok p' /\
      val p' = infinity /\
      Errors.count (errors p') = 0 /\ Errors.log (errors p') = []) /\
  (exists p',
      @Parse exampleHeader 20 (exampleParser input_braced_division_by_zero 0) = Ok p' /\
      val p' = infinity /\
      Errors.count (errors p') = 0 /\ Errors.log (errors p') = []) /\
  (exists p',
      @Parse exampleHeader 20 (exampleParser input_product_division_by_zero 0) = Ok p' /\
      val p' = infinity /\
      Errors.count (errors p') = 0 /\ Errors.log (errors p') = []) /\
  (exists p',
      @Parse exampleHeader 20 (exampleParser input_sum_division_by_zero 0) = Ok p' /\
      val p' = infinity /\
      Errors.count (errors p') = 0 /\ Errors.log (errors p') = []) /\
  (exists p',
      @Parse exampleHeader 20 (exampleParser input_division_by_negative_zero 0) = Ok p' /\
      val p' = neg_infinity /\
      Errors.count (errors p') = 0 /\ Errors.log (errors p') = []) /\
  (exists p',
      @Parse exampleHeader 20 (exampleParser input_zero_by_zero 0) = Ok p' /\
      PrimFloat.is_nan (val p') = true /\
      Errors.count (errors p') = 0 /\ Errors.log (errors p') = []).
Proof.
  split; [|split; [|split; [|split]]].
  - intros hdr e bp err val0.
    apply (@Parse_bare hdr e []).
    + simpl. symmetry. apply app_nil_r.
    + reflexivity.
  - intros hdr lb e rb rest bp err val0.
    destruct (@Parse_braced hdr lb rb e rest
                (newParser (Scanner.mk (terminal 5 lb :: tokens_of_expr e
                                          ++ terminal 6 rb :: rest) bp) err val0)
                eq_refl) as (p' & Hc & Hv & He & _).
    exists p'. auto.
  - reflexivity.
  - intros x y s Hy. rewrite div_spec. unfold SF64div, SFdiv. rewrite Hy.
    destruct (Prim2SF x); reflexivity.
  - repeat split; eexists; (split; [vm_compute; reflexivity|]);
      repeat split; reflexivity.
Qed.

Lemma division_by_zero_is_not_an_error_witness :
  (exists p',
      converges
        (fun fuel => @Parse exampleHeader fuel (exampleParser input_division_by_zero 0))
        p' /\
      val p' = infinity /\ Errors.count (errors p') = 0) /\
  (exists p',
      converges
        (fun fuel =>
           @Parse exampleHeader fuel (exampleParser input_braced_division_by_zero 0))
        p' /\
      val p' = infinity /\ Errors.count (errors p') = 0) /\
  Prim2SF (-(3) / -(0))%float = S754_infinity false.
Proof.
  split; [|split].
  - destruct (proj1 division_by_zero_is_not_an_error exampleHeader
                (phrase_one_by_zero 0) 0 None 0%float)
      as (p' & Hc & Hv & He).
    exists p'. split; [exact Hc|]. rewrite Hv, He. split; reflexivity.
  - destruct (proj1 (proj2 division_by_zero_is_not_an_error) exampleHeader
                (lexeme 0 "{") (phrase_one_by_zero 1) (lexeme 4 "}") [] 0 None 0%float)
      as (p' & Hc & Hv & He).
    exists p'. split; [exact Hc|]. rewrite Hv, He. split; reflexivity.
  - rewrite (proj1 (proj2 (proj2 (proj2 division_by_zero_is_not_an_error)))
               (-(3))%float (-(0))%float true eq_refl).
    reflexivity.
Defined.

(** C1, as the code has it.  In the braced branch [calcEntry] always ends
    by setting the cursor of the scanner to [t->pos + length(t->val)]
    (in 32-bit arithmetic) of the token [t] consumed last.  When
    ['{' Expr '}'] is matched, that token is the closing brace, so the
    cursor is the offset immediately after the matched ['}'], wherever
    the scanner had read to: for the buffer [prefix{1+1}suffix] parsed
    from ['{'], the cursor ends at 11, before [suffix]. *)
Theorem calcEntry_repositions :
  (forall (hdr : ParserHeader) fuel p p',
      la_kind p = Ok 5 ->
      calcEntry fuel p = Ok p' ->
      exists tk,
        deref p' (t p') = Ok tk /\
        Scanner.GetPos (scanner p') =
          wrap32 (Token.pos tk + coco_string_length (Token.val tk))) /\
  (forall (hdr : ParserHeader) lb e rb rest p,
      Scanner.pending (scanner p) =
        terminal 5 lb :: tokens_of_expr e ++ terminal 6 rb :: rest ->
      INT_MIN <= lpos rb + coco_string_length (ltext rb) <= INT_MAX ->
      exists p',
        converges (fun fuel => Parse fuel p) p' /\
        val p' = eval_expr e /\ errors p' = errors p /\
        deref p' (t p') = Ok (terminal 6 rb) /\
        Scanner.GetPos (scanner p') = lpos rb + coco_string_length (ltext rb)) /\
  (exists p',
      @Parse exampleHeader 20 (exampleParser input_braced 6) = Ok p' /\
      val p' = 2%float /\ Errors.count (errors p') = 0 /\
      t p' = ScannedPtr (tok 6 10 "}") /\
      la p' = ScannedPtr (tok 1 11 "suffix") /\
      Scanner.GetPos (scanner p') = 11).
Proof.
  split; [|split].
  - intros hdr fuel p p' Hk H. rewrite calcEntry_eq in H.
    change (la_kind (with_val 0%float p)) with (la_kind p) in H.
    rewrite Hk in H. simpl in H.
    apply bind_Ok in H. destruct H as (p1 & _ & H).
    apply bind_Ok in H. destruct H as ([v2 p2] & _ & H).
    apply bind_Ok in H. destruct H as (p3 & _ & H).
    apply bind_Ok in H. destruct H as (tk & Ht & H).
    injection H as <-. exists tk. split; [|reflexivity].
    etransitivity; [|exact Ht]. apply deref_ext. reflexivity.
  - intros hdr lb e rb rest p Hpend Hrange.
    destruct (@Parse_braced hdr lb rb e rest p Hpend)
      as (p' & Hc & Hv & He & Ht & Hpos & _).
    exists p'. rewrite Hpos, wrap32_id by exact Hrange. auto 10.
  - eexists. split; [vm_compute; reflexivity|]. repeat split; reflexivity.
Qed.

Lemma calcEntry_repositions_witness :
  (exists p' tk,
      @calcEntry exampleHeader 10 state_at_lbrace = Ok p' /\
      deref p' (t p') = Ok tk /\
      Scanner.GetPos (scanner p') =
        wrap32 (Token.pos tk + coco_string_length (Token.val tk))) /\
  exists p',
    converges (fun fuel => @Parse exampleHeader fuel (exampleParser input_braced 6)) p' /\
    val p' = 2%float /\
    Scanner.GetPos (scanner p') = 11.
Proof.
  split.
  - assert (H : exists p', @calcEntry exampleHeader 10 state_at_lbrace = Ok p')
      by (eexists; vm_compute; reflexivity).
    destruct H as (p' & H).
    destruct (proj1 calcEntry_repositions exampleHeader 10%nat state_at_lbrace p'
                eq_refl H) as (tk & Ht & Hpos).
    exists p', tk. split; [exact H|]. split; [exact Ht|exact Hpos].
  - destruct (proj1 (proj2 calcEntry_repositions) exampleHeader
                (mkLexeme 6 7 1 "{")
                (Expr_of (Term_of (F_number (mkLexeme 7 8 1 "1")) T_end)
                         (E_plus (mkLexeme 8 9 1 "+")
                                 (Term_of (F_number (mkLexeme 9 10 1 "1")) T_end)
                                 E_end))
                (mkLexeme 10 11 1 "}")
                [tok 1 11 "suffix"]
                (exampleParser input_braced 6))
      as (p' & Hc & Hv & _ & _ & Hpos).
    + reflexivity.
    + vm_compute. split; discriminate.
    + exists p'. split; [exact Hc|]. split; [|exact Hpos].
      rewrite Hv. vm_compute. reflexivity.
Defined.

(** C1, as the specification states it, fails: the repositioning is not
    kept for a match of ['{' Expr '}'].  On [{1 )] the closing brace is
    missing; [Parse] writes the diagnostic for it and still moves the
    cursor, from behind the lookahead [)] (offset 4) back to offset 2,
    behind the number, the last token consumed.  So it is not the case
    that every parse of an input that starts with ['{'] leaves the
    cursor behind a consumed ['}']. *)
Lemma reposition_without_closing_brace :
  (exists p',
      @Parse exampleHeader 20 (exampleParser input_unclosed 0) = Ok p' /\
      Errors.log (errors p') = [(1, 4, Errors.strerror 6)] /\
      t p' = ScannedPtr (tok 4 1 "1") /\
      la p' = ScannedPtr (tok 12 3 ")") /\
      Scanner.GetPos (scanner p') = 2) /\
  ~ (forall fuel sc err val0 p',
        next_kind (Scanner.pending sc) = 5 ->
        @Parse exampleHeader fuel (@newParser exampleHeader sc err val0) = Ok p' ->
        exists rb,
          deref p' (t p') = Ok rb /\ Token.kind rb = 6 /\
          Scanner.GetPos (scanner p') =
            Token.pos rb + coco_string_length (Token.val rb)).
Proof.
  split.
  - eexists. split; [vm_compute; reflexivity|]. repeat split; reflexivity.
  - intro H.
    destruct (H 20%nat (Scanner.mk input_unclosed 0) None 0%float _ eq_refl
                ltac:(vm_compute; reflexivity)) as (rb & Ht & Hk & _).
    simpl in Ht. injection Ht as <-. discriminate.
Qed.

(** C4.  The only negation of the grammar is ['-' '(' Expr ')']: a minus
    sign in the place of a factor that is followed by anything but an
    opening parenthesis (a number or a variable, as in [-3], [-x],
    [2*-3], [(-x)] and [1+2*-3]) is a syntax error.  On every input,
    bare or between braces, in which the tokens before such a minus sign
    are the start of a phrase up to the place of a factor ([eh], at any
    depth of parentheses and behind any operator), and whatever follows
    the operand, [Parse] of a fresh parser returns, its first diagnostic
    is the one for the missing ['('], written at the operand, and the
    error count has gone up by the number of diagnostics written, which
    is at least 1.  The negation of a parenthesis is accepted: its value
    is the negated value of the expression, without a diagnostic. *)
Theorem bare_negation_is_rejected :
  (forall (hdr : ParserHeader) (eh : expr_place) minus tk rest L bp err val0,
      terminals L = tokens_before_expr eh ++ minus :: tk :: rest ->
      Token.kind minus = 8 -> Token.kind tk <> 11 ->
      minErrDist + Z.of_nat (List.length (tokens_before_expr eh)) + 2 <= INT_MAX ->
      INT_MIN <= Errors.count (errors (newParser (Scanner.mk L bp) err val0)) ->
      Errors.count (errors (newParser (Scanner.mk L bp) err val0))
      + 3 * Z.of_nat (List.length L) + 3 <= INT_MAX ->
      exists p' l,
        converges (fun fuel => Parse fuel (newParser (Scanner.mk L bp) err val0)) p' /\
        Errors.log (errors p') =
          Errors.log (errors (newParser (Scanner.mk L bp) err val0))
          ++ (Token.line tk, Token.col tk, Errors.strerror 11) :: l /\
        Errors.count (errors p') =
          Errors.count (errors (newParser (Scanner.mk L bp) err val0))
          + 1 + Z.of_nat (List.length l)) /\
  (forall (hdr : ParserHeader) lb (eh : expr_place) minus tk rest L bp err val0,
      terminals L =
        terminal 5 lb :: tokens_before_expr eh ++ minus :: tk :: rest ->
      Token.kind minus = 8 -> Token.kind tk <> 11 ->
      minErrDist + Z.of_nat (List.length (tokens_before_expr eh)) + 3 <= INT_MAX ->
      INT_MIN <= Errors.count (errors (newParser (Scanner.mk L bp) err val0)) ->
      Errors.count (errors (newParser (Scanner.mk L bp) err val0))
      + 3 * Z.of_nat (List.length L) + 3 <= INT_MAX ->
      exists p' l,
        converges (fun fuel => Parse fuel (newParser (Scanner.mk L bp) err val0)) p' /\
        Errors.log (errors p') =
          Errors.log (errors (newParser (Scanner.mk L bp) err val0))
          ++ (Token.line tk, Token.col tk, Errors.strerror 11) :: l /\
        Errors.count (errors p') =
          Errors.count (errors (newParser (Scanner.mk L bp) err val0))
          + 1 + Z.of_nat (List.length l)) /\
  (forall (hdr : ParserHeader) minus lpar e rpar p,
      Scanner.pending (scanner p) =
        terminal 8 minus :: terminal 11 lpar :: tokens_of_expr e ++ [terminal 12 rpar] ->
      exists p',
        converges (fun fuel => Parse fuel p) p' /\
        val p' = (- eval_expr e)%float /\ errors p' = errors p) /\
  (let quote := String (ascii_of_nat 34) EmptyString in
   let missing := (quote ++ "(" ++ quote ++ " expected")%string in
   Errors.strerror 11 = missing /\
   (exists p',
       @Parse exampleHeader 20 (exampleParser input_minus_number 0) = Ok p' /\
       Errors.count (errors p') = 1 /\
       Errors.log (errors p') = [(1, 2, missing)]) /\
   (exists p',
       @Parse exampleHeader 20 (exampleParser input_minus_variable 0) = Ok p' /\
       Errors.count (errors p') = 1 /\
       Errors.log (errors p') = [(1, 2, missing)]) /\
   (exists p',
       @Parse exampleHeader 20 (exampleParser input_product_minus_number 0) = Ok p' /\
       Errors.count (errors p') = 1 /\
       Errors.log (errors p') = [(1, 4, missing)]) /\
   (exists p' l,
       @Parse exampleHeader 20 (exampleParser input_paren_minus_variable 0) = Ok p' /\
       Errors.count (errors p') = 1 + Z.of_nat (List.length l) /\
       Errors.log (errors p') = (1, 3, missing) :: l) /\
   (exists p',
       @Parse exampleHeader 20 (exampleParser input_sum_product_minus_number 0) = Ok p' /\
       Errors.count (errors p') = 1 /\
       Errors.log (errors p') = [(1, 6, missing)]) /\
   (exists p',
       @Parse exampleHeader 20 (exampleParser input_minus_paren_number 0) = Ok p' /\
       val p' = (-3)%float /\
       Errors.count (errors p') = 0 /\
       Errors.log (errors p') = [])).
Proof.
  assert (Hcount : forall (hdr : ParserHeader) p0 p' d l,
    converges (fun fuel => Parse fuel p0) p' ->
    0 <= next_kind (Scanner.pending (scanner p0)) ->
    Errors.log (errors p') = Errors.log (errors p0) ++ d :: l ->
    INT_MIN <= Errors.count (errors p0) ->
    Errors.count (errors p0)
    + 3 * Z.of_nat (List.length (Scanner.pending (scanner p0))) + 3 <= INT_MAX ->
    Errors.count (errors p') = Errors.count (errors p0) + 1 + Z.of_nat (List.length l)).
  { intros hdr p0 p' d l Hc H0 Hl Hlo Hhi.
    destruct (@Parse_total hdr p0 H0) as (p2 & Hc2 & _ & _ & Hlen).
    rewrite <- (converges_inj Hc Hc2) in Hlen.
    rewrite Hl, length_app in Hlen. simpl List.length in Hlen.
    destruct Hc as [n0 Hc].
    rewrite (@Parse_count hdr n0 p0 p' (d :: l) (Hc n0 (Nat.le_refl _)) Hl Hlo).
    - simpl List.length. lia.
    - simpl List.length. lia. }
  split; [|split; [|split]].
  - intros hdr eh minus tk rest L bp err val0 Hterm Hm Hn11 Hmax Hlo Hhi.
    set (p0 := newParser (Scanner.mk L bp) err val0) in *.
    pose proof (@minErrDist_int hdr) as Hint.
    destruct (Parse_negation_bare eh minus tk rest p0 Hm Hn11 Hterm)
      as (p' & l & Hc & Hl).
    { change (errDist p0) with minErrDist.
      rewrite dist_after_range by lia. lia. }
    exists p', l. split; [exact Hc|]. split; [exact Hl|].
    apply (Hcount hdr p0 p' (Token.line tk, Token.col tk, Errors.strerror 11) l Hc);
      [|exact Hl|exact Hlo|exact Hhi].
    change (Scanner.pending (scanner p0)) with L.
    rewrite <- next_kind_terminals, Hterm.
    pose proof (tokens_before_expr_start eh minus (tk :: rest) Hm) as Hin.
    simpl in Hin. lia.
  - intros hdr lb eh minus tk rest L bp err val0 Hterm Hm Hn11 Hmax Hlo Hhi.
    set (p0 := newParser (Scanner.mk L bp) err val0) in *.
    pose proof (@minErrDist_int hdr) as Hint.
    destruct (Parse_negation_braced lb eh minus tk rest p0 Hm Hn11 Hterm)
      as (p' & l & Hc & Hl).
    { change (errDist p0) with minErrDist.
      rewrite dist_after_range by lia. lia. }
    exists p', l. split; [exact Hc|]. split; [exact Hl|].
    apply (Hcount hdr p0 p' (Token.line tk, Token.col tk, Errors.strerror 11) l Hc);
      [|exact Hl|exact Hlo|exact Hhi].
    change (Scanner.pending (scanner p0)) with L.
    rewrite <- next_kind_terminals, Hterm.
    rewrite next_kind_terminal by (simpl; unfold maxT; lia). simpl. lia.
  - intros hdr minus lpar e rpar p Hpend.
    apply (@Parse_bare hdr
             (Expr_of (Term_of (F_neg minus lpar e rpar) T_end) E_end) [] p);
      [|reflexivity].
    rewrite Hpend. simpl. rewrite !app_nil_r. reflexivity.
  - cbv zeta. split; [reflexivity|].
    split; [eexists; split; [vm_compute; reflexivity|split; reflexivity]|].
    split; [eexists; split; [vm_compute; reflexivity|split; reflexivity]|].
    split; [eexists; split; [vm_compute; reflexivity|split; reflexivity]|].
    split; [eexists; eexists; split;
              [vm_compute; reflexivity|split; [|reflexivity]; reflexivity]|].
    split; [eexists; split; [vm_compute; reflexivity|split; reflexivity]|].
    eexists. split; [vm_compute; reflexivity|]. repeat split; reflexivity.
Qed.

Lemma bare_negation_is_rejected_witness :
  (exists p' l,
      converges
        (fun fuel => @Parse exampleHeader fuel (exampleParser input_product_minus_number 0))
        p' /\
      Errors.log (errors p') = (1, 4, Errors.strerror 11) :: l /\
      Errors.count (errors p') = 1 + Z.of_nat (List.length l)) /\
  (exists p' l,
      converges
        (fun fuel => @Parse exampleHeader fuel
                       (exampleParser input_braced_paren_minus_variable 0))
        p' /\
      Errors.log (errors p') = (1, 6, Errors.strerror 11) :: l /\
      Errors.count (errors p') = 1 + Z.of_nat (List.length l)) /\
  (exists p',
      converges
        (fun fuel => @Parse exampleHeader fuel (exampleParser input_minus_paren_number 0))
        p' /\
      val p' = (-3)%float /\ Errors.log (errors p') = []).
Proof.
  split; [|split].
  - destruct (proj1 bare_negation_is_rejected exampleHeader
                (EP_first (TP_later (F_number (lexeme 0 "2")) T_end true
                                    (lexeme 1 "*") FP_here))
                (tok 8 2 "-") (tok 4 3 "3") [] input_product_minus_number
                0 None 0%float)
      as (p' & l & Hc & Hl & Hn).
    + reflexivity.
    + reflexivity.
    + discriminate.
    + vm_compute. discriminate.
    + vm_compute. discriminate.
    + vm_compute. discriminate.
    + exists p', l. split; [exact Hc|]. split; [exact Hl|exact Hn].
  - destruct (proj1 (proj2 bare_negation_is_rejected) exampleHeader
                (lexeme 0 "{")
                (EP_first (TP_first (FP_paren (lexeme 3 "(")
                                              (EP_first (TP_first FP_here)))))
                (tok 8 4 "-") (tok 3 5 "x") [tok 12 6 ")"; tok 6 7 "}"]
                input_braced_paren_minus_variable 0 None 0%float)
      as (p' & l & Hc & Hl & Hn).
    + reflexivity.
    + reflexivity.
    + discriminate.
    + vm_compute. discriminate.
    + vm_compute. discriminate.
    + vm_compute. discriminate.
    + exists p', l. split; [exact Hc|]. split; [exact Hl|exact Hn].
  - destruct (proj1 (proj2 (proj2 bare_negation_is_rejected)) exampleHeader
                (lexeme 0 "-") (lexeme 1 "(")
                (Expr_of (Term_of (F_number (lexeme 2 "3")) T_end) E_end)
                (lexeme 3 ")") (exampleParser input_minus_paren_number 0) eq_refl)
      as (p' & Hc & Hv & He).
    exists p'. split; [exact Hc|]. split; [rewrite Hv|rewrite He]; reflexivity.
Defined.


(** C6, as the code has it.  [WeakSeparator(n, syFol, repFol)]
    - consumes the lookahead and returns true when its kind is [n];
    - returns false, with no diagnostic and nothing consumed, when the
      separator is missing and the lookahead is in the set [repFol];
    - otherwise hands the diagnostic [n] to [SynErr], skips tokens with
      [Get] until the lookahead is in [syFol], in [repFol] or in set 0
      (the end-marker), which it is after finitely many tokens, and
      returns whether that lookahead is in [syFol]: true means that the
      clause after the separator can start, not that the separator was
      there;
    - in that last case the loop ends at the first terminal, from the
      lookahead on, that one of the three sets holds: that terminal is
      the lookahead on return, the terminals before it are consumed and
      counted by [errDist] from 0, those behind it are still with the
      scanner, the only diagnostic is the one of [SynErr], and the value
      returned is whether [syFol] holds that terminal;
    - when no terminal left is in one of the sets, the loop ends at the
      end-marker with the input used up, and the value returned is
      whether [syFol] holds the end-marker. *)
Theorem WeakSeparator_resynchronizes (hdr : ParserHeader)
        (n syFol repFol : Z) (p : Parser) (tk : Token) :
  ready p -> deref p (la p) = Ok tk ->
  (Token.kind tk = n ->
   exists p',
     converges (fun fuel => WeakSeparator fuel n syFol repFol p) (true, p') /\
     converges (fun fuel => Get fuel p) p' /\
     deref p' (t p') = Ok tk) /\
  (Token.kind tk <> n -> StartOf repFol p = Ok true ->
   forall fuel, WeakSeparator fuel n syFol repFol p = Ok (false, p)) /\
  (Token.kind tk <> n -> StartOf repFol p = Ok false ->
   0 <= syFol < 2 ->
   Forall (fun tok => 0 <= Token.kind tok) (Scanner.pending (scanner p)) ->
   exists p1 p' b,
     SynErr n p = Ok p1 /\
     converges (fun fuel => WeakSeparator_skip fuel syFol repFol p1) p' /\
     converges (fun fuel => WeakSeparator fuel n syFol repFol p) (b, p') /\
     WeakSeparator_sync syFol repFol p' = Ok true /\
     StartOf syFol p' = Ok b) /\
  (Token.kind tk <> n -> StartOf repFol p = Ok false ->
   0 <= syFol < 2 ->
   forall pre tok post,
     tk :: terminals (Scanner.pending (scanner p)) = pre ++ tok :: post ->
     forallb (passed_by syFol repFol) pre = true ->
     synchronizes_at syFol repFol tok = true ->
     exists p',
       converges (fun fuel => WeakSeparator fuel n syFol repFol p)
                 (in_set syFol (Token.kind tok), p') /\
       deref p' (la p') = Ok tok /\
       terminals (Scanner.pending (scanner p')) = post /\
       errors p' =
         (if minErrDist <=? errDist p
          then Errors.SynErr (Token.line tk) (Token.col tk) n (errors p)
          else errors p) /\
       val p' = val p /\
       errDist p' = dist_after (List.length pre) 0) /\
  (Token.kind tk <> n -> StartOf repFol p = Ok false ->
   0 <= syFol < 2 ->
   forallb (passed_by syFol repFol)
           (tk :: terminals (Scanner.pending (scanner p))) = true ->
   exists p' tk',
     converges (fun fuel => WeakSeparator fuel n syFol repFol p)
               (in_set syFol 0, p') /\
     deref p' (la p') = Ok tk' /\ Token.kind tk' = 0 /\
     Scanner.pending (scanner p') = [] /\
     errors p' =
       (if minErrDist <=? errDist p
        then Errors.SynErr (Token.line tk) (Token.col tk) n (errors p)
        else errors p) /\
     errDist p' =
       dist_after (S (List.length (terminals (Scanner.pending (scanner p))))) 0).
Proof.
  intros Hr Hla.
  assert (Hlk : la_kind p = Ok (Token.kind tk))
    by (unfold la_kind; rewrite Hla; reflexivity).
  assert (Hrange : StartOf repFol p = Ok false ->
                   0 <= Token.kind tk < 15 /\ 0 <= repFol < 2).
  { intro Hrep. unfold StartOf in Hrep. rewrite Hlk in Hrep. simpl in Hrep.
    destruct (0 <=? repFol) eqn:E1; [|discriminate].
    destruct (repFol <? 2) eqn:E2; [|discriminate].
    destruct (0 <=? Token.kind tk) eqn:E3; [|discriminate].
    destruct (Token.kind tk <? 15) eqn:E4; [|discriminate].
    apply Z.leb_le in E1, E3. apply Z.ltb_lt in E2, E4. lia. }
  assert (Hstart : Token.kind tk <> n -> StartOf repFol p = Ok false ->
                   exists p1,
                     (forall fuel, WeakSeparator fuel n syFol repFol p =
                        (p' <- WeakSeparator_skip fuel syFol repFol p1 ;;
                         b <- StartOf syFol p' ;; Ok (b, p'))) /\
                     ready p1 /\ deref p1 (la p1) = Ok tk /\
                     scanner p1 = scanner p /\ errDist p1 = 0 /\
                     val p1 = val p /\
                     errors p1 =
                       (if minErrDist <=? errDist p
                        then Errors.SynErr (Token.line tk) (Token.col tk) n (errors p)
                        else errors p)).
  { intros Hk Hrep. exists (after_SynErr_at n tk p).
    destruct (after_SynErr_at_frame n tk p) as (Fla & Ft & Fsc & Fdm & Fv & Fd).
    split; [|split; [apply ready_after_SynErr_at; exact Hr|
             split; [rewrite deref_after_SynErr_at, Fla; exact Hla|
             split; [exact Fsc|split; [exact Fd|split; [exact Fv|]]]]]].
    - intro fuel. unfold WeakSeparator. rewrite Hlk. simpl.
      apply Z.eqb_neq in Hk. rewrite Hk, Hrep, (SynErr_eq n p Hla). reflexivity.
    - unfold after_SynErr_at. destruct (minErrDist <=? errDist p); reflexivity. }
  split; [|split; [|split; [|split]]].
  - intro Hk. destruct (Get_ready Hr) as (p' & Hc & _ & _ & _ & _ & _ & _ & Ht).
    exists p'. split; [|split; [exact Hc|congruence]].
    eapply converges_ext.
    { intro fuel. unfold WeakSeparator. rewrite Hlk. simpl.
      apply Z.eqb_eq in Hk. rewrite Hk. reflexivity. }
    eapply converges_bind; [exact Hc|]. apply converges_ret.
  - intros Hk Hrep fuel. unfold WeakSeparator. rewrite Hlk. simpl.
    apply Z.eqb_neq in Hk. rewrite Hk, Hrep. reflexivity.
  - intros Hk Hrep Hs Hnn.
    destruct (Hrange Hrep) as [Hkr Hrp].
    destruct (@SynErr_advances hdr n p Hr) as (p1 & Hs1 & Hr1 & _).
    pose proof (@SynErr_returns hdr n p p1 Hs1) as (_ & Hl1 & _ & Hsc1 & Hd1 & _).
    assert (Hlk1 : la_kind p1 = Ok (Token.kind tk)).
    { unfold la_kind. rewrite Hl1, (deref_ext p1 p _ Hd1), Hla. reflexivity. }
    rewrite <- Hsc1 in Hnn.
    destruct (@WeakSeparator_skip_total syFol repFol _ p1 (Token.kind tk)
                (Nat.le_refl _) Hr1 Hlk1 Hkr Hnn Hs Hrp)
      as (p' & Hc & Hr' & Hsync & (k' & Hk' & Hk'r) & _).
    exists p1, p', (nth (Z.to_nat k') (nth (Z.to_nat syFol) set []) false).
    pose proof (StartOf_defined syFol p' k' Hk' Hk'r Hs) as Hso.
    split; [exact Hs1|]. split; [exact Hc|]. split; [|split; [exact Hsync|exact Hso]].
    eapply converges_ext.
    { intro fuel. unfold WeakSeparator. rewrite Hlk. simpl.
      apply Z.eqb_neq in Hk. rewrite Hk, Hrep, Hs1. simpl. reflexivity. }
    eapply converges_bind; [exact Hc|]. simpl.
    eapply converges_ext; [intro; rewrite Hso; simpl; reflexivity|].
    apply converges_ret.
  - intros Hk Hrep Hs pre tok post Hl Hpre Hstop.
    destruct (Hrange Hrep) as [Hkr Hrp].
    destruct (Hstart Hk Hrep) as (p1 & Heq & Hr1 & Hla1 & Hsc1 & Hd1 & Hv1 & He1).
    rewrite <- Hsc1 in Hl.
    destruct (WeakSeparator_skip_to syFol repFol pre p1 tk tok post
                Hr1 Hla1 Hs Hrp Hl Hpre Hstop)
      as (p' & Hc & Hr' & Hla' & Hp' & He' & Hv' & Hd').
    destruct (synchronizes_at_spec _ _ _ Hstop) as [Hkt _].
    exists p'.
    split; [|split; [exact Hla'|split; [exact Hp'|split; [congruence|split]]]].
    + eapply converges_ext; [exact Heq|].
      eapply converges_bind; [exact Hc|]. simpl.
      rewrite (StartOf_in_set syFol p' tok Hla' Hs Hkt). apply converges_ret.
    + congruence.
    + rewrite Hd', Hd1. reflexivity.
  - intros Hk Hrep Hs Hpre.
    destruct (Hrange Hrep) as [Hkr Hrp].
    destruct (Hstart Hk Hrep) as (p1 & Heq & Hr1 & Hla1 & Hsc1 & Hd1 & Hv1 & He1).
    destruct (WeakSeparator_skip_to_end syFol repFol
                (tk :: terminals (Scanner.pending (scanner p))) p1 tk
                Hr1 Hla1 Hs Hrp ltac:(rewrite Hsc1; reflexivity) Hpre)
      as (p' & tk' & Hc & Hr' & Hla' & Hk' & Hp' & He' & Hd').
    exists p', tk'.
    split; [|split; [exact Hla'|split; [exact Hk'|split; [exact Hp'|
             split; [congruence|]]]]].
    + eapply converges_ext; [exact Heq|].
      eapply converges_bind; [exact Hc|]. simpl.
      rewrite (StartOf_in_set syFol p' tk' Hla' Hs) by (rewrite Hk'; lia).
      rewrite Hk'. apply converges_ret.
    + rewrite Hd', Hd1. reflexivity.
Qed.

Lemma WeakSeparator_resynchronizes_witness :
  (exists p',
      converges (fun fuel => @WeakSeparator exampleHeader fuel 4 1 0 state_at_number)
                (true, p')) /\
  (forall fuel,
      @WeakSeparator exampleHeader fuel 7 1 1 state_at_number
      = Ok (false, state_at_number)) /\
  (exists p1 p' b,
      @SynErr exampleHeader 7 state_at_rparen = Ok p1 /\
      converges (fun fuel => @WeakSeparator exampleHeader fuel 7 1 0 state_at_rparen)
                (b, p') /\
      WeakSeparator_sync 1 0 p' = Ok true) /\
  (exists p',
      converges (fun fuel => @WeakSeparator exampleHeader fuel 7 1 0 state_before_skip)
                (true, p') /\
      deref p' (la p') = Ok (tok 4 5 "1") /\
      terminals (Scanner.pending (scanner p')) = [tok 7 6 "+"] /\
      Errors.log (errors p') = [(1, 1, Errors.strerror 7)] /\
      Errors.count (errors p') = 1 /\
      errDist p' = 3) /\
  (exists p' tk',
      converges (fun fuel => @WeakSeparator exampleHeader fuel 7 1 0 state_at_rparen)
                (false, p') /\
      deref p' (la p') = Ok tk' /\ Token.kind tk' = 0 /\
      Scanner.pending (scanner p') = [] /\
      Errors.log (errors p') = [] /\
      errDist p' = 1).
Proof.
  assert (Hr : forall tk pend d, ready (midParser tk pend d)).
  { intros. split; [eexists; reflexivity|discriminate]. }
  split; [|split; [|split; [|split]]].
  - destruct (proj1 (@WeakSeparator_resynchronizes exampleHeader 4 1 0 state_at_number
                       (tok 4 0 "1") (Hr _ _ _) eq_refl) eq_refl)
      as (p' & Hc & _).
    exists p'. exact Hc.
  - apply (proj1 (proj2 (@WeakSeparator_resynchronizes exampleHeader 7 1 1
                           state_at_number (tok 4 0 "1") (Hr _ _ _) eq_refl))).
    + discriminate.
    + reflexivity.
  - destruct (proj1 (proj2 (proj2 (@WeakSeparator_resynchronizes exampleHeader 7 1 0
                              state_at_rparen (tok 12 3 ")") (Hr _ _ _) eq_refl))))
      as (p1 & p' & b & Hs & _ & Hc & Hsync & _).
    + discriminate.
    + reflexivity.
    + lia.
    + constructor.
    + exists p1, p', b. split; [exact Hs|]. split; [exact Hc|exact Hsync].
  - destruct (proj1 (proj2 (proj2 (proj2
                (@WeakSeparator_resynchronizes exampleHeader 7 1 0
                   state_before_skip (tok 12 0 ")") (Hr _ _ _) eq_refl))))
                ltac:(discriminate) eq_refl ltac:(lia)
                [tok 12 0 ")"; tok 1 1 "x"; tok 5 4 "{"] (tok 4 5 "1") [tok 7 6 "+"]
                eq_refl eq_refl eq_refl)
      as (p' & Hc & Hla & Hp & He & Hv & Hd).
    exists p'. split; [exact Hc|]. split; [exact Hla|]. split; [exact Hp|].
    split; [rewrite He; reflexivity|]. split; [rewrite He; reflexivity|exact Hd].
  - destruct (proj2 (proj2 (proj2 (proj2
                (@WeakSeparator_resynchronizes exampleHeader 7 1 0
                   state_at_rparen (tok 12 3 ")") (Hr _ _ _) eq_refl))))
                ltac:(discriminate) eq_refl ltac:(lia) eq_refl)
      as (p' & tk' & Hc & Hla & Hk & Hp & He & Hd).
    exists p', tk'. split; [exact Hc|]. split; [exact Hla|]. split; [exact Hk|].
    split; [exact Hp|]. split; [rewrite He; reflexivity|exact Hd].
Defined.

(** C6, as the specification states it, fails: the value returned is not
    whether the separator was there.  With a number as lookahead,
    [WeakSeparator] for ['+'] (kind 7) with the start of a factor as
    [syFol] (set 1) and the end-marker as [repFol] (set 0) finds no
    ['+'], writes its diagnostic, has nothing to skip since a number
    starts a factor, and returns true with the number still the
    lookahead. *)
Lemma WeakSeparator_true_without_separator :
  (exists p',
      @WeakSeparator exampleHeader 3 7 1 0 state_at_number = Ok (true, p') /\
      la p' = ScannedPtr (tok 4 0 "1") /\
      Errors.log (errors p') = [(1, 1, Errors.strerror 7)]) /\
  ~ (forall fuel n syFol repFol p b p',
        @WeakSeparator exampleHeader fuel n syFol repFol p = Ok (b, p') ->
        (b = true <-> la_kind p = Ok n)).
Proof.
  split.
  - eexists. split; [vm_compute; reflexivity|]. split; reflexivity.
  - intro H.
    destruct (H 3%nat 7 1 0 state_at_number true _ ltac:(vm_compute; reflexivity))
      as [H1 _].
    specialize (H1 eq_refl). discriminate.
Qed.

(* ================================================================== *)
(** * Further properties of the parser *)

(** X1.  Tokens that are not of the grammar (kinds above [maxT]) may stand
    anywhere in the input: when the terminals of the input are a phrase
    of the grammar, bare or between braces, [Parse] returns the value of
    the phrase without a diagnostic, whatever other tokens the scanner
    hands out between them.  [errDist] counts the terminals only, and in
    the braced form the cursor ends behind the closing brace. *)
Theorem Parse_skips_between_terminals :
  (forall (hdr : ParserHeader) e p,
      terminals (Scanner.pending (scanner p)) = tokens_of_expr e ->
      exists p',
        converges (fun fuel => Parse fuel p) p' /\
        val p' = eval_expr e /\ errors p' = errors p /\
        errDist p' = dist_after (List.length (tokens_of_expr e) + 2) (errDist p)) /\
  (forall (hdr : ParserHeader) lb e rb rest p,
      terminals (Scanner.pending (scanner p)) =
        terminal 5 lb :: tokens_of_expr e ++ terminal 6 rb :: rest ->
      exists p',
        converges (fun fuel => Parse fuel p) p' /\
        val p' = eval_expr e /\ errors p' = errors p /\
        errDist p' = dist_after (List.length (tokens_of_expr e) + 3) (errDist p) /\
        Scanner.GetPos (scanner p') =
          wrap32 (lpos rb + coco_string_length (ltext rb))).
Proof.
  split.
  - intros hdr e p Ht.
    destruct (Parse_start p) as (p1 & tk0 & Hc1 & Hr1 & Hb1 & He1 & Hd1 & Ht1).
    rewrite Ht in Hb1. rewrite <- (app_nil_r (tokens_of_expr e)) in Hb1.
    destruct (calcEntry_bare_consumed e [] p1 Hr1 Hb1)
      as (p2 & (Hr2 & Hb2 & He2 & Hv2 & Hd2 & _) & Hk).
    { apply (stop_expr_kind [] 0); [reflexivity|].
      simpl; intuition discriminate. }
    destruct (Expect_end (with_val (eval_expr e) p2) Hr2 Hb2)
      as (p3 & Hc3 & He3 & Hv3 & Hd3).
    exists p3. split; [|split; [exact Hv3|split]].
    + eapply converges_ext; [intro; apply Parse_eq|].
      conv_bind Hc1. apply Hk. exact Hc3.
    + rewrite He3. simpl. rewrite He2. exact He1.
    + rewrite Hd3. cbn [errDist with_val]. rewrite Hd2. cbn [errDist with_val].
      rewrite Hd1, <- !dist_after_add. f_equal. lia.
  - intros hdr lb e rb rest p Ht.
    destruct (Parse_start p) as (p1 & tk0 & Hc1 & Hr1 & Hb1 & He1 & Hd1 & Ht1).
    rewrite Ht in Hb1.
    destruct (calcEntry_braced_consumed lb e (terminal 6 rb :: rest) p1 Hr1 Hb1)
      as (p2 & (Hr2 & Hb2 & He2 & Hv2 & Hd2 & _) & Hk).
    { apply (stop_expr_kind _ 6); [reflexivity|].
      simpl; intuition discriminate. }
    destruct (Expect_before (with_val (eval_expr e) p2) _ _ Hr2 Hb2)
      as (p3 & Hc3 & (_ & _ & He3 & Hv3 & Hd3 & _) & Ht3).
    exists (with_scanner
              (Scanner.SetPos (wrap32 (lpos rb + coco_string_length (ltext rb)))
                              (scanner p3)) p3).
    split; [|split; [exact Hv3|split; [|split]]].
    + eapply converges_ext; [intro; apply Parse_eq|].
      conv_bind Hc1. apply (Hk p3 _ Hc3 Ht3).
    + simpl. rewrite He3. simpl. rewrite He2. exact He1.
    + cbn [errDist with_scanner]. rewrite Hd3. cbn [errDist with_val].
      rewrite Hd2. cbn [errDist with_val Datatypes.length].
      rewrite Hd1, <- !dist_after_add. f_equal. lia.
    + reflexivity.
Qed.

Lemma Parse_skips_between_terminals_witness :
  (exists p',
      converges (fun fuel => @Parse exampleHeader fuel (exampleParser input_pragmas 0)) p' /\
      val p' = 3%float /\ Errors.count (errors p') = 0 /\ errDist p' = 7) /\
  (exists p',
      converges (fun fuel => @Parse exampleHeader fuel (exampleParser input_braced_pragmas 0)) p' /\
      val p' = 3%float /\ Errors.count (errors p') = 0 /\ errDist p' = 8 /\
      Scanner.GetPos (scanner p') = 10).
Proof.
  split.
  - destruct (proj1 Parse_skips_between_terminals exampleHeader
                (phrase_sum 0 8 10) (exampleParser input_pragmas 0) eq_refl)
      as (p' & Hc & Hv & He & Hd).
    exists p'. split; [exact Hc|]. rewrite Hv, He, Hd.
    split; [vm_compute; reflexivity|]. split; reflexivity.
  - destruct (proj2 Parse_skips_between_terminals exampleHeader
                (lexeme 0 "{") (phrase_sum 1 6 8) (lexeme 9 "}") [tok 1 14 "x"]
                (exampleParser input_braced_pragmas 0) eq_refl)
      as (p' & Hc & Hv & He & Hd & Hp).
    exists p'. split; [exact Hc|]. rewrite Hv, He, Hd, Hp.
    split; [vm_compute; reflexivity|]. repeat split; reflexivity.
Defined.

(** X2.  A token behind a complete bare phrase: when the terminals of the
    input are a phrase followed by a token that is not the end-marker and
    does not continue the phrase, [Parse] of a parser that is at least
    [minErrDist] tokens from its last error returns the value of the
    phrase and writes exactly one diagnostic, [EOF expected], at that
    token, which it leaves as the lookahead. *)
Theorem trailing_token_is_reported (hdr : ParserHeader) e tok more p :
  terminals (Scanner.pending (scanner p)) = tokens_of_expr e ++ tok :: more ->
  ~ In (Token.kind tok) [0; 7; 8; 9; 10] ->
  minErrDist <= errDist p ->
  errDist p + Z.of_nat (List.length (tokens_of_expr e)) + 1 <= INT_MAX ->
  exists p',
    converges (fun fuel => Parse fuel p) p' /\
    val p' = eval_expr e /\
    errors p' = Errors.SynErr (Token.line tok) (Token.col tok) 0 (errors p) /\
    la p' = ScannedPtr tok /\ errDist p' = 0.
Proof.
  intros Ht Hn Hmin Hmax.
  pose proof minErrDist_int as Hint.
  destruct (Parse_start p) as (p1 & tk0 & Hc1 & Hr1 & Hb1 & He1 & Hd1 & Ht1).
  rewrite Ht in Hb1.
  assert (Hle : Token.kind tok <= maxT).
  { apply (terminals_le tok (Scanner.pending (scanner p))).
    rewrite Ht. apply in_or_app. right. left. reflexivity. }
  destruct (calcEntry_bare_consumed e (tok :: more) p1 Hr1 Hb1)
    as (p2 & (Hr2 & Hb2 & He2 & Hv2 & Hd2 & _) & Hk).
  { apply (stop_expr_kind _ (Token.kind tok));
      [apply next_kind_terminal; exact Hle|].
    simpl in *. intuition. }
  pose proof (before_la p2 tok more Hb2) as Hla.
  assert (Hderef : deref (with_val (eval_expr e) p2)
                         (la (with_val (eval_expr e) p2)) = Ok tok)
    by (simpl; rewrite Hla; reflexivity).
  exists (after_SynErr_at 0 tok (with_val (eval_expr e) p2)).
  destruct (after_SynErr_at_frame 0 tok (with_val (eval_expr e) p2))
    as (Fla & _ & _ & _ & Fv & Fd).
  split; [|split; [exact Fv|split; [|split; [rewrite Fla; exact Hla|exact Fd]]]].
  - eapply converges_ext; [intro; apply Parse_eq|].
    conv_bind Hc1. apply Hk. exists 0%nat. intros n _.
    apply Expect_mismatch; [exact Hderef|]. simpl in Hn. intuition.
  - rewrite after_SynErr_at_reported.
    + cbn [errors with_val]. rewrite He2. cbn [errors with_val]. rewrite He1.
      reflexivity.
    + cbn [errDist with_val]. rewrite Hd2. cbn [errDist with_val].
      rewrite Hd1, <- dist_after_add, dist_after_range; lia.
Qed.

Lemma trailing_token_is_reported_witness :
  exists p',
    converges (fun fuel => @Parse exampleHeader fuel (exampleParser input_trailing 0)) p' /\
    val p' = 3%float /\
    Errors.count (errors p') = 1 /\
    Errors.log (errors p') = [(1, 4, "EOF expected")] /\
    la p' = ScannedPtr (tok 12 3 ")").
Proof.
  destruct (trailing_token_is_reported exampleHeader (phrase_sum 0 1 2)
              (tok 12 3 ")") [] (exampleParser input_trailing 0))
    as (p' & Hc & Hv & He & Hla & _).
  - reflexivity.
  - simpl. intuition discriminate.
  - vm_compute. discriminate.
  - vm_compute. discriminate.
  - exists p'. split; [exact Hc|]. rewrite Hv, He.
    split; [vm_compute; reflexivity|].
    split; [reflexivity|]. split; [reflexivity|exact Hla].
Defined.





(** X5.  Nothing between the braces: when the terminals of the input
    start with ['{'] ['}'], [Parse] returns 0 as the value, writes exactly
    one diagnostic, [invalid Factor], at the closing brace, consumes the
    brace all the same and puts the cursor behind it. *)
Theorem empty_braces_give_zero (hdr : ParserHeader) lb rb rest p :
  terminals (Scanner.pending (scanner p)) = terminal 5 lb :: terminal 6 rb :: rest ->
  minErrDist <= errDist p ->
  errDist p + 2 <= INT_MAX ->
  exists p',
    converges (fun fuel => Parse fuel p) p' /\
    val p' = 0%float /\
    errors p' = Errors.SynErr (lline rb) (lcol rb) 15 (errors p) /\
    Scanner.GetPos (scanner p') = wrap32 (lpos rb + coco_string_length (ltext rb)).
Proof.
  intros Ht Hmin Hmax.
  pose proof minErrDist_int as Hint.
  destruct (Parse_start p) as (p1 & tk0 & Hc1 & Hr1 & Hb1 & He1 & Hd1 & Ht1).
  rewrite Ht in Hb1.
  pose proof (before_kind (with_val 0%float p1) _ _ Hb1) as Hk.
  destruct (Get_before (with_val 0%float p1) _ _ Hr1 Hb1)
    as (p2 & Hc2 & (Hr2 & Hb2 & He2 & Hv2 & Hd2 & _) & _).
  pose proof (before_la p2 _ _ Hb2) as Hla2.
  assert (Hderef : deref p2 (la p2) = Ok (terminal 6 rb))
    by (rewrite Hla2; reflexivity).
  set (p3 := after_SynErr_at 15 (terminal 6 rb) p2).
  assert (Hc3 : converges (fun n => Expr n (val p2) p2) (val p2, p3)).
  { apply (Expr_of_Factor_stops _ _ _ _ 6).
    - apply Factor_invalid; [exact Hderef|]. simpl; intuition discriminate.
    - unfold p3. rewrite la_kind_after_SynErr_at. apply (before_kind p2 _ _ Hb2).
    - simpl; intuition discriminate. }
  destruct (Expect_before (with_val (val p2) p3) (terminal 6 rb) rest)
    as (p4 & Hc4 & (_ & _ & He4 & Hv4 & _) & Ht4).
  { apply ready_after_SynErr_at. exact Hr2. }
  { apply before_after_SynErr_at. exact Hb2. }
  exists (with_scanner
            (Scanner.SetPos (wrap32 (lpos rb + coco_string_length (ltext rb)))
                            (scanner p4)) p4).
  split; [|split; [|split]].
  - eapply converges_ext; [intro; apply Parse_eq|].
    conv_bind Hc1.
    eapply converges_ext; [intro; apply calcEntry_eq|].
    conv_rewrite Hk. conv_bind Hc2. conv_bind Hc3. conv_bind Hc4.
    conv_rewrite Ht4. apply converges_ret.
  - cbn [val with_scanner]. rewrite Hv4. cbn [val with_val]. exact Hv2.
  - cbn [errors with_scanner]. rewrite He4. cbn [errors with_val]. unfold p3.
    rewrite after_SynErr_at_reported.
    + rewrite He2. cbn [errors with_val]. rewrite He1. reflexivity.
    + rewrite Hd2. cbn [errDist with_val Datatypes.length].
      rewrite Hd1, <- dist_after_add, dist_after_range; lia.
  - reflexivity.
Qed.

Lemma empty_braces_give_zero_witness :
  exists p',
    converges (fun fuel => @Parse exampleHeader fuel (exampleParser input_empty_braces 0)) p' /\
    val p' = 0%float /\
    Errors.count (errors p') = 1 /\
    Errors.log (errors p') = [(1, 2, "invalid Factor")] /\
    Scanner.GetPos (scanner p') = 2.
Proof.
  destruct (empty_braces_give_zero exampleHeader (lexeme 0 "{") (lexeme 1 "}")
              [tok 1 2 "x"] (exampleParser input_empty_braces 0))
    as (p' & Hc & Hv & He & Hp).
  - reflexivity.
  - vm_compute. discriminate.
  - vm_compute. discriminate.
  - exists p'. split; [exact Hc|]. rewrite Hv, He, Hp.
    split; [reflexivity|]. split; [reflexivity|]. split; reflexivity.
Defined.

(** X6.  [Parse] returns on every input: whatever tokens the scanner
    holds, as long as the kind of the first terminal is not negative,
    [Parse] neither loops nor reads outside the table of [StartOf] nor
    through a null pointer.  It only adds to the diagnostics written so
    far, and at most two more than three per token of the input. *)
Theorem Parse_always_returns (hdr : ParserHeader) p :
  0 <= next_kind (Scanner.pending (scanner p)) ->
  exists p',
    converges (fun fuel => Parse fuel p) p' /\
    (exists l, Errors.log (errors p') = Errors.log (errors p) ++ l) /\
    (List.length (Errors.log (errors p')) <=
     List.length (Errors.log (errors p))
     + 3 * List.length (Scanner.pending (scanner p)) + 2)%nat.
Proof.
  intro H. destruct (Parse_total p H) as (p' & Hc & _ & Hx & Hl).
  exists p'. auto.
Qed.

Lemma Parse_always_returns_witness :
  exists p',
    converges (fun fuel => @Parse exampleHeader fuel (exampleParser input_no_start 0)) p' /\
    (List.length (Errors.log (errors p')) <= 11)%nat.
Proof.
  destruct (Parse_always_returns exampleHeader (exampleParser input_no_start 0))
    as (p' & Hc & _ & Hl).
  - vm_compute. discriminate.
  - exists p'. split; [exact Hc|exact Hl].
Defined.

(** X7.  Whatever [Parse] returns, the diagnostics written before are
    still there, in their order, followed by the new ones, and the error
    count has grown by the number of new diagnostics (as long as the
    count stays a 32-bit integer). *)
Theorem Parse_appends_diagnostics (hdr : ParserHeader) fuel p p' :
  Parse fuel p = Ok p' ->
  exists l,
    Errors.log (errors p') = Errors.log (errors p) ++ l /\
    (INT_MIN <= Errors.count (errors p) ->
     Errors.count (errors p) + Z.of_nat (List.length l) <= INT_MAX ->
     Errors.count (errors p') = Errors.count (errors p) + Z.of_nat (List.length l)).
Proof.
  intro H. destruct (Parse_run _ _ H) as [tr Hrun].
  destruct (run_framed _ _ _ Hrun) as (_ & [l Hl]).
  exists l. split; [exact Hl|].
  intros Hlo Hhi. exact (@Parse_count hdr fuel p p' l H Hl Hlo Hhi).
Qed.

Lemma Parse_appends_diagnostics_witness :
  exists p' l,
    @Parse exampleHeader 20 (exampleParser input_trailing 0) = Ok p' /\
    Errors.log (errors p') = [] ++ l /\
    Errors.count (errors p') = Z.of_nat (List.length l).
Proof.
  assert (H : exists p', @Parse exampleHeader 20 (exampleParser input_trailing 0) = Ok p'
                         /\ Errors.log (errors p') = [(1, 4, "EOF expected")])
    by (eexists; split; [vm_compute; reflexivity|reflexivity]).
  destruct H as (p' & H & Hlog).
  destruct (Parse_appends_diagnostics exampleHeader 20 (exampleParser input_trailing 0) p' H)
    as (l & Hl & Hc).
  exists p', l. split; [exact H|]. split; [exact Hl|].
  assert (E : l = [(1, 4, "EOF expected")]) by (rewrite Hlog in Hl; symmetry; exact Hl).
  rewrite Hc.
  - reflexivity.
  - vm_compute. discriminate.
  - rewrite E. vm_compute. discriminate.
Defined.

(** X8.  Who deletes the [Errors] object.  [Parse] never changes
    [deleteErrorsDestruct_]: the destructor of a parser that was handed
    the [Errors] object of its host does not delete it, however often
    [Parse] has run, and the destructor of a parser that made its own
    deletes that one. *)
Theorem host_Errors_is_not_deleted (hdr : ParserHeader) :
  (forall fuel p p',
      Parse fuel p = Ok p' ->
      deleteErrorsDestruct_ p' = deleteErrorsDestruct_ p) /\
  (forall sc e val0 fuel p' fuel' p'',
      Parse fuel (newParser sc (Some e) val0) = Ok p' ->
      Parse fuel' p' = Ok p'' ->
      deleted_errors (destroy (newParser sc (Some e) val0)) = None /\
      deleted_errors (destroy p') = None /\
      deleted_errors (destroy p'') = None) /\
  (forall sc val0 fuel p',
      Parse fuel (newParser sc None val0) = Ok p' ->
      deleted_errors (destroy p') = Some (errors p')).
Proof.
  assert (H1 : forall fuel p p',
             Parse fuel p = Ok p' ->
             deleteErrorsDestruct_ p' = deleteErrorsDestruct_ p).
  { intros fuel p p' H. destruct (Parse_run _ _ H) as [tr Hrun].
    apply (run_framed _ _ _ Hrun). }
  split; [exact H1|]. split.
  - intros sc e val0 fuel p' fuel' p'' H H'.
    apply H1 in H, H'. unfold destroy. rewrite H', H. auto.
  - intros sc val0 fuel p' H. apply H1 in H. unfold destroy. rewrite H.
    reflexivity.
Qed.

Lemma host_Errors_is_not_deleted_witness :
  exists p' p'',
    @Parse exampleHeader 20
      (@newParser exampleHeader (Scanner.mk input_no_start 0) (Some Errors.new) 0%float)
      = Ok p' /\
    @Parse exampleHeader 20 p' = Ok p'' /\
    deleted_errors (destroy p') = None /\
    deleted_errors (destroy p'') = None.
Proof.
  assert (H : exists p' p'',
             @Parse exampleHeader 20
               (@newParser exampleHeader (Scanner.mk input_no_start 0)
                           (Some Errors.new) 0%float) = Ok p' /\
             @Parse exampleHeader 20 p' = Ok p'').
  { eexists. eexists. split; [vm_compute; reflexivity|].
    vm_compute. reflexivity. }
  destruct H as (p' & p'' & H & H').
  destruct (proj1 (proj2 (host_Errors_is_not_deleted exampleHeader))
              (Scanner.mk input_no_start 0) Errors.new 0%float 20%nat p' 20%nat p''
              H H') as (_ & H1 & H2).
  exists p', p''. auto.
Defined.

(** X9.  [Parse] does not reset [errDist].  When [Parse] is called a
    second time on a parser whose first call ended with a diagnostic, a
    diagnostic of the second call that is due less than [minErrDist]
    tokens later is not written: on an input that starts with two tokens
    neither of which starts a calc-entry, the first call writes
    [invalid calcEntry] at the first token, and the second call, which
    fails in the same way at the second token, writes nothing. *)
Theorem second_Parse_is_silent (hdr : ParserHeader) p tok1 tok2 rest :
  Scanner.pending (scanner p) = tok1 :: tok2 :: rest ->
  0 <= Token.kind tok1 <= maxT -> ~ In (Token.kind tok1) [3; 4; 5; 8; 11] ->
  0 <= Token.kind tok2 <= maxT -> ~ In (Token.kind tok2) [3; 4; 5; 8; 11] ->
  1 < minErrDist ->
  minErrDist <= errDist p + 1 <= INT_MAX ->
  exists p1 p2,
    converges (fun fuel => Parse fuel p) p1 /\
    converges (fun fuel => Parse fuel p1) p2 /\
    errors p1 = Errors.SynErr (Token.line tok1) (Token.col tok1) 14 (errors p) /\
    errors p2 = errors p1 /\
    val p2 = 0%float /\
    Scanner.pending (scanner p2) = rest.
Proof.
  intros Hp Hk1 Hn1 Hk2 Hn2 Hmin Hd.
  pose proof minErrDist_int as Hint.
  destruct (Parse_no_alternative p tok1 (tok2 :: rest) Hp Hk1 Hn1)
    as (q1 & Hc1 & Hp1 & Hd1 & He1).
  set (p1 := after_SynErr_at 14 tok1 (with_val 0%float q1)) in *.
  destruct (after_SynErr_at_frame 14 tok1 (with_val 0%float q1))
    as (_ & _ & Fsc1 & _ & _ & Fd1).
  fold p1 in Fsc1, Fd1.
  assert (Hp1' : Scanner.pending (scanner p1) = tok2 :: rest)
    by (rewrite Fsc1; exact Hp1).
  destruct (Parse_no_alternative p1 tok2 rest Hp1' Hk2 Hn2)
    as (q2 & Hc2 & Hp2 & Hd2 & He2).
  set (p2 := after_SynErr_at 14 tok2 (with_val 0%float q2)) in *.
  destruct (after_SynErr_at_frame 14 tok2 (with_val 0%float q2))
    as (_ & _ & Fsc2 & _ & Fv2 & _).
  fold p2 in Fsc2, Fv2.
  exists p1, p2. split; [exact Hc1|]. split; [exact Hc2|].
  split; [|split; [|split; [exact Fv2|rewrite Fsc2; exact Hp2]]].
  - unfold p1. rewrite after_SynErr_at_reported.
    + cbn [errors with_val]. rewrite He1. reflexivity.
    + cbn [errDist with_val]. rewrite Hd1.
      rewrite wrap32_id; unfold INT_MIN, INT_MAX in *; lia.
  - unfold p2, after_SynErr_at. cbn [errDist with_val].
    rewrite Hd2, Fd1.
    assert (E : (minErrDist <=? wrap32 (0 + 1)) = false).
    { apply Z.leb_gt. rewrite wrap32_id; unfold INT_MIN, INT_MAX; lia. }
    rewrite E. cbn [errors with_errDist with_val]. exact He2.
Qed.

Lemma second_Parse_is_silent_witness :
  exists p1 p2,
    converges (fun fuel => @Parse exampleHeader fuel (exampleParser input_no_start 0)) p1 /\
    converges (fun fuel => @Parse exampleHeader fuel p1) p2 /\
    Errors.log (errors p1) = [(1, 1, "invalid calcEntry")] /\
    errors p2 = errors p1.
Proof.
  destruct (second_Parse_is_silent exampleHeader (exampleParser input_no_start 0)
              (tok 12 0 ")") (tok 12 1 ")") [tok 1 2 "x"])
    as (p1 & p2 & Hc1 & Hc2 & He1 & He2 & _).
  - reflexivity.
  - vm_compute. split; discriminate.
  - simpl. intuition discriminate.
  - vm_compute. split; discriminate.
  - simpl. intuition discriminate.
  - reflexivity.
  - vm_compute. split; discriminate.
  - exists p1, p2. split; [exact Hc1|]. split; [exact Hc2|].
    split; [rewrite He1; reflexivity|exact He2].
Defined.



(** X11.  [ExpectWeak(n, follow)] on a lookahead of another kind than [n]
    hands one diagnostic to [SynErr] and then consumes tokens up to the
    first one that the follow set holds, which it leaves as the
    lookahead: every terminal before it is dropped, the tokens behind it
    stay with the scanner, nothing more is written, and [errDist] is the
    number of tokens dropped.  With the follow set 0, which holds the
    end-marker only, it consumes the whole input.  On a lookahead of the
    kind [n] it is [Get]. *)
Theorem ExpectWeak_skips_to_follow (hdr : ParserHeader) :
  (forall p n follow tk pre tok post,
      deref p (la p) = Ok tk -> dummyToken p <> None ->
      Token.kind tk <> n -> 0 <= follow < 2 ->
      tk :: terminals (Scanner.pending (scanner p)) = pre ++ tok :: post ->
      forallb (skipped_by follow) pre = true ->
      stops_at follow tok = true ->
      exists p',
        converges (fun fuel => ExpectWeak fuel n follow p) p' /\
        deref p' (la p') = Ok tok /\
        terminals (Scanner.pending (scanner p')) = post /\
        errors p' = errors (after_SynErr_at n tk p) /\
        errDist p' = dist_after (List.length pre) 0) /\
  (forall p n tk,
      deref p (la p) = Ok tk -> dummyToken p <> None ->
      Token.kind tk <> n ->
      forallb (skipped_by 0) (tk :: terminals (Scanner.pending (scanner p))) = true ->
      exists p' tk',
        converges (fun fuel => ExpectWeak fuel n 0 p) p' /\
        deref p' (la p') = Ok tk' /\ Token.kind tk' = 0 /\
        Scanner.pending (scanner p') = [] /\
        errors p' = errors (after_SynErr_at n tk p)) /\
  (forall p follow tk fuel,
      deref p (la p) = Ok tk ->
      ExpectWeak fuel (Token.kind tk) follow p = Get fuel p).
Proof.
  split; [|split].
  - intros p n follow tk pre tok post Hla Hd Hn Hf Hl Hpre Hstop.
    assert (Hr : ready p) by (split; [eauto|exact Hd]).
    destruct (after_SynErr_at_frame n tk p) as (Fla & _ & Fsc & _ & _ & Fd).
    destruct (ExpectWeak_skip_to follow pre (after_SynErr_at n tk p) tk tok post)
      as (p' & Hc & _ & Hla' & Hp' & He' & Hd'); try assumption.
    { apply ready_after_SynErr_at. exact Hr. }
    { rewrite deref_after_SynErr_at, Fla. exact Hla. }
    { rewrite Fsc. exact Hl. }
    exists p'. rewrite Fd in Hd'. split; [|auto].
    unfold ExpectWeak, la_kind. conv_rewrite Hla.
    apply Z.eqb_neq in Hn. rewrite Hn.
    conv_rewrite (SynErr_eq n p Hla). exact Hc.
  - intros p n tk Hla Hd Hn Hall.
    assert (Hr : ready p) by (split; [eauto|exact Hd]).
    destruct (after_SynErr_at_frame n tk p) as (Fla & _ & Fsc & _ & _ & Fd).
    destruct (ExpectWeak_skip_to_end 0
                (tk :: terminals (Scanner.pending (scanner p)))
                (after_SynErr_at n tk p) tk)
      as (p' & tk' & Hc & _ & Hla' & Hk' & Hp' & He' & _).
    { apply ready_after_SynErr_at. exact Hr. }
    { rewrite deref_after_SynErr_at, Fla. exact Hla. }
    { lia. }
    { reflexivity. }
    { rewrite Fsc. reflexivity. }
    { exact Hall. }
    exists p', tk'. split; [|auto].
    unfold ExpectWeak, la_kind. conv_rewrite Hla.
    apply Z.eqb_neq in Hn. rewrite Hn.
    conv_rewrite (SynErr_eq n p Hla). exact Hc.
  - intros p follow tk fuel Hla. unfold ExpectWeak, la_kind.
    rewrite Hla. simpl. rewrite Z.eqb_refl. reflexivity.
Qed.

Lemma ExpectWeak_skips_to_follow_witness :
  (exists p',
      converges (fun fuel => @ExpectWeak exampleHeader fuel 6 1 state_before_skip) p' /\
      deref p' (la p') = Ok (tok 4 5 "1") /\
      terminals (Scanner.pending (scanner p')) = [tok 7 6 "+"] /\
      Errors.log (errors p') = [(1, 1, Errors.strerror 6)] /\
      errDist p' = 3) /\
  (exists p' tk',
      converges (fun fuel => @ExpectWeak exampleHeader fuel 6 0 state_before_skip) p' /\
      deref p' (la p') = Ok tk' /\ Token.kind tk' = 0 /\
      Scanner.pending (scanner p') = []).
Proof.
  split.
  - destruct (proj1 (ExpectWeak_skips_to_follow exampleHeader)
                state_before_skip 6 1 (tok 12 0 ")")
                [tok 12 0 ")"; tok 1 1 "x"; tok 5 4 "{"] (tok 4 5 "1") [tok 7 6 "+"])
      as (p' & Hc & Hla & Hp & He & Hd).
    + reflexivity.
    + discriminate.
    + discriminate.
    + lia.
    + reflexivity.
    + reflexivity.
    + reflexivity.
    + exists p'. split; [exact Hc|]. split; [exact Hla|]. split; [exact Hp|].
      rewrite He, Hd. split; reflexivity.
  - destruct (proj1 (proj2 (ExpectWeak_skips_to_follow exampleHeader))
                state_before_skip 6 (tok 12 0 ")"))
      as (p' & tk' & Hc & Hla & Hk & Hp & _).
    + reflexivity.
    + discriminate.
    + discriminate.
    + reflexivity.
    + exists p', tk'. auto.
Defined.

(** X12.  [ExpectWeak(n, 1)] does not return when no token that starts a
    [Factor] is left.  The follow set 1 does not hold the end-marker and
    the loop of [ExpectWeak] does not look for it: on a lookahead of
    another kind than [n], before terminals none of which is a variable,
    a number, ['-'] or ['('], the loop goes on calling [Get] at the end
    of the input, with whatever fuel it is given. *)
Theorem ExpectWeak_never_returns (hdr : ParserHeader) p n tk fuel :
  deref p (la p) = Ok tk -> dummyToken p <> None ->
  Token.kind tk <> n ->
  forallb (skipped_by 1) (tk :: terminals (Scanner.pending (scanner p))) = true ->
  ExpectWeak fuel n 1 p = OutOfFuel.
Proof.
  intros Hla Hd Hn Hall.
  assert (Hr : ready p) by (split; [eauto|exact Hd]).
  destruct (after_SynErr_at_frame n tk p) as (Fla & _ & Fsc & _ & _ & _).
  unfold ExpectWeak, la_kind. rewrite Hla. simpl.
  apply Z.eqb_neq in Hn. rewrite Hn.
  rewrite (SynErr_eq n p Hla). simpl.
  apply (ExpectWeak_skip_diverges fuel (after_SynErr_at n tk p) tk).
  - apply ready_after_SynErr_at. exact Hr.
  - rewrite deref_after_SynErr_at, Fla. exact Hla.
  - rewrite Fsc. exact Hall.
Qed.

Lemma ExpectWeak_never_returns_witness :
  @ExpectWeak exampleHeader 1000 6 1 state_at_rparen = OutOfFuel.
Proof.
  apply (ExpectWeak_never_returns exampleHeader state_at_rparen 6 (tok 12 3 ")") 1000%nat).
  - reflexivity.
  - discriminate.
  - discriminate.
  - reflexivity.
Defined.

(** X13.  The message of a diagnostic tells its code: [Errors::strerror]
    gives different messages for different codes, for the sixteen codes
    of the grammar and for every other one. *)
Theorem strerror_tells_the_code (n m : Z) :
  n <> m -> Errors.strerror n <> Errors.strerror m.
Proof.
  assert (Hdef : forall k, ~ 0 <= k <= 15 ->
                           Errors.strerror k
                           = ("error " ++ NilEmpty.string_of_int (Z.to_int k))%string).
  { intros k Hk. unfold Errors.strerror.
    destruct k as [|q|q]; [lia| |reflexivity].
    do 4 (try destruct q as [q|q|]); try reflexivity; lia. }
  assert (Hfix : forall k, 0 <= k <= 15 ->
                           In k [0; 1; 2; 3; 4; 5; 6; 7; 8; 9; 10; 11; 12; 13; 14; 15])
    by (intros k Hk; simpl; lia).
  assert (Hinj : forall a b, ~ 0 <= a <= 15 -> ~ 0 <= b <= 15 ->
                             Errors.strerror a = Errors.strerror b -> a = b).
  { intros a b Ha Hb E. rewrite (Hdef a Ha), (Hdef b Hb) in E.
    simpl in E. injection E as E.
    apply (f_equal NilEmpty.int_of_string) in E.
    rewrite !NilEmpty.isi in E. injection E as E.
    apply (f_equal Z.of_int) in E. rewrite !DecimalZ.of_to in E. exact E. }
  intros Hnm E. apply Hnm. clear Hnm.
  destruct (Z_le_dec 0 n) as [Hn0|Hn0];
    [destruct (Z_le_dec n 15) as [Hn1|Hn1]|];
    (destruct (Z_le_dec 0 m) as [Hm0|Hm0];
     [destruct (Z_le_dec m 15) as [Hm1|Hm1]|]);
    try (apply Hinj; [lia|lia|exact E]).
  - pose proof (Hfix n (conj Hn0 Hn1)) as Hn.
    pose proof (Hfix m (conj Hm0 Hm1)) as Hm.
    simpl in Hn, Hm.
    repeat (destruct Hn as [Hn|Hn]; [subst n|]); try contradiction;
      repeat (destruct Hm as [Hm|Hm]; [subst m|]); try contradiction;
      try reflexivity; discriminate E.
  - pose proof (Hfix n (conj Hn0 Hn1)) as Hn.
    rewrite (Hdef m) in E by lia. simpl in Hn.
    repeat (destruct Hn as [Hn|Hn]; [subst n|]); try contradiction;
      discriminate E.
  - pose proof (Hfix n (conj Hn0 Hn1)) as Hn.
    rewrite (Hdef m) in E by lia. simpl in Hn.
    repeat (destruct Hn as [Hn|Hn]; [subst n|]); try contradiction;
      discriminate E.
  - pose proof (Hfix m (conj Hm0 Hm1)) as Hm.
    rewrite (Hdef n) in E by lia. simpl in Hm.
    repeat (destruct Hm as [Hm|Hm]; [subst m|]); try contradiction;
      discriminate E.
  - pose proof (Hfix m (conj Hm0 Hm1)) as Hm.
    rewrite (Hdef n) in E by lia. simpl in Hm.
    repeat (destruct Hm as [Hm|Hm]; [subst m|]); try contradiction;
      discriminate E.
Qed.

Lemma strerror_tells_the_code_witness :
  Errors.strerror 6 <> Errors.strerror 12 /\
  Errors.strerror 15 <> Errors.strerror 16 /\
  Errors.strerror 16 <> Errors.strerror (-16).
Proof.
  split; [|split]; apply strerror_tells_the_code; discriminate.
Defined.

(* ================================================================== *)
(** * Properties of the ParaView reader *)

(** X14.  A call of [RequestInformation] that returns 0 leaves the
    information objects of the output ports as they were, and the reader
    without a file name or without a backend: when it has a file name, the
    backend is gone, and [GetTimeStep] gives -1.  Whatever call of
    [RequestData] follows then returns 0 as well, without a call of the
    backend and without a change of its information objects. *)
Theorem failed_RequestInformation_stops_RequestData
        (bk : Reader.Backend) r outputVector r' outputVector' :
  Reader.RequestInformation r outputVector = (0, r', outputVector') ->
  outputVector' = outputVector /\
  (Reader.FileName r <> None ->
   Reader.backend_ r' = None /\ Reader.GetTimeStep r' = -1) /\
  forall renderViews infos,
  exists r'',
    Reader.RequestData renderViews r' infos = Ok (0, r'', infos) /\
    Reader.backend_ r'' = Reader.backend_ r' /\
    Reader.FileName r'' = Reader.FileName r' /\
    Reader.settings r'' = Reader.settings r'.
Proof.
  unfold Reader.RequestInformation. intro H.
  destruct (Reader.FileName r) as [name|] eqn:Hn.
  - destruct (Reader.findTimes _ _ _) as [times b].
    destruct times as [|front more]; [|discriminate].
    injection H as <- <-.
    split; [reflexivity|]. split; [intros _; split; reflexivity|].
    intros renderViews infos. unfold Reader.RequestData. simpl. rewrite Hn.
    eexists. split; [reflexivity|]. simpl. auto.
  - injection H as <- <-.
    split; [reflexivity|]. split; [congruence|].
    intros renderViews infos. unfold Reader.RequestData. simpl. rewrite Hn.
    eexists. split; [reflexivity|]. simpl. auto.
Qed.

Lemma failed_RequestInformation_stops_RequestData_witness :
  exists r',
    @Reader.RequestInformation exampleBackend (exampleReader "empty.foam") examplePorts
      = (0, r', examplePorts) /\
    Reader.GetTimeStep r' = -1 /\
    exists r'',
      Reader.RequestData None r' examplePorts = Ok (0, r'', examplePorts) /\
      Reader.backend_ r'' = None.
Proof.
  eexists. split; [reflexivity|].
  destruct (failed_RequestInformation_stops_RequestData exampleBackend
              (exampleReader "empty.foam") examplePorts _ examplePorts eq_refl)
    as (_ & H1 & H2).
  split; [apply H1; discriminate|].
  destruct (H2 None examplePorts) as (r'' & Hd & Hb & _).
  exists r''. split; [exact Hd|]. rewrite Hb. reflexivity.
Defined.

(** X15.  A call of [RequestInformation] that returns 1 has set the same
    time steps on every output port, the times that the backend has
    found, of which there is at least one, and the same time range, from
    the first of them to the last; it has kept the number of the ports
    and what else they carry, and the reader has a backend afterwards. *)
Theorem RequestInformation_sets_identical_times
        (bk : Reader.Backend) r outputVector r' outputVector' :
  Reader.RequestInformation r outputVector = (1, r', outputVector') ->
  exists name b front more,
    Reader.FileName r = Some name /\
    Reader.findTimes (Reader.SkipZeroTime (Reader.settings r)) (Reader.settings r)
      (match Reader.backend_ r with
       | None => Reader.new_vtkPVFoam name (Reader.settings r)
       | Some b0 => Reader.updateInfo (Reader.settings r) b0
       end) = (front :: more, b) /\
    Reader.backend_ r' = Some b /\
    List.length outputVector' = List.length outputVector /\
    Forall (fun i =>
              Reader.TIME_STEPS i = Some (front :: more) /\
              Reader.TIME_RANGE i = Some [front; last more front])
           outputVector' /\
    map (@Reader.UPDATE_TIME_STEP bk) outputVector'
      = map (@Reader.UPDATE_TIME_STEP bk) outputVector /\
    map (@Reader.DATA_OBJECT bk) outputVector'
      = map (@Reader.DATA_OBJECT bk) outputVector.
Proof.
  unfold Reader.RequestInformation. intro H.
  destruct (Reader.FileName r) as [name|] eqn:Hn; [|discriminate].
  destruct (Reader.findTimes _ _ _) as [times b] eqn:Hf.
  destruct times as [|front more]; [discriminate|].
  injection H as <- <-.
  exists name, b, front, more.
  split; [reflexivity|]. split; [exact Hf|]. split; [reflexivity|].
  rewrite !length_map, !map_map. simpl.
  split; [reflexivity|]. split; [|split; reflexivity].
  apply Forall_forall. intros i Hi.
  apply in_map_iff in Hi. destruct Hi as (j & <- & _).
  simpl. split; [reflexivity|]. destruct more; reflexivity.
Qed.

Lemma RequestInformation_sets_identical_times_witness :
  exists r' outputVector',
    @Reader.RequestInformation exampleBackend (exampleReader "case.foam") examplePorts
      = (1, r', outputVector') /\
    Forall (fun i =>
              Reader.TIME_STEPS i = Some [0%float; 0.5%float; 1%float] /\
              Reader.TIME_RANGE i = Some [0%float; 1%float])
           outputVector'.
Proof.
  eexists. eexists. split; [reflexivity|].
  destruct (RequestInformation_sets_identical_times exampleBackend
              (exampleReader "case.foam") examplePorts _ _ eq_refl)
    as (name & b & front & more & Hname & Hf & _ & _ & Hall & _).
  injection Hname as Hname. subst name.
  vm_compute in Hf. injection Hf as E1 E2 _. subst front more.
  exact Hall.
Defined.



(** X17.  The setters of [IncludeSets], [IncludeZones], [ShowGroupsOnly]
    and [ShowPatchNames] do nothing when the flag has the value already,
    so that a second call with the same value changes nothing and calls
    the backend no more; after a call the flag has the value; and without
    a backend they leave the reader without one. *)
Theorem flag_setters_are_idempotent (bk : Reader.Backend) :
  (forall v r,
      Reader.SetIncludeSets v (Reader.SetIncludeSets v r) = Reader.SetIncludeSets v r /\
      Reader.IncludeSets (Reader.settings (Reader.SetIncludeSets v r)) = v /\
      (Reader.IncludeSets (Reader.settings r) = v -> Reader.SetIncludeSets v r = r) /\
      (Reader.backend_ r = None ->
       Reader.backend_ (Reader.SetIncludeSets v r) = None)) /\
  (forall v r,
      Reader.SetIncludeZones v (Reader.SetIncludeZones v r) = Reader.SetIncludeZones v r /\
      Reader.IncludeZones (Reader.settings (Reader.SetIncludeZones v r)) = v /\
      (Reader.IncludeZones (Reader.settings r) = v -> Reader.SetIncludeZones v r = r) /\
      (Reader.backend_ r = None ->
       Reader.backend_ (Reader.SetIncludeZones v r) = None)) /\
  (forall v r,
      Reader.SetShowGroupsOnly v (Reader.SetShowGroupsOnly v r)
        = Reader.SetShowGroupsOnly v r /\
      Reader.ShowGroupsOnly (Reader.settings (Reader.SetShowGroupsOnly v r)) = v /\
      (Reader.ShowGroupsOnly (Reader.settings r) = v ->
       Reader.SetShowGroupsOnly v r = r) /\
      (Reader.backend_ r = None ->
       Reader.backend_ (Reader.SetShowGroupsOnly v r) = None)) /\
  (forall views views' v r,
      Reader.SetShowPatchNames views' v (Reader.SetShowPatchNames views v r)
        = Reader.SetShowPatchNames views v r /\
      Reader.ShowPatchNames (Reader.settings (Reader.SetShowPatchNames views v r)) = v /\
      (Reader.ShowPatchNames (Reader.settings r) = v ->
       Reader.SetShowPatchNames views v r = r) /\
      (Reader.backend_ r = None ->
       Reader.backend_ (Reader.SetShowPatchNames views v r) = None)).
Proof.
  split; [|split; [|split]].
  - intros v [f b [c1 c2 c3 c4 c5 c6 c7 c8 c9 c10 c11] e].
    unfold Reader.SetIncludeSets, Reader.update_backend. simpl.
    destruct c6, v, b; simpl; repeat split; intros; try congruence; reflexivity.
  - intros v [f b [c1 c2 c3 c4 c5 c6 c7 c8 c9 c10 c11] e].
    unfold Reader.SetIncludeZones, Reader.update_backend. simpl.
    destruct c7, v, b; simpl; repeat split; intros; try congruence; reflexivity.
  - intros v [f b [c1 c2 c3 c4 c5 c6 c7 c8 c9 c10 c11] e].
    unfold Reader.SetShowGroupsOnly, Reader.update_backend. simpl.
    destruct c9, v, b; simpl; repeat split; intros; try congruence; reflexivity.
  - intros views views' v [f b [c1 c2 c3 c4 c5 c6 c7 c8 c9 c10 c11] e].
    unfold Reader.SetShowPatchNames, Reader.updatePatchNamesView. simpl.
    destruct c8, v, b, views; simpl; repeat split; intros;
      try congruence; reflexivity.
Qed.

Lemma flag_setters_are_idempotent_witness :
  @Reader.SetIncludeSets exampleBackend false (exampleReader "case.foam")
    = exampleReader "case.foam" /\
  Reader.backend_
    (@Reader.SetIncludeZones exampleBackend true (exampleReader "case.foam")) = None.
Proof.
  split.
  - apply (proj1 (flag_setters_are_idempotent exampleBackend)). reflexivity.
  - apply (proj1 (proj2 (flag_setters_are_idempotent exampleBackend))). reflexivity.
Defined.
